(** * The Multiverse localization editor: reconciliation and query engine

    A shallow embedding of the core of the editor:
    - [flattenObject] / [unflattenObject] (utils): the codec between a nested
      JSON document and a flat record of dotted leaf paths;
    - the row rebuild of [handleFetchFiles] (App.tsx), called [Reconcile];
    - the search filter [filteredRows] and [modifiedCount] (App.tsx);
    - the bulk suggestion loop [handleSuggestAll] (App.tsx) on top of
      [getTranslationSuggestions] (services/geminiService);
    - the row update of [handlePushToGitHub] (App.tsx), and the document
      that it and [handleCopyRawJson] build from the rows;
    - the handlers of a row (editing, reverting, accepting and discarding a
      suggestion, the suggestion button) and [handleRevertProject] (App.tsx);
    - the project list: the load and save effects, [updateActiveProject] and
      the handlers that create, rename, delete, select and import a project
      (App.tsx, with [importProject] of utils);
    - [bytesToBase64] / [base64ToBytes] (utils).

    JavaScript strings are modelled as [string] (sequences of 8-bit code
    units), objects whose property order is observable as association lists
    kept in own-property order, and [Record<string, boolean>] state that is
    only ever looked up as a [gmap]. *)

From Stdlib Require Import ZArith NArith Strings.String Strings.Ascii.
From Stdlib Require Import DecimalString Decimal DecimalPos DecimalN.
From stdpp Require Import base option list strings gmap.

Open Scope string_scope.
Open Scope list_scope.

(** ** JavaScript string primitives *)

Module Js.

(** [s.length] and the tail of [s] after [n] code units. *)
Fixpoint drop (n : nat) (s : string) : string :=
  match n, s with
  | O, _ => s
  | S _, EmptyString => EmptyString
  | S n', String _ s' => drop n' s'
  end.

Fixpoint take (n : nat) (s : string) : string :=
  match n, s with
  | O, _ => EmptyString
  | S _, EmptyString => EmptyString
  | S n', String c s' => String c (take n' s')
  end.

(** [s.substring(start, end)]: both indices are clamped to [0, s.length]
    and swapped when [start > end]. *)
Definition substring (s : string) (start end_ : Z) : string :=
  let len := Z.of_nat (String.length s) in
  let a := Z.max 0 (Z.min start len) in
  let b := Z.max 0 (Z.min end_ len) in
  let lo := Z.min a b in
  let hi := Z.max a b in
  take (Z.to_nat (hi - lo)) (drop (Z.to_nat lo) s).

(** [s.startsWith(p)]. *)
Fixpoint startsWith (s p : string) {struct p} : bool :=
  match p, s with
  | EmptyString, _ => true
  | String _ _, EmptyString => false
  | String a p', String b s' => Ascii.eqb a b && startsWith s' p'
  end.

(** [s.includes(sub)]. *)
Fixpoint includes (s sub : string) : bool :=
  startsWith s sub ||
  match s with
  | EmptyString => false
  | String _ s' => includes s' sub
  end.

(** [s.indexOf(sub)], [-1] when [sub] does not occur. *)
Fixpoint indexOf_from (i : Z) (s sub : string) : Z :=
  if startsWith s sub then i
  else match s with
       | EmptyString => (-1)%Z
       | String _ s' => indexOf_from (i + 1)%Z s' sub
       end.

Definition indexOf (s sub : string) : Z := indexOf_from 0 s sub.

(** The scan of [replaceAll] for a non-empty pattern: [skip] counts the code
    units of a match that are still to be consumed. *)
Fixpoint replaceAll_scan (pat rep : string) (skip : nat) (s : string) : string :=
  match s with
  | EmptyString => EmptyString
  | String c s' =>
      match skip with
      | S n => replaceAll_scan pat rep n s'
      | O =>
          if startsWith s pat
          then rep +:+ replaceAll_scan pat rep (String.length pat - 1) s'
          else String c (replaceAll_scan pat rep 0 s')
      end
  end.

Fixpoint interleave (rep s : string) : string :=
  match s with
  | EmptyString => rep
  | String c s' => rep +:+ String c (interleave rep s')
  end.

(** [s.replaceAll(pat, rep)] for a string pattern: every occurrence, found
    left to right without overlap; the empty pattern matches between all
    code units. *)
Definition replaceAll (s pat rep : string) : string :=
  match pat with
  | EmptyString => interleave rep s
  | String _ _ => replaceAll_scan pat rep 0 s
  end.

(** The scan of [split]: the piece being read and the pieces after it. *)
Fixpoint split_scan (sep : string) (skip : nat) (s : string) : string * list string :=
  match s with
  | EmptyString => (EmptyString, [])
  | String c s' =>
      match skip with
      | S n => split_scan sep n s'
      | O =>
          if startsWith s sep
          then let '(h, t) := split_scan sep (String.length sep - 1) s' in
               (EmptyString, h :: t)
          else let '(h, t) := split_scan sep 0 s' in
               (String c h, t)
      end
  end.

Fixpoint chars (s : string) : list string :=
  match s with
  | EmptyString => []
  | String c s' => String c EmptyString :: chars s'
  end.

(** [s.split(sep)]. *)
Definition split (s sep : string) : list string :=
  match sep with
  | EmptyString => chars s
  | String _ _ => let '(h, t) := split_scan sep 0 s in h :: t
  end.

(** [xs.join(sep)]. *)
Fixpoint join (sep : string) (xs : list string) : string :=
  match xs with
  | [] => EmptyString
  | [x] => x
  | x :: xs' => x +:+ sep +:+ join sep xs'
  end.

(** [s.toLowerCase()] on the ASCII letters; other code units are kept. *)
Definition lower_ascii (c : ascii) : ascii :=
  let n := nat_of_ascii c in
  if (65 <=? n)%nat && (n <=? 90)%nat then ascii_of_nat (n + 32) else c.

Fixpoint toLowerCase (s : string) : string :=
  match s with
  | EmptyString => EmptyString
  | String c s' => String (lower_ascii c) (toLowerCase s')
  end.

(** White space removed by [trim]: tab, line feed, vertical tab, form feed,
    carriage return and space. *)
Definition is_space (c : ascii) : bool :=
  let n := nat_of_ascii c in
  ((9 <=? n)%nat && (n <=? 13)%nat) || (n =? 32)%nat.

Fixpoint trimStart (s : string) : string :=
  match s with
  | EmptyString => EmptyString
  | String c s' => if is_space c then trimStart s' else s
  end.

Fixpoint trimEnd (s : string) : string :=
  match s with
  | EmptyString => EmptyString
  | String c s' =>
      match trimEnd s' with
      | EmptyString => if is_space c then EmptyString else String c EmptyString
      | t => String c t
      end
  end.

Definition trim (s : string) : string := trimEnd (trimStart s).

(** [String(n)] for a non-negative integer, and [n.toString()] on integers. *)
Definition dec (n : N) : string := NilZero.string_of_uint (N.to_uint n).

Definition Z_toString (z : Z) : string :=
  match z with
  | Zneg p => "-" +:+ dec (Npos p)
  | _ => dec (Z.to_N z)
  end.

(** A property name is an array index when it is the canonical decimal form
    of an integer below [2^32 - 1]. *)
Definition array_index (k : string) : option N :=
  match NilZero.uint_of_string k with
  | Some u =>
      let n := N.of_uint u in
      if String.eqb (dec n) k && (n <? 4294967295)%N then Some n else None
  | None => None
  end.

(** Truthiness of a string. *)
Definition truthy_string (s : string) : bool :=
  match s with EmptyString => false | _ => true end.

End Js.

(** ** Completions

    A JavaScript expression either completes with a value or throws.  The
    third outcome marks the runs that leave the fragment of the language
    modelled here (a property found on a prototype, a named property or a
    hole in an array, a property read through a primitive's wrapper). *)

Inductive JsError := TypeError | SyntaxError.

Inductive Outcome (A : Type) :=
  | Done (a : A)
  | Throw (e : JsError)
  | Unsupported.
Arguments Done {A} a.
Arguments Throw {A} e.
Arguments Unsupported {A}.

#[global] Instance outcome_bind : MBind Outcome := fun A B f m =>
  match m with
  | Done a => f a
  | Throw e => Throw e
  | Unsupported => Unsupported
  end.

#[global] Instance outcome_ret : MRet Outcome := fun A a => Done a.

(** ** Documents and flat records (types.ts, utils) *)

(** [ValueType = string | number | boolean]; numbers are the integers, the
    code only tests them for truthiness and prints them. *)
Inductive ValueType :=
  | VStr (s : string)
  | VNum (n : Z)
  | VBool (b : bool).

(** A parsed JSON document. The properties of an object are listed in
    own-property order. *)
#[warnings="-register-all"]
Inductive JVal :=
  | JLeaf (v : ValueType)
  | JObj (props : list (string * JVal))
  | JArr (items : list JVal).

(** A plain object used as an ordered record. *)
Definition Rec (V : Type) := list (string * V).

Module Obj.
Section Props.
Context {V : Type}.

(** [o[k]] on own properties.  The names looked up in the records and in
    the flag table are flat keys, which are never names of the prototype. *)
Fixpoint get (o : Rec V) (k : string) : option V :=
  match o with
  | [] => None
  | (k', v) :: o' => if String.eqb k' k then Some v else get o' k
  end.

Definition has (o : Rec V) (k : string) : bool :=
  match get o k with Some _ => true | None => false end.

(** Overwriting an existing property keeps its place. *)
Fixpoint update (o : Rec V) (k : string) (v : V) : Rec V :=
  match o with
  | [] => []
  | (k', v') :: o' =>
      if String.eqb k' k then (k', v) :: o' else (k', v') :: update o' k v
  end.

(** A new array-index property goes before the first property that is not
    an index or is a larger index. *)
Fixpoint insert_index (o : Rec V) (n : N) (k : string) (v : V) : Rec V :=
  match o with
  | [] => [(k, v)]
  | (k', v') :: o' =>
      match Js.array_index k' with
      | Some m => if (m <? n)%N then (k', v') :: insert_index o' n k v
                  else (k, v) :: o
      | None => (k, v) :: o
      end
  end.

(** [o[k] = v]: own-property order is ascending array indices first, then
    the other names in creation order. *)
Definition set (o : Rec V) (k : string) (v : V) : Rec V :=
  if has o k then update o k v
  else match Js.array_index k with
       | Some n => insert_index o n k v
       | None => o ++ [(k, v)]
       end.

(** [Object.keys(o)], also the order of [for (k in o)]. *)
Definition keys (o : Rec V) : list string := map fst o.

End Props.
End Obj.

(** *** walkjs: the traversal behind [flattenObject]

    walkjs is a dependency of the application.  With the default options
    [walk] visits the nodes depth first, parents before children, children
    in property (or index) order.  A node knows its key and whether its
    parent is an array; [getPath] concatenates the default path format of
    the nodes from the root down: the key between brackets and double
    quotes for a member, the index between brackets for an element. *)

Inductive Seg :=
  | ObjKey (k : string)
  | ArrIdx (i : N).

(** The double quote, written by its code so that no literal has to escape it. *)
Definition dquote : string := String (ascii_of_nat 34) EmptyString.

Definition defaultPathFormatter (s : Seg) : string :=
  match s with
  | ArrIdx i => "[" +:+ Js.dec i +:+ "]"
  | ObjKey k => "[" +:+ dquote +:+ k +:+ dquote +:+ "]"
  end.

Fixpoint getPath (p : list Seg) : string :=
  match p with
  | [] => EmptyString
  | s :: p' => defaultPathFormatter s +:+ getPath p'
  end.

(** The nodes that pass the filter of [flattenObject]
    ([nodeType] neither ['object'] nor ['array']), in visit order, each with
    its path from the root and its value. *)
Fixpoint walk (path : list Seg) (v : JVal) {struct v} : list (list Seg * ValueType) :=
  match v with
  | JLeaf x => [(path, x)]
  | JObj props =>
      (fix members (ps : list (string * JVal)) : list (list Seg * ValueType) :=
         match ps with
         | [] => []
         | (k, c) :: ps' => walk (path ++ [ObjKey k]) c ++ members ps'
         end) props
  | JArr items =>
      (fix elements (i : N) (cs : list JVal) : list (list Seg * ValueType) :=
         match cs with
         | [] => []
         | c :: cs' => walk (path ++ [ArrIdx i]) c ++ elements (N.succ i) cs'
         end) 0%N items
  end.

(** The visits below the elements of an array, from index [i] on, and below
    the members of an object: the two inner loops of [walk]. *)
Fixpoint walk_elements (path : list Seg) (i : N) (cs : list JVal)
    : list (list Seg * ValueType) :=
  match cs with
  | [] => []
  | c :: cs' => walk (path ++ [ArrIdx i]) c ++ walk_elements path (N.succ i) cs'
  end.

Fixpoint walk_members (path : list Seg) (ps : list (string * JVal))
    : list (list Seg * ValueType) :=
  match ps with
  | [] => []
  | (k, c) :: ps' => walk (path ++ [ObjKey k]) c ++ walk_members path ps'
  end.

(** The key computed by the visit callback from [node.getPath()]. *)
Definition path_key (raw : string) : string :=
  Js.replaceAll
    (Js.replaceAll (Js.substring raw 1 (Z.of_nat (String.length raw) - 1)) "][" ".")
    dquote "'".

Definition flattenObject (obj : JVal) : Rec ValueType :=
  fold_left (fun newObj '(p, val) => Obj.set newObj (path_key (getPath p)) val)
            (walk [] obj) [].

(** *** The shape of the flat keys *)

(** What the default path format puts between the brackets of a node. *)
Definition core (s : Seg) : string :=
  match s with
  | ObjKey k => dquote +:+ k +:+ dquote
  | ArrIdx i => Js.dec i
  end.

(** What the two [replaceAll] of the visit callback make of an object key. *)
Definition key_text (k : string) : string :=
  Js.replaceAll (Js.replaceAll k "][" ".") dquote "'".

(** The segment of a flat key that stands for one step of the path. *)
Definition segment (s : Seg) : string :=
  match s with
  | ObjKey k => "'" +:+ key_text k +:+ "'"
  | ArrIdx i => Js.dec i
  end.

(** The segment with the object key as it is. *)
Definition quoted (s : Seg) : string :=
  match s with
  | ObjKey k => "'" +:+ k +:+ "'"
  | ArrIdx i => Js.dec i
  end.

(** The segment the specification describes: the key itself, unquoted. *)
Definition literal (s : Seg) : string :=
  match s with
  | ObjKey k => k
  | ArrIdx i => Js.dec i
  end.

(** An object key that the codec carries through unchanged: no dot, no
    quote of either kind, no closing bracket followed by an opening one. *)
Definition plain_key (k : string) : bool :=
  negb (Js.includes k ".") && negb (Js.includes k "'")
  && negb (Js.includes k dquote) && negb (Js.includes k "][").

Fixpoint plain_keys (d : JVal) : bool :=
  match d with
  | JLeaf _ => true
  | JObj props => forallb (fun kc => plain_key (fst kc) && plain_keys (snd kc)) props
  | JArr items => forallb plain_keys items
  end.

(** Own-property order of a list of names: the array indices first, in
    ascending order, then the other names. *)
Fixpoint own_order (last : option N) (named : bool) (ks : list string) : bool :=
  match ks with
  | [] => true
  | k :: ks' =>
      match Js.array_index k with
      | Some n =>
          negb named
          && match last with Some m => (m <? n)%N | None => true end
          && own_order (Some n) false ks'
      | None => own_order last true ks'
      end
  end.

(** The lists that stand for JavaScript values: the property names of an
    object are distinct and in own-property order, and an array has fewer
    than [2^32] elements. *)
Fixpoint JVal_wf (d : JVal) : bool :=
  match d with
  | JLeaf _ => true
  | JObj props =>
      bool_decide (NoDup (map fst props))
      && own_order None false (map fst props)
      && forallb (fun kc => JVal_wf (snd kc)) props
  | JArr items =>
      (N.of_nat (length items) <=? 4294967295)%N && forallb JVal_wf items
  end.

Definition is_container (d : JVal) : bool :=
  match d with JLeaf _ => false | _ => true end.

(** [leaf_at d p x]: following [p] from the root of [d] ends on the scalar [x]. *)
Inductive leaf_at : JVal -> list Seg -> ValueType -> Prop :=
  | leaf_here x : leaf_at (JLeaf x) [] x
  | leaf_member props k c p x :
      Obj.get props k = Some c -> leaf_at c p x ->
      leaf_at (JObj props) (ObjKey k :: p) x
  | leaf_element items i c p x :
      items !! N.to_nat i = Some c -> leaf_at c p x ->
      leaf_at (JArr items) (ArrIdx i :: p) x.

(** A step of a path through a document with plain keys and arrays of
    admissible length. *)
Definition plain_seg (s : Seg) : Prop :=
  match s with
  | ObjKey k => plain_key k = true
  | ArrIdx i => (i < 4294967295)%N
  end.



(** *** Property access on document nodes *)

(** Names every plain object inherits from [Object.prototype]. *)
Definition prototype_names : list string :=
  ["constructor"; "__proto__"; "hasOwnProperty"; "isPrototypeOf";
   "propertyIsEnumerable"; "toString"; "toLocaleString"; "valueOf";
   "__defineGetter__"; "__defineSetter__"; "__lookupGetter__"; "__lookupSetter__"].

Definition inherited (k : string) : bool :=
  existsb (String.eqb k) prototype_names.

Definition truthy_value (v : ValueType) : bool :=
  match v with
  | VStr s => Js.truthy_string s
  | VNum n => negb (n =? 0)%Z
  | VBool b => b
  end.

Definition truthy (v : JVal) : bool :=
  match v with
  | JLeaf x => truthy_value x
  | _ => true
  end.

(** [acc[k]]; [None] is [undefined]. *)
Definition js_get (acc : JVal) (k : string) : Outcome (option JVal) :=
  match acc with
  | JObj props =>
      match Obj.get props k with
      | Some c => Done (Some c)
      | None => if inherited k then Unsupported else Done None
      end
  | JArr items =>
      match Js.array_index k with
      | Some i => Done (items !! N.to_nat i)
      | None => Unsupported
      end
  | JLeaf _ =>
      match k with
      | EmptyString => Done None
      | _ => Unsupported
      end
  end.

(** [acc[k] = c] in strict mode (the file is an ES module); the result is
    the object after the assignment. *)
Definition js_put (acc : JVal) (k : string) (c : JVal) : Outcome JVal :=
  match acc with
  | JObj props =>
      if Obj.has props k then Done (JObj (Obj.update props k c))
      else if inherited k then Unsupported
      else Done (JObj (Obj.set props k c))
  | JArr items =>
      match Js.array_index k with
      | Some i =>
          if (i <? N.of_nat (length items))%N then Done (JArr (<[N.to_nat i := c]> items))
          else if (i =? N.of_nat (length items))%N then Done (JArr (items ++ [c]))
          else Unsupported
      | None => Unsupported
      end
  | JLeaf _ => Throw TypeError
  end.

(** [acc[k] || (acc[k] = fresh)], followed by the rest of the reduction on
    the object obtained.  The callback works on a reference: what [rest]
    does to the child is seen through [acc], which is written back here. *)
Definition descend (acc : JVal) (k : string) (fresh : JVal)
    (rest : JVal -> Outcome JVal) : Outcome JVal :=
  o ← js_get acc k;
  match o with
  | Some child =>
      if truthy child
      then child' ← rest child; js_put acc k child'
      else acc1 ← js_put acc k fresh;
           fresh' ← rest fresh; js_put acc1 k fresh'
  | None =>
      acc1 ← js_put acc k fresh;
      fresh' ← rest fresh; js_put acc1 k fresh'
  end.

(** [keys.reduce((acc, k, j) => ..., acc)] from position [j] on, where [keys]
    is the list from [keys[j]]; the value is [acc] after the mutations.
    When [keys[j + 1]] is the empty string the scalar is assigned and the
    reduction goes on inside that scalar. *)
Fixpoint reduce_keys (acc : JVal) (keys : list string) (val : ValueType) : Outcome JVal :=
  match keys with
  | [] => Done acc
  | k0 :: rest =>
      let k := Js.replaceAll k0 "'" EmptyString in
      match rest with
      | [] => js_put acc k (JLeaf val)
      | next :: _ =>
          if Js.includes next "'"
          then descend acc k (JObj []) (fun c => reduce_keys c rest val)
          else if Js.truthy_string next
          then descend acc k (JArr []) (fun c => reduce_keys c rest val)
          else acc' ← js_put acc k (JLeaf val);
               _ ← reduce_keys (JLeaf val) rest val; Done acc'
      end
  end.

(** [unflattenObject(data, base)].  [JSON.parse(JSON.stringify(base))] is a
    copy of [base]; values are immutable here, so [base] itself is the
    starting point. *)
Definition unflattenObject (data : Rec ValueType) (base : JVal) : Outcome JVal :=
  fold_left (fun result '(rawKey, val) =>
               r ← result; reduce_keys r (Js.split rawKey ".") val)
            data (Done base).

(** ** Translation rows (types.ts) *)

(** [pastSourceValue] is declared by the interface but no code path writes
    it; an optional property that is absent is [None]. *)
Record TranslationRow := mkRow {
  key : string;
  sourceValue : string;
  targetValue : string;
  originalTargetValue : string;
  pastSourceValue : option string;
  aiSuggestion : option string
}.

#[global] Instance TranslationRow_eq_dec : EqDecision TranslationRow.
Proof. solve_decision. Defined.

(** [n.toString()] on a flat value. *)
Definition toString (v : ValueType) : string :=
  match v with
  | VStr s => s
  | VNum n => Js.Z_toString n
  | VBool true => "true"
  | VBool false => "false"
  end.

(** ** Reconcile: the row rebuild of [handleFetchFiles] *)

(** [rows.filter(r => r.key === key)[0]]. *)
Definition find_row (rows : list TranslationRow) (k : string) : option TranslationRow :=
  head (filter (fun r => key r = k) rows).

(** [typeof o[k] === 'string'] on a property that may be [undefined]. *)
Definition is_string (o : option ValueType) : bool :=
  match o with Some (VStr _) => true | _ => false end.

Definition prop_truthy (o : option ValueType) : bool :=
  match o with Some v => truthy_value v | None => false end.

(** [o[k].toString()]; the property is never [undefined] where this is
    called (the key passed the [typeof] filter, or the truthiness test). *)
Definition prop_toString (o : option ValueType) : string :=
  match o with Some v => toString v | None => EmptyString end.

(** [s || d] on an optional string. *)
Definition str_or (o : option string) (d : string) : string :=
  match o with
  | Some s => if Js.truthy_string s then s else d
  | None => d
  end.

(** [flatTarget[key] ? flatTarget[key].toString() : flatSource[key].toString()]. *)
Definition fetched_target (flatSource flatTarget : Rec ValueType) (k : string) : string :=
  if prop_truthy (Obj.get flatTarget k)
  then prop_toString (Obj.get flatTarget k)
  else prop_toString (Obj.get flatSource k).

Definition reconcile_row (rows : list TranslationRow)
    (flatSource flatTarget : Rec ValueType) (k : string) : TranslationRow :=
  let row := find_row rows k in
  {| key := k;
     sourceValue := prop_toString (Obj.get flatSource k);
     targetValue :=
       if bool_decide (targetValue <$> row = originalTargetValue <$> row)
       then fetched_target flatSource flatTarget k
       else str_or (targetValue <$> row) EmptyString;
     originalTargetValue := fetched_target flatSource flatTarget k;
     pastSourceValue := None;
     aiSuggestion :=
       Some (match row with
             | Some r => str_or (aiSuggestion r) EmptyString
             | None => EmptyString
             end) |}.

Definition Reconcile (rows : list TranslationRow)
    (flatSource flatTarget : Rec ValueType) : list TranslationRow :=
  map (reconcile_row rows flatSource flatTarget)
      (List.filter (fun k => is_string (Obj.get flatSource k)) (Obj.keys flatSource)).

(** ** The search filter [filteredRows] and [modifiedCount] *)

(** The regular expression engine of the host: [new RegExp(p)] throws a
    [SyntaxError] on a pattern it cannot compile. *)
Record RegExpEngine := {
  regex : Type;
  RegExp_new : string -> option regex;
  RegExp_test : regex -> string -> bool
}.

(** [new RegExp(p).test(s)]. *)
Definition regex_test (E : RegExpEngine) (p s : string) : Outcome bool :=
  match RegExp_new E p with
  | Some re => Done (RegExp_test E re s)
  | None => Throw SyntaxError
  end.

(** [a || b] and [a && b] when the operands can throw: the right operand is
    only evaluated when the left one does not decide. *)
Definition oor (a b : Outcome bool) : Outcome bool :=
  a ≫= fun x : bool => if x then Done true else b.

Definition oand (a b : Outcome bool) : Outcome bool :=
  a ≫= fun x : bool => if x then b else Done false.

(** [/^.*\.\d+$/.test(k)]: a dot followed by digits up to the end, after a
    prefix without line terminators. *)
Definition is_digit (c : ascii) : bool :=
  let n := nat_of_ascii c in (48 <=? n)%nat && (n <=? 57)%nat.

Fixpoint all_digits (s : string) : bool :=
  match s with
  | EmptyString => true
  | String c s' => is_digit c && all_digits s'
  end.

Definition line_terminator (c : ascii) : bool :=
  let n := nat_of_ascii c in (n =? 10)%nat || (n =? 13)%nat.

Fixpoint key_in_array (k : string) : bool :=
  match k with
  | EmptyString => false
  | String c k' =>
      (Ascii.eqb c "." && Js.truthy_string k' && all_digits k')
      || (negb (line_terminator c) && key_in_array k')
  end.

Definition loading_flag (rowAiLoading : gmap string bool) (k : string) : bool :=
  match rowAiLoading !! k with Some b => b | None => false end.

(** The tag predicates of one clause, as the conjunction of the filter. *)
Definition tag_predicates (rowAiLoading : gmap string bool)
    (r : TranslationRow) (searchTerm : string) : bool :=
  let tag t := Js.includes searchTerm t in
  let untranslated :=
    String.eqb (sourceValue r) (targetValue r)
    || negb (Js.truthy_string (targetValue r))
    || String.eqb (targetValue r) EmptyString in
  let modified := negb (String.eqb (targetValue r) (originalTargetValue r)) in
  (negb (tag "#modified") || modified)
  && (negb (tag "#done")
      || (negb (String.eqb (sourceValue r) (originalTargetValue r))
          && String.eqb (targetValue r) (originalTargetValue r)))
  && (negb (tag "#undone") || untranslated)
  && (negb (tag "#doing") || untranslated || modified)
  && (negb (tag "#ai") || Js.truthy_string (str_or (aiSuggestion r) EmptyString))
  && (negb (tag "#noai")
      || (negb (Js.truthy_string (str_or (aiSuggestion r) EmptyString))
          || negb (loading_flag rowAiLoading (key r))))
  && (negb (tag "#empty") || negb (Js.truthy_string (targetValue r)))
  && (negb (tag "#inarray") || key_in_array (key r))
  && (negb (tag "#aifetching")
      || bool_decide (rowAiLoading !! key r = Some true)).

Definition queryWithoutTag (searchTerm : string) : string :=
  Js.trim
    (Js.substring (Js.toLowerCase searchTerm) 0
       (if Js.includes searchTerm "#" then Js.indexOf searchTerm "#"
        else Z.of_nat (String.length searchTerm))).

(** The text predicate of one clause. *)
Definition text_predicate (E : RegExpEngine) (r : TranslationRow)
    (searchTerm : string) : Outcome bool :=
  let q := queryWithoutTag searchTerm in
  let tag t := Js.includes searchTerm t in
  if negb (tag "#reg")
  then Done (Js.includes (Js.toLowerCase (key r)) q
             || (negb (tag "#key")
                 && (Js.includes (Js.toLowerCase (sourceValue r)) q
                     || Js.includes (Js.toLowerCase (targetValue r)) q)))
  else oand (Done (tag "#reg"))
         (oor (regex_test E q (Js.toLowerCase (key r)))
              (oand (Done (negb (tag "#key")))
                 (oor (regex_test E q (Js.toLowerCase (sourceValue r)))
                      (regex_test E q (Js.toLowerCase (targetValue r)))))).

(** The callback of [some]: one clause against one row. *)
Definition clause_matches (E : RegExpEngine) (rowAiLoading : gmap string bool)
    (r : TranslationRow) (searchTerm : string) : Outcome bool :=
  oand (text_predicate E r searchTerm)
       (Done (tag_predicates rowAiLoading r searchTerm)).

(** [terms.some(cb)]. *)
Fixpoint some_clause (E : RegExpEngine) (rowAiLoading : gmap string bool)
    (r : TranslationRow) (terms : list string) : Outcome bool :=
  match terms with
  | [] => Done false
  | t :: ts => oor (clause_matches E rowAiLoading r t) (some_clause E rowAiLoading r ts)
  end.

Definition row_matches (E : RegExpEngine) (rowAiLoading : gmap string bool)
    (searchTerms : string) (r : TranslationRow) : Outcome bool :=
  some_clause E rowAiLoading r (Js.split (Js.toLowerCase searchTerms) "||").

(** [rows.filter(cb)] when the callback can throw. *)
Fixpoint filter_rows (cb : TranslationRow -> Outcome bool)
    (rows : list TranslationRow) : Outcome (list TranslationRow) :=
  match rows with
  | [] => Done []
  | r :: rs =>
      cb r ≫= fun b : bool =>
      filter_rows cb rs ≫= fun rest =>
      Done (if b then r :: rest else rest)
  end.

Definition filteredRows (E : RegExpEngine) (rows : list TranslationRow)
    (searchTerms : string) (rowAiLoading : gmap string bool)
    : Outcome (list TranslationRow) :=
  filter_rows (row_matches E rowAiLoading searchTerms) rows.

Definition modifiedCount (rows : list TranslationRow) : nat :=
  length (filter (fun r : TranslationRow => targetValue r ≠ originalTargetValue r) rows).

(** ** The suggestion service [getTranslationSuggestions] *)

(** The object the prompt and the response schema ask for: a suggested
    string for each key it holds. *)
Definition Suggestions := Rec string.

(** What [JSON.parse] makes of a response text that it accepts: the value
    [null], or an object.  (Of the other values none makes [Object.keys]
    throw; they are not distinguished from objects here.) *)
Inductive Parsed :=
  | ParsedNull
  | ParsedObject (suggestions : Suggestions).

(** An awaited promise. *)
Inductive Settled (A : Type) :=
  | Fulfilled (a : A)
  | Rejected (e : JsError).
Arguments Fulfilled {A} a.
Arguments Rejected {A} e.

(** What [ai.models.generateContent] does for one request: it rejects, or
    it answers with a text that [JSON.parse] refuses ([None]) or accepts. *)
Inductive GenResult :=
  | GenRejects
  | GenText (parsed : option Parsed).

(** The provider, asked for the [n]-th time with a list of [{key, value}]. *)
Definition Provider := nat -> list (string * string) -> GenResult.

(** Both [catch] blocks of the service answer with the empty object; a text
    that parses is returned as parsed. *)
Definition getTranslationSuggestions (generateContent : list (string * string) -> GenResult)
    (texts : list (string * string)) : Settled Parsed :=
  match generateContent texts with
  | GenRejects => Fulfilled (ParsedObject [])
  | GenText None => Fulfilled (ParsedObject [])
  | GenText (Some parsed) => Fulfilled parsed
  end.

(** ** The bulk run [handleSuggestAll] *)

(** [updatedRows.slice(i, i + chunkSize)] for [i = 0, chunkSize, ...] while
    [i < updatedRows.length], for a positive [chunkSize]; [fuel] bounds the
    number of iterations. *)
Fixpoint chunks_from (fuel chunkSize : nat) (updatedRows : list TranslationRow)
    : list (list TranslationRow) :=
  match updatedRows, fuel with
  | [], _ => []
  | _, O => []
  | _, S fuel' =>
      take chunkSize updatedRows :: chunks_from fuel' chunkSize (drop chunkSize updatedRows)
  end.

Definition chunks (chunkSize : nat) (updatedRows : list TranslationRow) :=
  chunks_from (length updatedRows) chunkSize updatedRows.

(** [newRows[newRows.findIndex(r => r.key === key)].aiSuggestion = s], on
    the first row with that key when there is one. *)
Fixpoint set_suggestion (newRows : list TranslationRow) (k s : string) : list TranslationRow :=
  match newRows with
  | [] => []
  | r :: rs =>
      if String.eqb (key r) k
      then mkRow (key r) (sourceValue r) (targetValue r) (originalTargetValue r)
                 (pastSourceValue r) (Some s) :: rs
      else r :: set_suggestion rs k s
  end.

Definition write_suggestions (newRows : list TranslationRow) (suggestions : Suggestions)
    : list TranslationRow :=
  fold_left (fun rows '(k, s) => set_suggestion rows k s) suggestions newRows.

Definition set_flags (b : bool) (rs : list TranslationRow) (m : gmap string bool)
    : gmap string bool :=
  fold_left (fun m r => <[key r := b]> m) rs m.

(** The [{key, value}] items of a chunk. *)
Definition sourceTexts (chunk : list TranslationRow) : list (string * string) :=
  map (fun r => (key r, sourceValue r)) chunk.

(** The variables of the loop: the row objects (shared with the project),
    the local flag table and the requests sent so far. *)
Record Loop := mkLoop {
  newRows : list TranslationRow;
  newRowLoading : gmap string bool;
  calls : list (list (string * string))
}.

(** The [for] loop over the chunks.  An exception leaves it with the
    variables as they are at that point: a rejected [await], or
    [Object.keys(null)], which throws a [TypeError] after the flags of the
    chunk were lowered in the local table. *)
Fixpoint suggest_loop (service : nat -> list (string * string) -> Settled Parsed)
    (todo : list (list TranslationRow)) (st : Loop) : Loop * option JsError :=
  match todo with
  | [] => (st, None)
  | chunk :: todo' =>
      let sent := calls st ++ [sourceTexts chunk] in
      match service (length (calls st)) (sourceTexts chunk) with
      | Fulfilled (ParsedObject suggestions) =>
          suggest_loop service todo'
            (mkLoop (write_suggestions (newRows st) suggestions)
                    (set_flags false chunk (newRowLoading st))
                    sent)
      | Fulfilled ParsedNull =>
          (mkLoop (newRows st) (set_flags false chunk (newRowLoading st)) sent,
           Some TypeError)
      | Rejected e => (mkLoop (newRows st) (newRowLoading st) sent, Some e)
      end
  end.

(** The state a run of [handleSuggestAll] leaves behind. *)
Record SuggestAllRun := mkRun {
  rows_after : list TranslationRow;
  rowAiLoading_after : gmap string bool;
  requests : list (list (string * string));
  alerted : bool
}.

(** The rows the run asks suggestions for. *)
Definition candidates (filtered : list TranslationRow) (replaceExistAISuggestions : bool)
    (rowAiLoading : gmap string bool) : list TranslationRow :=
  List.filter
    (fun r => (replaceExistAISuggestions
               || match aiSuggestion r with
                  | None => true
                  | Some s => String.eqb s EmptyString
                  end)
              && negb (loading_flag rowAiLoading (key r)))
    filtered.

(** [handleSuggestAll] over any awaited service.  [{...a, ...b}] is the
    union in which [b] wins.  The chunk size is set by a range input from 1
    to 100; [0] stands for the values that [|| 10] replaces.  The flag table
    is set once before the loop and once after it; the [catch] block only
    alerts, and the [finally] block is empty. *)
Definition handleSuggestAll_on (service : nat -> list (string * string) -> Settled Parsed)
    (rows filtered : list TranslationRow) (geminiApiKey : string)
    (suggestionChunkSize : nat) (replaceExistAISuggestions : bool)
    (rowAiLoading : gmap string bool) : SuggestAllRun :=
  match rows with
  | [] => mkRun rows rowAiLoading [] false
  | _ =>
      if negb (Js.truthy_string geminiApiKey) then mkRun rows rowAiLoading [] true
      else
        let chunkSize := match suggestionChunkSize with O => 10 | n => n end in
        let updatedRows := candidates filtered replaceExistAISuggestions rowAiLoading in
        let marked := set_flags true updatedRows rowAiLoading in
        match suggest_loop service (chunks chunkSize updatedRows) (mkLoop rows marked []) with
        | (st, None) =>
            mkRun (newRows st) (newRowLoading st ∪ rowAiLoading) (calls st) false
        | (st, Some _) =>
            mkRun (newRows st) (marked ∪ rowAiLoading) (calls st) true
        end
  end.

Definition handleSuggestAll (provider : Provider)
    (rows filtered : list TranslationRow) (geminiApiKey : string)
    (suggestionChunkSize : nat) (replaceExistAISuggestions : bool)
    (rowAiLoading : gmap string bool) : SuggestAllRun :=
  handleSuggestAll_on (fun n texts => getTranslationSuggestions (provider n) texts)
    rows filtered geminiApiKey suggestionChunkSize replaceExistAISuggestions rowAiLoading.

(** A row is in flight when its flag is [true]. *)
Definition in_flight (rowAiLoading : gmap string bool) (k : string) : Prop :=
  rowAiLoading !! k = Some true.

(** What a request contributes to the rows: the parsed object of a
    successful call, nothing otherwise. *)
Definition answer (g : GenResult) : Suggestions :=
  match g with
  | GenText (Some (ParsedObject suggestions)) => suggestions
  | _ => []
  end.

(** The answers to the chunks of a run, the first of them being request
    number [n]. *)
Fixpoint answers (provider : Provider) (n : nat) (todo : list (list TranslationRow))
    : list Suggestions :=
  match todo with
  | [] => []
  | chunk :: todo' => answer (provider n (sourceTexts chunk)) :: answers provider (S n) todo'
  end.

(** A provider none of whose answers is the text of [null]. *)
Definition never_null (provider : Provider) : Prop :=
  forall n texts, provider n texts <> GenText (Some ParsedNull).

(** ** The row update of [handlePushToGitHub] *)

Inductive PushStatus := PushSkipped | PushSucceeded | PushFailed.

(** [{...r, originalTargetValue: r.targetValue}]. *)
Definition mark_pushed (r : TranslationRow) : TranslationRow :=
  mkRow (key r) (sourceValue r) (targetValue r) (targetValue r)
        (pastSourceValue r) (aiSuggestion r).

(** [flatData]: the target of every row under its key. *)
Definition flatData (rows : list TranslationRow) : Rec ValueType :=
  fold_left (fun o r => Obj.set o (key r) (VStr (targetValue r))) rows [].

(** [pushFile] receives the serialization of the document and the commit
    message; it is taken here on the document itself, and answers whether
    the call resolves.  The handler does not look at the document: when
    [unflattenObject] throws, the [catch] block is all that runs, and on
    every other document the rows are updated if and only if [pushFile]
    resolves.  On a run of [unflattenObject] that leaves the modelled
    fragment (an array with a hole, a name found on a prototype) the host
    still builds a document or throws, and [pushFile] still resolves or
    rejects: [beyond] answers whether the [try] block reaches the update
    of the rows on such a run. *)
Definition handlePushToGitHub (githubToken : string) (commitMessage : option string)
    (pushFile : JVal -> string -> bool) (beyond : bool) (rows : list TranslationRow)
    : PushStatus * list TranslationRow :=
  if negb (Js.truthy_string githubToken) then (PushSkipped, rows)
  else
    match commitMessage with
    | None => (PushSkipped, rows)
    | Some message =>
        if negb (Js.truthy_string message) then (PushSkipped, rows)
        else
          match unflattenObject (flatData rows) (JObj []) with
          | Done doc =>
              if pushFile doc message
              then (PushSucceeded, map mark_pushed rows)
              else (PushFailed, rows)
          | Throw _ => (PushFailed, rows)
          | Unsupported =>
              if beyond
              then (PushSucceeded, map mark_pushed rows)
              else (PushFailed, rows)
          end
    end.

(** ** Reading a document back

    [acc[k1][k2]...] along a list of property names, with [undefined] as
    soon as a property is missing. *)
Fixpoint read_path (acc : JVal) (keys : list string) : Outcome (option JVal) :=
  match keys with
  | [] => Done (Some acc)
  | k :: rest =>
      o ← js_get acc k;
      match o with
      | Some c => read_path c rest
      | None => Done None
      end
  end.

(** The property name a segment of a flat key stands for: the callback of
    [unflattenObject] removes the single quotes. *)
Definition strip (k : string) : string := Js.replaceAll k "'" EmptyString.

(** The loop of [unflattenObject] once the keys are split at the dots. *)
Definition write_all (acc : JVal) (entries : list (list string * ValueType)) : Outcome JVal :=
  fold_left (fun result '(keys, val) => r ← result; reduce_keys r keys val)
            entries (Done acc).

(** [acc] after [acc[k] = v] on a property that [acc] has. *)
Definition js_replace (acc : JVal) (k : string) (v : JVal) : JVal :=
  match acc with
  | JObj props => JObj (Obj.update props k v)
  | JArr items =>
      match Js.array_index k with
      | Some i => JArr (<[N.to_nat i := v]> items)
      | None => acc
      end
  | JLeaf _ => acc
  end.

(** The empty container that [unflattenObject] creates for a node of the
    kind of [d]. *)
Definition fresh_like (d : JVal) : JVal :=
  match d with
  | JArr _ => JArr []
  | _ => JObj []
  end.

(** Every container holds something: the empty object and the empty array
    have no leaf and leave no entry in the flat record. *)
Fixpoint populated (d : JVal) : bool :=
  match d with
  | JLeaf _ => true
  | JObj props =>
      match props with
      | [] => false
      | _ => forallb (fun kc => populated (snd kc)) props
      end
  | JArr items =>
      match items with
      | [] => false
      | _ => forallb populated items
      end
  end.

(** No key of the document is a name that a fresh object already answers
    to through its prototype. *)
Fixpoint own_names (d : JVal) : bool :=
  match d with
  | JLeaf _ => true
  | JObj props => forallb (fun kc => negb (inherited (fst kc)) && own_names (snd kc)) props
  | JArr items => forallb own_names items
  end.

(** What the loop of [unflattenObject] receives for a list of visited
    leaves with plain keys: the quoted segments of each path, and the value. *)
Definition quoted_entries (L : list (list Seg * ValueType))
    : list (list string * ValueType) :=
  map (fun px => (map quoted px.1, px.2)) L.

(** The container the look-ahead of the reduction creates in front of a
    segment: an object before a quoted key, an array before an index. *)
Definition fresh_for (s : Seg) : JVal :=
  match s with
  | ObjKey _ => JObj []
  | ArrIdx _ => JArr []
  end.

(** A container that the loop of [unflattenObject] builds from its own
    leaves, starting with the empty container of its kind. *)
Definition rebuilt (c : JVal) : Prop :=
  write_all (fresh_like c) (quoted_entries (walk [] c)) = Done c.

(** Whether an expression completes with a value. *)
Definition completes {A : Type} (o : Outcome A) : bool :=
  match o with
  | Done _ => true
  | _ => false
  end.

(** ** The document of [handleCopyRawJson] and [handlePushToGitHub] *)

(** [handleCopyRawJson], with an active project: the document whose
    serialization goes to the clipboard. *)
Definition handleCopyRawJson (rows : list TranslationRow) : Outcome JVal :=
  unflattenObject (flatData rows) (JObj []).

(** ** Reading the outcome of a predicate *)

(** A callback that completed with [true]. *)
Definition holds (o : Outcome bool) : bool :=
  match o with
  | Done true => true
  | _ => false
  end.

(** ** The suggestion button of a row (App.tsx)

    One request for the row; the flag of the row is raised before the
    request and lowered right after the [await], before the answer is
    read.  The [catch] block alerts, and the [finally] block is empty. *)
Definition handleSuggestRow_on (service : list (string * string) -> Settled Parsed)
    (rows : list TranslationRow) (row : TranslationRow) (geminiApiKey : string)
    (rowAiLoading : gmap string bool) : SuggestAllRun :=
  if negb (Js.truthy_string geminiApiKey) then mkRun rows rowAiLoading [] true
  else
    let texts := [(key row, sourceValue row)] in
    match service texts with
    | Rejected _ => mkRun rows (<[key row := true]> rowAiLoading) [texts] true
    | Fulfilled ParsedNull => mkRun rows (<[key row := false]> rowAiLoading) [texts] true
    | Fulfilled (ParsedObject suggestions) =>
        mkRun (write_suggestions rows suggestions)
              (<[key row := false]> rowAiLoading) [texts] false
    end.

Definition handleSuggestRow (generateContent : list (string * string) -> GenResult)
    (rows : list TranslationRow) (row : TranslationRow) (geminiApiKey : string)
    (rowAiLoading : gmap string bool) : SuggestAllRun :=
  handleSuggestRow_on (getTranslationSuggestions generateContent)
    rows row geminiApiKey rowAiLoading.

(** What a suggestion never writes: the key and the three texts of a row. *)
Definition texts_of (r : TranslationRow) : string * string * string * string :=
  (key r, sourceValue r, targetValue r, originalTargetValue r).

(** ** The handlers of a row of the table (App.tsx)

    Each of them maps over the rows of the active project and replaces the
    rows that carry the key of the row that is displayed. *)

(** The value a text area reports for a lone tab. *)
Definition tab : string := String (ascii_of_nat 9) EmptyString.

(** [onChange] of the target cell: the value typed, or the original target
    when the value is a lone tab. *)
Definition handleTargetChange (rows : list TranslationRow) (row : TranslationRow)
    (value : string) : list TranslationRow :=
  map (fun r =>
         if String.eqb (key r) (key row)
         then mkRow (key r) (sourceValue r)
                    (if negb (String.eqb value tab) then value
                     else originalTargetValue row)
                    (originalTargetValue r) (pastSourceValue r) (aiSuggestion r)
         else r)
      rows.

(** [onKeyDown] of the target cell with the Tab key. *)
Definition handleTargetTab (rows : list TranslationRow) (row : TranslationRow)
    : list TranslationRow :=
  map (fun r =>
         if String.eqb (key r) (key row)
         then mkRow (key r) (sourceValue r) (originalTargetValue row)
                    (originalTargetValue r) (pastSourceValue r) (aiSuggestion r)
         else r)
      rows.

(** The button that discards the suggestion of the row. *)
Definition handleDiscardSuggestion (rows : list TranslationRow) (row : TranslationRow)
    : list TranslationRow :=
  map (fun r =>
         if String.eqb (key r) (key row)
         then mkRow (key r) (sourceValue r) (targetValue r) (originalTargetValue r)
                    (pastSourceValue r) (Some EmptyString)
         else r)
      rows.

(** The button that accepts it: [row.aiSuggestion || r.targetValue]. *)
Definition handleAcceptSuggestion (rows : list TranslationRow) (row : TranslationRow)
    : list TranslationRow :=
  map (fun r =>
         if String.eqb (key r) (key row)
         then mkRow (key r) (sourceValue r) (str_or (aiSuggestion row) (targetValue r))
                    (originalTargetValue r) (pastSourceValue r) (aiSuggestion r)
         else r)
      rows.

(** [handleRevertProject], with the answer to its confirmation. *)
Definition handleRevertProject (confirmed : bool) (rows : list TranslationRow)
    : list TranslationRow :=
  if confirmed
  then map (fun r => mkRow (key r) (sourceValue r) (originalTargetValue r)
                           (originalTargetValue r) (pastSourceValue r) (aiSuggestion r))
           rows
  else rows.

(** What none of these handlers writes. *)
Definition frame_of (r : TranslationRow) : string * string * string :=
  (key r, sourceValue r, originalTargetValue r).

(** ** Projects (types.ts) *)

Inductive GeminiModel :=
  | G3_FLASH_PRE
  | G3_PRO_PRE
  | G2_5_FLASH
  | G2_5_PRO
  | GA3_27B_IT.

Module GitHubConfig.
Record t := mk {
  owner : string;
  repo : string;
  branch : string;
  sourcePath : string;
  targetPath : string
}.
End GitHubConfig.

Module Project.
Record t := mk {
  id : string;
  name : string;
  config : GitHubConfig.t;
  rows : list TranslationRow;
  selectedModel : GeminiModel;
  lastUpdated : Z;
  originalTargetData : JVal
}.
End Project.

Module GlobalSettings.
Record t := mk {
  githubToken : string;
  geminiApiKey : string;
  suggestionChunkSize : nat
}.
End GlobalSettings.

(** What the browser storage holds.  The settings may be missing from a
    stored state, and a missing list of projects is the empty list. *)
Module GlobalState.
Record t := mk {
  projects : list Project.t;
  activeProjectId : option string;
  settings : option GlobalSettings.t
}.
End GlobalState.

(** [Partial<Project>] as [updateActiveProject] receives it: no call
    passes an [id] or a [lastUpdated]. *)
Module Updates.
Record t := mk {
  name : option string;
  config : option GitHubConfig.t;
  rows : option (list TranslationRow);
  selectedModel : option GeminiModel;
  originalTargetData : option JVal
}.
End Updates.

(** ** The project list of the application (App.tsx)

    The state of the component that the project handlers read and write.
    [crypto.randomUUID()], [Date.now()], [prompt] and [confirm] are inputs
    of the handlers. *)
Module App.
Record t := mk {
  projects : list Project.t;
  activeProjectId : option string;
  settings : GlobalSettings.t;
  showConfig : bool;
  isSidebarOpen : bool;
  isEditingName : bool
}.
End App.

Definition default_settings : GlobalSettings.t := GlobalSettings.mk EmptyString EmptyString 10.

(** The state of the first render. *)
Definition first_render : App.t := App.mk [] None default_settings false false false.

Definition createEmptyProject (name uuid : string) (now : Z) : Project.t :=
  Project.mk uuid name
    (GitHubConfig.mk EmptyString EmptyString "main" EmptyString EmptyString)
    [] G3_FLASH_PRE now (JObj []).

(** [projects.find(p => p.id === activeProjectId) || null]. *)
Definition activeProject (st : App.t) : option Project.t :=
  List.find (fun p => bool_decide (Some (Project.id p) = App.activeProjectId st))
            (App.projects st).

(** The effect that loads the state at start-up: the stored state when it
    holds a project, a default project otherwise; then the projects of the
    load queue whose id is not in the list yet, the first of the queue
    becoming the active id. *)
Definition loadEffect (saved : option GlobalState.t) (projectLoadQueue : list Project.t)
    (uuid : string) (now : Z) (st : App.t) : App.t :=
  let demo := createEmptyProject "Default Project" uuid now in
  let '(loaded, active, settings) :=
    match saved with
    | Some gs =>
        match GlobalState.projects gs with
        | first :: _ =>
            (GlobalState.projects gs,
             Some (str_or (GlobalState.activeProjectId gs) (Project.id first)),
             match GlobalState.settings gs with
             | Some s => s
             | None => default_settings
             end)
        | [] => ([demo], Some (Project.id demo), App.settings st)
        end
    | None => ([demo], Some (Project.id demo), App.settings st)
    end in
  match projectLoadQueue with
  | [] =>
      App.mk loaded active settings
             (App.showConfig st) (App.isSidebarOpen st) (App.isEditingName st)
  | queued :: _ =>
      App.mk (loaded
              ++ List.filter
                   (fun p => negb (existsb (fun x => String.eqb (Project.id x) (Project.id p))
                                           loaded))
                   projectLoadQueue)
             (Some (Project.id queued)) settings
             (App.showConfig st) (App.isSidebarOpen st) (App.isEditingName st)
  end.

(** The effect that saves the state: nothing is written while the list of
    projects is empty. *)
Definition saveEffect (st : App.t) (stored : option GlobalState.t) : option GlobalState.t :=
  match App.projects st with
  | [] => stored
  | _ => Some (GlobalState.mk (App.projects st) (App.activeProjectId st)
                              (Some (App.settings st)))
  end.

(** [{ ...p, ...updates, lastUpdated: Date.now() }]. *)
Definition apply_updates (u : Updates.t) (now : Z) (p : Project.t) : Project.t :=
  Project.mk (Project.id p)
    (default (Project.name p) (Updates.name u))
    (default (Project.config p) (Updates.config u))
    (default (Project.rows p) (Updates.rows u))
    (default (Project.selectedModel p) (Updates.selectedModel u))
    now
    (default (Project.originalTargetData p) (Updates.originalTargetData u)).

Definition updateActiveProject (u : Updates.t) (now : Z) (st : App.t) : App.t :=
  App.mk (map (fun p => if bool_decide (Some (Project.id p) = App.activeProjectId st)
                        then apply_updates u now p else p)
              (App.projects st))
         (App.activeProjectId st) (App.settings st)
         (App.showConfig st) (App.isSidebarOpen st) (App.isEditingName st).

(** [handleCreateProject], with the answer to its prompt ([None] when the
    prompt is dismissed). *)
Definition handleCreateProject (answer : option string) (uuid : string) (now : Z)
    (st : App.t) : App.t :=
  let newProject := createEmptyProject (str_or answer "New Project") uuid now in
  App.mk (App.projects st ++ [newProject]) (Some (Project.id newProject))
         (App.settings st) true false (App.isEditingName st).

Definition rename_update (name : string) : Updates.t :=
  Updates.mk (Some name) None None None None.

Definition handleRenameProject (editNameValue : string) (now : Z) (st : App.t) : App.t :=
  let close s :=
    App.mk (App.projects s) (App.activeProjectId s) (App.settings s)
           (App.showConfig s) (App.isSidebarOpen s) false in
  match activeProject st with
  | None => close st
  | Some _ =>
      if negb (Js.truthy_string (Js.trim editNameValue)) then close st
      else close (updateActiveProject (rename_update (Js.trim editNameValue)) now st)
  end.

(** [handleDeleteProject], with the answer to its confirmation. *)
Definition handleDeleteProject (confirmed : bool) (uuid : string) (now : Z)
    (st : App.t) : App.t :=
  match activeProject st with
  | None => st
  | Some active =>
      if negb confirmed then st
      else
        let remaining :=
          List.filter (fun p => negb (String.eqb (Project.id p) (Project.id active)))
                      (App.projects st) in
        match remaining with
        | [] =>
            let next := createEmptyProject "Default Project" uuid now in
            App.mk [next] (Some (Project.id next)) (App.settings st)
                   false false (App.isEditingName st)
        | first :: _ =>
            App.mk remaining (Some (Project.id first)) (App.settings st)
                   false false (App.isEditingName st)
        end
  end.

(** The button of a project in the side bar. *)
Definition handleSelectProject (p : Project.t) (st : App.t) : App.t :=
  App.mk (App.projects st) (Some (Project.id p)) (App.settings st)
         (App.showConfig st) false (App.isEditingName st).

(** [importProject] on a file that parses to a project record, whose
    [config] and [rows] are then objects: [None] is the error of an invalid
    file format. *)
Definition importProject (importedProject : Project.t) (uuid : string) (now : Z)
    : option Project.t :=
  if negb (Js.truthy_string (Project.id importedProject))
     || negb (Js.truthy_string (Project.name importedProject))
  then None
  else Some (Project.mk uuid (Project.name importedProject)
               (Project.config importedProject) (Project.rows importedProject)
               (Project.selectedModel importedProject) now
               (Project.originalTargetData importedProject)).

(** The [onload] of [handleImportProject]: an error is alerted and leaves
    the state as it is. *)
Definition handleImportProject (importedProject : Project.t) (uuid : string) (now : Z)
    (st : App.t) : App.t :=
  match importProject importedProject uuid now with
  | Some newProject =>
      App.mk (App.projects st ++ [newProject]) (Some (Project.id newProject))
             (App.settings st) (App.showConfig st) (App.isSidebarOpen st)
             (App.isEditingName st)
  | None => st
  end.

(** One step of the project list: a handler runs on the current state.
    The identifiers that [crypto.randomUUID()] returns are not empty and
    not in use; the side bar shows a button for the projects of the list;
    and the updates that the handlers of the active project pass on
    (configuration, model, rows, fetched target) carry no name. *)
Inductive step : App.t -> App.t -> Prop :=
  | step_create answer uuid now st :
      uuid ≠ EmptyString -> uuid ∉ map Project.id (App.projects st) ->
      step st (handleCreateProject answer uuid now st)
  | step_rename editNameValue now st :
      step st (handleRenameProject editNameValue now st)
  | step_delete confirmed uuid now st :
      uuid ≠ EmptyString -> uuid ∉ map Project.id (App.projects st) ->
      step st (handleDeleteProject confirmed uuid now st)
  | step_select p st :
      p ∈ App.projects st -> step st (handleSelectProject p st)
  | step_import importedProject uuid now st :
      uuid ≠ EmptyString -> uuid ∉ map Project.id (App.projects st) ->
      step st (handleImportProject importedProject uuid now st)
  | step_update u now st :
      Updates.name u = None -> step st (updateActiveProject u now st).

(** What the project handlers keep: there is an active project, found by
    the active id; ids are distinct and not empty; names are not empty. *)
Definition project_list_ok (st : App.t) : Prop :=
  is_Some (activeProject st)
  /\ NoDup (map Project.id (App.projects st))
  /\ Forall (fun p => Project.id p ≠ EmptyString /\ Project.name p ≠ EmptyString)
            (App.projects st).

(** ** Base64 (utils)

    [btoa] and [atob] of the host, as the HTML standard defines them: the
    encoding of RFC 4648 with padding, and the forgiving decoding, which
    drops ASCII white space, accepts a missing padding and fails on any
    other character.  A binary string is a [string]: its code units are
    bytes, so the code unit above U+00FF that makes [btoa] throw does not
    occur. *)
Module Base64.

Definition alphabet : string :=
  "ABCDEFGHIJKLMNOPQRSTUVWXYZabcdefghijklmnopqrstuvwxyz0123456789+/".

Definition pad : ascii := "="%char.

(** The character of a 6-bit number, and the number of a character. *)
Definition digit (n : N) : ascii :=
  match String.get (N.to_nat n) alphabet with
  | Some c => c
  | None => pad
  end.

Fixpoint index_from (i : N) (c : ascii) (s : string) : option N :=
  match s with
  | EmptyString => None
  | String c' s' => if Ascii.eqb c c' then Some i else index_from (N.succ i) c s'
  end.

Definition value (c : ascii) : option N := index_from 0 c alphabet.

(** Three bytes give four characters; a last group of one or two bytes
    gives two or three characters and is padded to four. *)
Fixpoint encode (bytes : list N) : list ascii :=
  match bytes with
  | [] => []
  | [a] =>
      let n := (a * 65536)%N in
      [digit (n / 262144); digit (n / 4096 mod 64); pad; pad]
  | [a; b] =>
      let n := (a * 65536 + b * 256)%N in
      [digit (n / 262144); digit (n / 4096 mod 64); digit (n / 64 mod 64); pad]
  | a :: b :: c :: rest =>
      let n := (a * 65536 + b * 256 + c)%N in
      digit (n / 262144) :: digit (n / 4096 mod 64) :: digit (n / 64 mod 64)
        :: digit (n mod 64) :: encode rest
  end.

Definition btoa (data : string) : string :=
  string_of_list_ascii (encode (map N_of_ascii (list_ascii_of_string data))).

(** Tab, line feed, form feed, carriage return and space. *)
Definition ascii_whitespace (c : ascii) : bool :=
  let n := N_of_ascii c in
  (n =? 9)%N || (n =? 10)%N || (n =? 12)%N || (n =? 13)%N || (n =? 32)%N.

(** When the length is a multiple of four, one or two padding characters
    at the end are removed. *)
Definition strip_padding (data : list ascii) : list ascii :=
  if (length data mod 4 =? 0)%nat
  then match rev data with
       | c1 :: c2 :: r =>
           if Ascii.eqb c1 pad
           then if Ascii.eqb c2 pad then rev r else rev (c2 :: r)
           else data
       | [c1] => if Ascii.eqb c1 pad then [] else data
       | [] => data
       end
  else data.

Fixpoint values (data : list ascii) : option (list N) :=
  match data with
  | [] => Some []
  | c :: data' =>
      match value c, values data' with
      | Some n, Some ns => Some (n :: ns)
      | _, _ => None
      end
  end.

(** The buffer of the decoder: six bits are appended for every character;
    at twenty-four bits three bytes are written.  At the end twelve bits
    give one byte and eighteen bits give two, the last four or two bits
    being discarded. *)
Fixpoint decode (buffer : N) (count : nat) (sextets : list N) : list N :=
  match sextets with
  | [] =>
      match count with
      | 2 => [(buffer / 16)%N]
      | 3 => [(buffer / 4 / 256)%N; (buffer / 4 mod 256)%N]
      | _ => []
      end
  | n :: rest =>
      let buffer' := (buffer * 64 + n)%N in
      if (count =? 3)%nat
      then (buffer' / 65536)%N :: (buffer' / 256 mod 256)%N :: (buffer' mod 256)%N
             :: decode 0 0 rest
      else decode buffer' (S count) rest
  end.

(** [atob(data)]; [None] is the [InvalidCharacterError] it throws. *)
Definition atob (data : string) : option string :=
  let data :=
    strip_padding
      (List.filter (fun c => negb (ascii_whitespace c)) (list_ascii_of_string data)) in
  if (length data mod 4 =? 1)%nat then None
  else match values data with
       | Some sextets => Some (string_of_list_ascii (map ascii_of_N (decode 0 0 sextets)))
       | None => None
       end.

End Base64.

(** [String.fromCodePoint(x)] for a byte, and [m.codePointAt(0)] for a
    character of a binary string, stored into a [Uint8Array]. *)
Definition fromCodePoint (x : Byte.byte) : string := String (ascii_of_byte x) EmptyString.

Definition codePointAt0 (m : string) : Byte.byte :=
  match m with
  | String c _ => byte_of_ascii c
  | EmptyString => Byte.x00
  end.

(** [bytesToBase64] and [base64ToBytes]. *)
Definition bytesToBase64 (bytes : list Byte.byte) : string :=
  Base64.btoa (Js.join EmptyString (map fromCodePoint bytes)).

Definition base64ToBytes (base64 : string) : option (list Byte.byte) :=
  match Base64.atob base64 with
  | Some binString => Some (map codePointAt0 (Js.chars binString))
  | None => None
  end.

(** The sextets of a byte sequence: the numbers behind the characters of
    its encoding, without the padding. *)
Fixpoint sextets (bytes : list N) : list N :=
  match bytes with
  | [] => []
  | [a] =>
      let n := (a * 65536)%N in
      [(n / 262144)%N; (n / 4096 mod 64)%N]
  | [a; b] =>
      let n := (a * 65536 + b * 256)%N in
      [(n / 262144)%N; (n / 4096 mod 64)%N; (n / 64 mod 64)%N]
  | a :: b :: c :: rest =>
      let n := (a * 65536 + b * 256 + c)%N in
      (n / 262144)%N :: (n / 4096 mod 64)%N :: (n / 64 mod 64)%N :: (n mod 64)%N
        :: sextets rest
  end.

Definition padding (bytes : list N) : list ascii :=
  match (length bytes mod 3)%nat with
  | 1 => [Base64.pad; Base64.pad]
  | 2 => [Base64.pad]
  | _ => []
  end.

(** * Sample data *)

(** A stand-in for the host's engine in the closed examples: it refuses a
    pattern whose parentheses do not balance, which ECMAScript reports as a
    [SyntaxError] for the unescaped parenthesis used below, and matches any
    other pattern as plain text. *)
Fixpoint balanced (depth : nat) (p : string) : bool :=
  match p with
  | EmptyString => (depth =? 0)%nat
  | String c p' =>
      if Ascii.eqb c "(" then balanced (S depth) p'
      else if Ascii.eqb c ")"
           then match depth with O => false | S d => balanced d p' end
           else balanced depth p'
  end.

Definition paren_engine : RegExpEngine :=
  {| regex := string;
     RegExp_new := fun p => if balanced 0 p then Some p else None;
     RegExp_test := fun p s => Js.includes s p |}.

(** The row of the leaf [a.b] after a first fetch: no suggestion yet. *)
Definition greeting_row : TranslationRow :=
  mkRow "'a'.'b'" "Hello" "Bonjour" "Bonjour" None (Some EmptyString).

(** The same row after the user typed another translation. *)
Definition edited_row : TranslationRow :=
  mkRow "'a'.'b'" "Hello" "Salut" "Bonjour" None (Some EmptyString).

(** The flag table while [greeting_row] awaits its suggestion. *)
Definition awaiting : gmap string bool := {[ "'a'.'b'" := true ]}.

(** Two rows awaiting a suggestion, and a provider whose first call fails
    and whose second call answers for the second row. *)
Definition hello_row : TranslationRow :=
  mkRow "'hello'" "Hello" "Hello" "Hello" None (Some EmptyString).

Definition bye_row : TranslationRow :=
  mkRow "'bye'" "Bye" "Bye" "Bye" None (Some EmptyString).

Definition failing_first : Provider :=
  fun n _ => match n with
             | O => GenRejects
             | _ => GenText (Some (ParsedObject [("'bye'", "Au revoir")]))
             end.

(** A provider whose first call answers for the first row and whose second
    call answers with the text of [null]. *)
Definition null_second : Provider :=
  fun n _ => match n with
             | O => GenText (Some (ParsedObject [("'hello'", "Bonjour")]))
             | _ => GenText (Some ParsedNull)
             end.

(** The document of the example path [auth.errors.0.message]. *)
Definition auth_doc : JVal :=
  JObj [("auth", JObj [("errors", JArr [JObj [("message", JLeaf (VStr "Denied"))]])])].

Definition auth_path : list Seg :=
  [ObjKey "auth"; ObjKey "errors"; ArrIdx 0; ObjKey "message"].

(** A document with a dot inside a key. *)
Definition dotted_doc : JVal := JObj [("a.b", JLeaf (VStr "x"))].

(** A document with an empty object, an empty array, numbers and booleans. *)
Definition mixed_doc : JVal :=
  JObj [("title", JLeaf (VStr "Hi"));
        ("menu", JObj [("items", JArr [JLeaf (VStr "Open"); JLeaf (VNum 2);
                                       JObj [("0", JLeaf (VBool true))]]);
                       ("none", JObj [])]);
        ("tags", JArr [])].

(** The document [{items: [Open, 2, Close]}], and its rows after a fetch,
    the first of them edited since.  The number is no row, and the array of
    the document built from the rows has a hole at its place. *)
Definition items_doc : JVal :=
  JObj [("items", JArr [JLeaf (VStr "Open"); JLeaf (VNum 2); JLeaf (VStr "Close")])].

Definition open_close_rows : list TranslationRow :=
  [mkRow "'items'.0" "Open" "Ouvrir" "Open" None (Some EmptyString);
   mkRow "'items'.2" "Close" "Close" "Close" None (Some EmptyString)].

(** The row of a key with two dots in a row: its document cannot be
    built. *)
Definition gap_rows : list TranslationRow :=
  [mkRow "'a..b'" "x" "x" "x" None (Some EmptyString)].

(** The document [{a: {b: 5}}]: the key of [greeting_row], with a number. *)
Definition count_doc : JVal := JObj [("a", JObj [("b", JLeaf (VNum 5))])].



(** The flat records of the documents [{a: {b: Hello}}] and
    [{a: {b: Bonjour}}]. *)
Definition flat_hello : Rec ValueType := [("'a'.'b'", VStr "Hello")].
Definition flat_bonjour : Rec ValueType := [("'a'.'b'", VStr "Bonjour")].

(** Five rows without suggestion, and a provider that answers every item
    but the one of key ['e']. *)
Definition five_rows : list TranslationRow :=
  map (fun k => mkRow k ("text " +:+ k) EmptyString EmptyString None (Some EmptyString))
      ["'a'"; "'b'"; "'c'"; "'d'"; "'e'"].

Definition skips_e : Provider :=
  fun _ texts =>
    GenText (Some (ParsedObject
      (map (fun kv => (fst kv, "fr " +:+ snd kv))
           (List.filter (fun kv => negb (String.eqb (fst kv) "'e'")) texts)))).

(** A document without empty containers. *)
Definition menu_doc : JVal :=
  JObj [("title", JLeaf (VStr "Hi"));
        ("menu", JObj [("items", JArr [JLeaf (VStr "Open"); JLeaf (VNum 2);
                                       JObj [("0", JLeaf (VBool true))]])])].

(** A document with two dots in a row inside a key. *)
Definition gap_doc : JVal := JObj [("a..b", JLeaf (VStr "x"))].

(** An engine that refuses every pattern. *)
Definition refusing_engine : RegExpEngine :=
  {| regex := unit;
     RegExp_new := fun _ => None;
     RegExp_test := fun _ _ => false |}.

(** The state after a first start with empty storage. *)
Definition fresh_start : App.t := loadEffect None [] "id-1" 0 first_render.

(** * Properties *)

(** ** Strings *)

(** The primitives on the values the codec and the filter give them. *)
Example split_at_dots : Js.split "'a'.0.'b'" "." = ["'a'"; "0"; "'b'"].
Proof. reflexivity. Qed.

Example split_of_empty : Js.split EmptyString "." = [EmptyString].
Proof. reflexivity. Qed.

Example split_at_bars : Js.split "login || #modified" "||" = ["login "; " #modified"].
Proof. reflexivity. Qed.

Example replaceAll_left_to_right : Js.replaceAll "x][y]][z" "][" "." = "x.y].z".
Proof. reflexivity. Qed.

Example substring_clamps :
  Js.substring "abc" 1 (-1) = "a" /\ Js.substring "abc" 0 7 = "abc".
Proof. split; reflexivity. Qed.

Example array_index_canonical :
  Js.array_index "12" = Some 12%N /\ Js.array_index "012" = None
  /\ Js.array_index "4294967295" = None /\ Js.array_index "'a'" = None.
Proof. repeat split; reflexivity. Qed.

Example queryWithoutTag_trims : queryWithoutTag "  foo bar #key #reg" = "foo bar".
Proof. reflexivity. Qed.

Example key_in_array_last_segment :
  key_in_array "'a'.0" = true /\ key_in_array "'a'.'0'" = false.
Proof. split; reflexivity. Qed.

Lemma app_cons_s (x : ascii) (a b : string) : String x a +:+ b = String x (a +:+ b).
Proof. reflexivity. Qed.

Lemma app_nil_l_s (b : string) : EmptyString +:+ b = b.
Proof. reflexivity. Qed.

Lemma app_assoc_s (a b c : string) : (a +:+ b) +:+ c = a +:+ (b +:+ c).
Proof.
  induction a as [|x a IH]; [done|]. by rewrite !app_cons_s, IH.
Qed.

Lemma app_nil_r_s (a : string) : a +:+ EmptyString = a.
Proof.
  induction a as [|x a IH]; [done|]. by rewrite app_cons_s, IH.
Qed.

Lemma length_app_s (a b : string) :
  String.length (a +:+ b) = String.length a + String.length b.
Proof.
  induction a as [|x a IH]; [done|]. rewrite app_cons_s. simpl. by rewrite IH.
Qed.

Lemma take_app_length (a b : string) : Js.take (String.length a) (a +:+ b) = a.
Proof.
  induction a as [|x a IH]; [by destruct b|]. rewrite app_cons_s. simpl. by rewrite IH.
Qed.

Lemma startsWith_app (s a b : string) :
  Js.startsWith s (a +:+ b) = true -> Js.startsWith s a = true.
Proof.
  revert s. induction a as [|c a IH]; intros s; simpl; [done|].
  destruct s as [|c' s]; [done|].
  intros H. apply andb_true_iff in H as [Hc H].
  rewrite Hc. simpl. by apply IH.
Qed.

Lemma includes_app (s a b : string) :
  Js.includes s (a +:+ b) = true -> Js.includes s a = true.
Proof.
  induction s as [|c s IH]; simpl.
  - rewrite !orb_false_r. apply startsWith_app.
  - intros H. apply orb_true_iff in H as [H|H]; apply orb_true_iff.
    + left. by apply startsWith_app in H.
    + right. by apply IH.
Qed.

(** [substring(1, length - 1)] removes the first and the last code unit. *)
Lemma substring_strip (c c' : ascii) (x : string) :
  let raw := String c (x +:+ String c' EmptyString) in
  Js.substring raw 1 (Z.of_nat (String.length raw) - 1) = x.
Proof.
  intros raw. unfold Js.substring, raw. simpl String.length.
  rewrite length_app_s. simpl String.length.
  set (n := String.length x).
  replace (Z.max 0 (Z.min 1 (Z.of_nat (S (n + 1))))) with 1%Z by lia.
  replace (Z.max 0 (Z.min (Z.of_nat (S (n + 1)) - 1) (Z.of_nat (S (n + 1)))))
    with (Z.of_nat n + 1)%Z by lia.
  replace (Z.to_nat (Z.min 1 (Z.of_nat n + 1))) with 1 by lia.
  replace (Z.to_nat (Z.max 1 (Z.of_nat n + 1) - Z.min 1 (Z.of_nat n + 1))) with n by lia.
  simpl Js.drop. apply take_app_length.
Qed.

Lemma substring_empty : Js.substring EmptyString 1 (Z.of_nat 0 - 1) = EmptyString.
Proof. reflexivity. Qed.

(** *** The scans of [replaceAll] and [split] *)

Lemma replaceAll_scan_skip pat rep n s :
  Js.replaceAll_scan pat rep n s = Js.replaceAll_scan pat rep 0 (Js.drop n s).
Proof.
  revert n. induction s as [|c s IH]; intros [|n]; simpl; auto.
Qed.

Lemma split_scan_skip sep n s :
  Js.split_scan sep n s = Js.split_scan sep 0 (Js.drop n s).
Proof.
  revert n. induction s as [|c s IH]; intros [|n]; simpl; auto.
Qed.

(** Replacing a one-unit pattern works unit by unit. *)
Lemma replaceAll_char_cons (c a : ascii) (rep s : string) :
  Js.replaceAll (String a s) (String c EmptyString) rep
  = (if Ascii.eqb c a then rep else String a EmptyString)
    +:+ Js.replaceAll s (String c EmptyString) rep.
Proof.
  unfold Js.replaceAll. simpl. rewrite andb_true_r.
  destruct (Ascii.eqb c a); [done|]. by rewrite app_cons_s, app_nil_l_s.
Qed.

Lemma replaceAll_char_app (c : ascii) (rep s1 s2 : string) :
  Js.replaceAll (s1 +:+ s2) (String c EmptyString) rep
  = Js.replaceAll s1 (String c EmptyString) rep
    +:+ Js.replaceAll s2 (String c EmptyString) rep.
Proof.
  induction s1 as [|a s1 IH]; [done|].
  rewrite app_cons_s, !replaceAll_char_cons, IH. by rewrite app_assoc_s.
Qed.

Lemma includes_char_cons (c a : ascii) (s : string) :
  Js.includes (String a s) (String c EmptyString)
  = Ascii.eqb c a || Js.includes s (String c EmptyString).
Proof. simpl. by rewrite andb_true_r. Qed.

Lemma replaceAll_char_absent (c : ascii) (rep s : string) :
  Js.includes s (String c EmptyString) = false ->
  Js.replaceAll s (String c EmptyString) rep = s.
Proof.
  induction s as [|a s IH]; [done|].
  rewrite includes_char_cons, replaceAll_char_cons.
  intros H. apply orb_false_iff in H as [-> H]. by rewrite (IH H).
Qed.

Lemma includes_char_app (c : ascii) (s1 s2 : string) :
  Js.includes (s1 +:+ s2) (String c EmptyString)
  = Js.includes s1 (String c EmptyString) || Js.includes s2 (String c EmptyString).
Proof.
  induction s1 as [|a s1 IH].
  - rewrite app_nil_l_s. simpl. by destruct s2.
  - rewrite app_cons_s, !includes_char_cons, IH. by rewrite orb_assoc.
Qed.

(** *** The pattern of a closing and an opening bracket *)

Lemma replaceAll_brackets_cons (a : ascii) (s : string) :
  Js.replaceAll (String a s) "][" "."
  = if Js.startsWith (String a s) "]["
    then "." +:+ Js.replaceAll (Js.drop 1 s) "][" "."
    else String a (Js.replaceAll s "][" ".").
Proof.
  unfold Js.replaceAll.
  change (Js.replaceAll_scan "][" "." 0 (String a s))
    with (if Js.startsWith (String a s) "]["
          then "." +:+ Js.replaceAll_scan "][" "." 1 s
          else String a (Js.replaceAll_scan "][" "." 0 s)).
  by rewrite (replaceAll_scan_skip _ _ 1).
Qed.

Lemma startsWith_char (c a : ascii) (s : string) :
  Js.startsWith (String a s) (String c EmptyString) = Ascii.eqb c a.
Proof. simpl. apply andb_true_r. Qed.

Lemma startsWith_brackets (a : ascii) (s : string) :
  Js.startsWith (String a s) "][" = Ascii.eqb "]" a && Js.startsWith s "[".
Proof. reflexivity. Qed.

(** The scan does not look past a place where no opening bracket follows. *)
Lemma replaceAll_brackets_app (k rest : string) :
  Js.startsWith rest "[" = false ->
  Js.replaceAll (k +:+ rest) "][" "."
  = Js.replaceAll k "][" "." +:+ Js.replaceAll rest "][" ".".
Proof.
  intros Hrest.
  cut ((Js.replaceAll (k +:+ rest) "][" "."
        = Js.replaceAll k "][" "." +:+ Js.replaceAll rest "][" ".")
       /\ forall a, Js.replaceAll (String a k +:+ rest) "][" "."
                    = Js.replaceAll (String a k) "][" "." +:+ Js.replaceAll rest "][" ".").
  { tauto. }
  induction k as [|b k [IH1 IH2]].
  - split; [done|]. intros a. rewrite app_cons_s, app_nil_l_s.
    rewrite !replaceAll_brackets_cons, !startsWith_brackets, Hrest.
    rewrite andb_false_r. simpl Js.startsWith. rewrite andb_false_r.
    by rewrite app_cons_s.
  - split; [apply IH2|]. intros a.
    rewrite !app_cons_s.
    rewrite (replaceAll_brackets_cons a (String b (k +:+ rest))).
    rewrite (replaceAll_brackets_cons a (String b k)).
    rewrite !startsWith_brackets, !startsWith_char.
    destruct (Ascii.eqb "]" a && Ascii.eqb "[" b)%bool.
    + simpl Js.drop. by rewrite IH1, app_assoc_s.
    + rewrite <- app_cons_s, IH2. by rewrite app_cons_s.
Qed.

Lemma replaceAll_brackets_absent (k : string) :
  Js.includes k "][" = false -> Js.replaceAll k "][" "." = k.
Proof.
  induction k as [|a k IH]; [done|].
  rewrite replaceAll_brackets_cons.
  change (Js.includes (String a k) "][")
    with (Js.startsWith (String a k) "][" || Js.includes k "][").
  intros H. apply orb_false_iff in H as [-> H]. by rewrite (IH H).
Qed.

(** *** Splitting at the dots *)

Lemma split_scan_dot_cons (a : ascii) (s : string) :
  Js.split_scan "." 0 (String a s)
  = if Ascii.eqb "." a
    then (EmptyString, (Js.split_scan "." 0 s).1 :: (Js.split_scan "." 0 s).2)
    else (String a (Js.split_scan "." 0 s).1, (Js.split_scan "." 0 s).2).
Proof.
  simpl. rewrite andb_true_r.
  destruct (Ascii.eqb "." a); by destruct (Js.split_scan "." 0 s).
Qed.

Lemma split_dot_eq (s : string) :
  Js.split s "." = (Js.split_scan "." 0 s).1 :: (Js.split_scan "." 0 s).2.
Proof. unfold Js.split. by destruct (Js.split_scan "." 0 s). Qed.

Lemma split_scan_dot_app (x rest : string) :
  Js.includes x "." = false ->
  Js.split_scan "." 0 (x +:+ rest)
  = (x +:+ (Js.split_scan "." 0 rest).1, (Js.split_scan "." 0 rest).2).
Proof.
  induction x as [|a x IH].
  - intros _. rewrite app_nil_l_s. by destruct (Js.split_scan "." 0 rest).
  - rewrite includes_char_cons, app_cons_s, split_scan_dot_cons.
    intros H. apply orb_false_iff in H as [-> H]. by rewrite (IH H).
Qed.

Lemma split_dot_single (x : string) :
  Js.includes x "." = false -> Js.split x "." = [x].
Proof.
  intros H. rewrite split_dot_eq.
  pose proof (split_scan_dot_app x EmptyString H) as E.
  rewrite app_nil_r_s in E. rewrite E. simpl. by rewrite app_nil_r_s.
Qed.

Lemma split_dot_app (x rest : string) :
  Js.includes x "." = false ->
  Js.split (x +:+ "." +:+ rest) "." = x :: Js.split rest ".".
Proof.
  intros H. rewrite !split_dot_eq, (split_scan_dot_app x _ H).
  rewrite app_cons_s, app_nil_l_s, split_scan_dot_cons. simpl.
  by rewrite app_nil_r_s.
Qed.

Lemma split_join_dot (xs : list string) :
  xs ≠ [] -> Forall (fun x => Js.includes x "." = false) xs ->
  Js.split (Js.join "." xs) "." = xs.
Proof.
  intros Hne Hall. induction Hall as [|x xs Hx Hall IH]; [done|].
  destruct xs as [|y xs].
  - simpl. by apply split_dot_single.
  - change (Js.join "." (x :: y :: xs)) with (x +:+ "." +:+ Js.join "." (y :: xs)).
    rewrite split_dot_app by done. by rewrite IH.
Qed.

(** *** Decimal numerals *)

Lemma all_digits_of_uint (u : uint) : all_digits (NilEmpty.string_of_uint u) = true.
Proof. induction u; simpl; auto. Qed.

Lemma N_to_uint_nonnil (n : N) : N.to_uint n ≠ Nil.
Proof. destruct n; simpl; [discriminate|apply DecimalPos.Unsigned.to_uint_nonnil]. Qed.

Lemma dec_digits (n : N) : all_digits (Js.dec n) = true.
Proof.
  unfold Js.dec, NilZero.string_of_uint.
  destruct (N.to_uint n) eqn:E; try (rewrite <- E; apply all_digits_of_uint).
  reflexivity.
Qed.

Lemma dec_truthy (n : N) : Js.truthy_string (Js.dec n) = true.
Proof.
  unfold Js.dec, NilZero.string_of_uint.
  pose proof (N_to_uint_nonnil n). by destruct (N.to_uint n).
Qed.

Lemma digits_exclude (c : ascii) (s : string) :
  is_digit c = false -> all_digits s = true -> Js.includes s (String c EmptyString) = false.
Proof.
  intros Hc. induction s as [|a s IH]; [done|].
  simpl all_digits. rewrite includes_char_cons. intros H.
  apply andb_true_iff in H as [Ha H]. rewrite (IH H), orb_false_r.
  destruct (Ascii.eqb_spec c a) as [->|]; [congruence|done].
Qed.

Lemma dec_excludes (c : ascii) (n : N) :
  is_digit c = false -> Js.includes (Js.dec n) (String c EmptyString) = false.
Proof. intros Hc. apply digits_exclude; [done|apply dec_digits]. Qed.

Lemma dec_no_brackets (n : N) : Js.includes (Js.dec n) "][" = false.
Proof.
  destruct (Js.includes (Js.dec n) "][") eqn:E; [|done].
  apply (includes_app _ "]" "[") in E. by rewrite dec_excludes in E.
Qed.

(** The numeral of an index is read back as that index. *)
Lemma array_index_dec (n : N) :
  (n < 4294967295)%N -> Js.array_index (Js.dec n) = Some n.
Proof.
  intros Hn. unfold Js.array_index, Js.dec.
  rewrite NilZero.usu by apply N_to_uint_nonnil.
  rewrite DecimalN.Unsigned.of_to, String.eqb_refl.
  by apply N.ltb_lt in Hn as ->.
Qed.

(** *** The flat key of a path *)

Lemma formatter_core (s : Seg) : defaultPathFormatter s = "[" +:+ core s +:+ "]".
Proof. destruct s; simpl; [|done]. by rewrite !app_assoc_s. Qed.

Lemma getPath_cores (s : Seg) (p : list Seg) :
  getPath (s :: p) = "[" +:+ Js.join "][" (map core (s :: p)) +:+ "]".
Proof.
  revert s. induction p as [|s' p IH]; intros s.
  - simpl getPath. by rewrite app_nil_r_s, formatter_core.
  - change (getPath (s :: s' :: p)) with (defaultPathFormatter s +:+ getPath (s' :: p)).
    rewrite IH, formatter_core.
    change (Js.join "][" (map core (s :: s' :: p)))
      with (core s +:+ "][" +:+ Js.join "][" (map core (s' :: p))).
    by rewrite !app_assoc_s.
Qed.

Lemma replaceAll_brackets_join (cs : list string) :
  Js.replaceAll (Js.join "][" cs) "][" "."
  = Js.join "." (map (fun c => Js.replaceAll c "][" ".") cs).
Proof.
  induction cs as [|c cs IH]; [done|].
  destruct cs as [|c' cs]; [done|].
  change (Js.join "][" (c :: c' :: cs)) with (c +:+ "][" +:+ Js.join "][" (c' :: cs)).
  rewrite replaceAll_brackets_app by done.
  rewrite (app_cons_s "]"), (replaceAll_brackets_cons "]").
  change (Js.startsWith _ "][") with true. cbv iota.
  change (Js.drop 1 ("[" +:+ Js.join "][" (c' :: cs))) with (Js.join "][" (c' :: cs)).
  by rewrite IH.
Qed.

Lemma replaceAll_char_join (c : ascii) (rep : string) (ys : list string) :
  Js.replaceAll "." (String c EmptyString) rep = "." ->
  Js.replaceAll (Js.join "." ys) (String c EmptyString) rep
  = Js.join "." (map (fun y => Js.replaceAll y (String c EmptyString) rep) ys).
Proof.
  intros Hdot. induction ys as [|y ys IH]; [done|].
  destruct ys as [|y' ys]; [done|].
  change (Js.join "." (y :: y' :: ys)) with (y +:+ "." +:+ Js.join "." (y' :: ys)).
  by rewrite !replaceAll_char_app, Hdot, IH.
Qed.

Lemma replaceAll_dquote_app (s1 s2 : string) :
  Js.replaceAll (s1 +:+ s2) dquote "'"
  = Js.replaceAll s1 dquote "'" +:+ Js.replaceAll s2 dquote "'".
Proof. apply replaceAll_char_app. Qed.

Lemma segment_of_core (s : Seg) :
  Js.replaceAll (Js.replaceAll (core s) "][" ".") dquote "'" = segment s.
Proof.
  destruct s as [k|i]; simpl core; simpl segment.
  - unfold dquote at 1. rewrite app_cons_s, app_nil_l_s, replaceAll_brackets_cons.
    change (Js.startsWith _ "][") with false. cbv iota.
    rewrite replaceAll_brackets_app by done.
    change (Js.replaceAll dquote "][" ".") with dquote.
    rewrite <- app_cons_s.
    change (String (ascii_of_nat 34) (Js.replaceAll k "][" "."))
      with (dquote +:+ Js.replaceAll k "][" ".").
    rewrite !replaceAll_dquote_app.
    by change (Js.replaceAll dquote dquote "'") with "'".
  - rewrite replaceAll_brackets_absent by apply dec_no_brackets.
    apply replaceAll_char_absent. by apply dec_excludes.
Qed.

(** The key the callback computes for a node is the dotted list of the
    segments of its path. *)
Lemma path_key_segments (p : list Seg) :
  path_key (getPath p) = Js.join "." (map segment p).
Proof.
  destruct p as [|s p]; [done|].
  unfold path_key. rewrite getPath_cores.
  rewrite (app_cons_s "["), app_nil_l_s.
  rewrite (substring_strip "[" "]").
  rewrite replaceAll_brackets_join, (replaceAll_char_join (ascii_of_nat 34)) by done.
  rewrite !map_map. f_equal. apply map_ext. intros s'. apply segment_of_core.
Qed.

(** ** Ordered records *)

Section RecordFacts.
Context {V : Type}.
Implicit Types (o : Rec V) (k : string) (v : V).

Lemma get_Some_keys o k v : Obj.get o k = Some v -> k ∈ Obj.keys o.
Proof.
  induction o as [|[k' v'] o IH]; simpl; [done|].
  destruct (String.eqb_spec k' k) as [->|Hne]; intros H.
  - apply list_elem_of_here.
  - apply list_elem_of_further, IH, H.
Qed.

Lemma get_None_keys o k : Obj.get o k = None -> k ∉ Obj.keys o.
Proof.
  induction o as [|[k' v'] o IH]; simpl; intros H.
  - apply not_elem_of_nil.
  - destruct (String.eqb_spec k' k) as [->|Hne]; [done|].
    apply not_elem_of_cons; split; [congruence | by apply IH].
Qed.

Lemma keys_get_Some o k : k ∈ Obj.keys o -> is_Some (Obj.get o k).
Proof.
  intros Hin. destruct (Obj.get o k) eqn:E; [by eexists|].
  by apply get_None_keys in E.
Qed.

Lemma get_first o k v : NoDup (Obj.keys o) -> (k, v) ∈ o -> Obj.get o k = Some v.
Proof.
  induction o as [|[k' v'] o IH]; simpl; intros Hnd Hin.
  - by apply elem_of_nil in Hin.
  - apply NoDup_cons in Hnd as [Hk Hnd].
    apply elem_of_cons in Hin as [Heq|Hin].
    + injection Heq as -> ->. by rewrite String.eqb_refl.
    + destruct (String.eqb_spec k' k) as [->|Hne]; [|by apply IH].
      exfalso. apply Hk. unfold Obj.keys.
      change k with (fst (k, v)). by apply list_elem_of_fmap_2.
Qed.

Lemma keys_update o k v : Obj.keys (Obj.update o k v) = Obj.keys o.
Proof.
  induction o as [|[k' v'] o IH]; simpl; [done|].
  destruct (String.eqb k' k); simpl; [done|]. by rewrite IH.
Qed.

Lemma keys_insert_index o n k v :
  Obj.keys (Obj.insert_index o n k v) ≡ₚ k :: Obj.keys o.
Proof.
  induction o as [|[k' v'] o IH]; simpl; [done|].
  destruct (Js.array_index k') as [m|]; [|done].
  destruct (m <? n)%N; simpl; [|done].
  rewrite IH. apply Permutation_swap.
Qed.

Lemma keys_set o k v :
  Obj.keys (Obj.set o k v) ≡ₚ
  if Obj.has o k then Obj.keys o else k :: Obj.keys o.
Proof.
  unfold Obj.set. destruct (Obj.has o k).
  - by rewrite keys_update.
  - destruct (Js.array_index k).
    + apply keys_insert_index.
    + unfold Obj.keys. rewrite map_app. simpl.
      symmetry. apply Permutation_cons_append.
Qed.

Lemma NoDup_keys_set o k v : NoDup (Obj.keys o) -> NoDup (Obj.keys (Obj.set o k v)).
Proof.
  intros Hnd. rewrite keys_set. unfold Obj.has.
  destruct (Obj.get o k) eqn:E; [done|].
  apply NoDup_cons; split; [by apply get_None_keys | done].
Qed.

Lemma elem_of_update o k v e :
  e ∈ Obj.update o k v -> e = (k, v) \/ e ∈ o.
Proof.
  induction o as [|[k' v'] o IH]; simpl; [by right|].
  destruct (String.eqb_spec k' k) as [->|Hne]; intros Hin.
  - apply elem_of_cons in Hin as [->|Hin]; [by left|].
    right. by apply list_elem_of_further.
  - apply elem_of_cons in Hin as [->|Hin]; [right; apply list_elem_of_here|].
    destruct (IH Hin) as [->|H']; [by left|right; by apply list_elem_of_further].
Qed.

Lemma elem_of_insert_index o n k v e :
  e ∈ Obj.insert_index o n k v -> e = (k, v) \/ e ∈ o.
Proof.
  induction o as [|[k' v'] o IH]; simpl.
  - intros Hin. apply list_elem_of_singleton in Hin. by left.
  - destruct (Js.array_index k') as [m|].
    + destruct (m <? n)%N; intros Hin.
      * apply elem_of_cons in Hin as [->|Hin]; [right; apply list_elem_of_here|].
        destruct (IH Hin) as [->|H']; [by left|right; by apply list_elem_of_further].
      * apply elem_of_cons in Hin as [->|Hin]; [by left|by right].
    + intros Hin. apply elem_of_cons in Hin as [->|Hin]; [by left|by right].
Qed.

Lemma elem_of_set o k v e : e ∈ Obj.set o k v -> e = (k, v) \/ e ∈ o.
Proof.
  unfold Obj.set. destruct (Obj.has o k).
  - apply elem_of_update.
  - destruct (Js.array_index k).
    + apply elem_of_insert_index.
    + intros Hin. apply elem_of_app in Hin as [Hin|Hin]; [by right|].
      apply list_elem_of_singleton in Hin. by left.
Qed.

End RecordFacts.

(** ** The flat record of a document *)

Lemma flatten_fold_NoDup (l : list (list Seg * ValueType)) (o : Rec ValueType) :
  NoDup (Obj.keys o) ->
  NoDup (Obj.keys (fold_left (fun newObj '(p, val) =>
                                Obj.set newObj (path_key (getPath p)) val) l o)).
Proof.
  revert o. induction l as [|[p x] l IH]; intros o Hnd; simpl; [done|].
  apply IH. by apply NoDup_keys_set.
Qed.

Lemma flattenObject_NoDup (d : JVal) : NoDup (Obj.keys (flattenObject d)).
Proof. apply flatten_fold_NoDup. constructor. Qed.

(** The record of an array at the root: the key of the second element is an
    array index and is listed first, as JavaScript orders own properties. *)
Example flatten_root_array :
  flattenObject (JArr [JObj [("a", JLeaf (VStr "x"))]; JLeaf (VStr "y")])
  = [("1", VStr "y"); ("0.'a'", VStr "x")].
Proof. reflexivity. Qed.

(** Without a base an index that is not the next one would leave a hole in
    the array, and a key that repeats as a prefix of another ends on a
    string that cannot take a property. *)
Example unflatten_hole :
  unflattenObject [("'a'.1", VStr "x")] (JObj []) = Unsupported.
Proof. reflexivity. Qed.

Example unflatten_through_string :
  unflattenObject [("'a'", VStr "x"); ("'a'.'b'", VStr "y")] (JObj []) = Throw TypeError.
Proof. reflexivity. Qed.

Example unflatten_builds :
  unflattenObject [("'a'.'b'", VStr "x"); ("'a'.'c'.0", VNum 1)] (JObj [])
  = Done (JObj [("a", JObj [("b", JLeaf (VStr "x")); ("c", JArr [JLeaf (VNum 1)])])]).
Proof. reflexivity. Qed.

(** Every entry of the flat record was emitted for a leaf that was visited. *)
Lemma flatten_fold_entries (l : list (list Seg * ValueType)) (o : Rec ValueType) k x :
  (k, x) ∈ fold_left (fun newObj '(p, val) =>
                        Obj.set newObj (path_key (getPath p)) val) l o ->
  (k, x) ∈ o \/ exists p, (p, x) ∈ l /\ k = path_key (getPath p).
Proof.
  revert o. induction l as [|[p y] l IH]; intros o; simpl; [by left|].
  intros Hin. destruct (IH _ Hin) as [Ho|(q & Hq & ->)].
  - apply elem_of_set in Ho as [Heq|Ho]; [|by left].
    injection Heq as -> ->. right. exists p. split; [apply list_elem_of_here|done].
  - right. exists q. split; [by apply list_elem_of_further|done].
Qed.

Lemma flattenObject_entries (d : JVal) k x :
  (k, x) ∈ flattenObject d -> exists p, (p, x) ∈ walk [] d /\ k = path_key (getPath p).
Proof.
  intros Hin. apply flatten_fold_entries in Hin as [Hin|Hin]; [|done].
  by apply elem_of_nil in Hin.
Qed.

(** ** Documents *)

(** Induction on documents, with the hypothesis for every child. *)
Lemma JVal_induction (P : JVal -> Prop) :
  (forall x, P (JLeaf x)) ->
  (forall props, Forall (fun kc => P kc.2) props -> P (JObj props)) ->
  (forall items, Forall P items -> P (JArr items)) ->
  forall d, P d.
Proof.
  intros Hleaf Hobj Harr. fix IH 1. intros [x|props|items].
  - apply Hleaf.
  - apply Hobj. induction props as [|kc ps IHps]; constructor; [apply IH|apply IHps].
  - apply Harr. induction items as [|c cs IHcs]; constructor; [apply IH|apply IHcs].
Qed.

Lemma walk_obj path props : walk path (JObj props) = walk_members path props.
Proof. induction props as [|[k c] ps IH]; [done|]. simpl in *. by rewrite IH. Qed.

Lemma walk_arr path items : walk path (JArr items) = walk_elements path 0 items.
Proof.
  simpl. generalize 0%N. induction items as [|c cs IH]; intros i; [done|].
  simpl. by rewrite IH.
Qed.

(** The path of a visited node starts with the path of the walk. *)
Lemma walk_prefix (d : JVal) :
  forall path, walk path d = map (fun px => (path ++ px.1, px.2)) (walk [] d).
Proof.
  induction d as [x|props IH|items IH] using JVal_induction; intros path.
  - simpl. by rewrite app_nil_r.
  - rewrite !walk_obj. induction IH as [|[k c] ps Hc _ IHps]; [done|].
    simpl in *. rewrite map_app, IHps. f_equal.
    rewrite (Hc (path ++ [ObjKey k])), (Hc [ObjKey k]), map_map.
    apply map_ext. intros [p x]. simpl. by rewrite <- app_assoc.
  - rewrite !walk_arr. generalize 0%N.
    induction IH as [|c cs Hc _ IHcs]; intros i; [done|].
    simpl. rewrite map_app, IHcs. f_equal.
    rewrite (Hc (path ++ [ArrIdx i])), (Hc [ArrIdx i]), map_map.
    apply map_ext. intros [p x]. simpl. by rewrite <- app_assoc.
Qed.

Lemma elem_of_walk_members ps p x :
  (p, x) ∈ walk_members [] ps ->
  exists k c p', (k, c) ∈ ps /\ p = ObjKey k :: p' /\ (p', x) ∈ walk [] c.
Proof.
  induction ps as [|[k c] ps IH]; simpl; intros Hin.
  - by apply elem_of_nil in Hin.
  - apply elem_of_app in Hin as [Hin|Hin].
    + rewrite walk_prefix in Hin. apply list_elem_of_fmap in Hin as ([p' x'] & Heq & Hin).
      simpl in Heq. injection Heq as -> ->.
      exists k, c, p'. split; [apply list_elem_of_here|done].
    + destruct (IH Hin) as (k' & c' & p' & Hk & Hp & Hw).
      exists k', c', p'. split; [by apply list_elem_of_further|done].
Qed.

Lemma elem_of_walk_elements cs i p x :
  (p, x) ∈ walk_elements [] i cs ->
  exists j c p', cs !! j = Some c /\ p = ArrIdx (i + N.of_nat j) :: p'
                 /\ (p', x) ∈ walk [] c.
Proof.
  revert i. induction cs as [|c cs IH]; simpl; intros i Hin.
  - by apply elem_of_nil in Hin.
  - apply elem_of_app in Hin as [Hin|Hin].
    + rewrite walk_prefix in Hin. apply list_elem_of_fmap in Hin as ([p' x'] & Heq & Hin).
      simpl in Heq. injection Heq as -> ->.
      exists 0, c, p'. split; [done|]. split; [|done]. f_equal. f_equal. lia.
    + destruct (IH _ Hin) as (j & c' & p' & Hj & Hp & Hw).
      exists (S j), c', p'. split; [done|]. split; [|done].
      rewrite Hp. f_equal. f_equal. lia.
Qed.

(** In a well-formed document with plain keys, a visited node is a leaf
    reached by its path, and every step of the path is plain. *)
Lemma walk_leaf_at (d : JVal) :
  JVal_wf d = true -> plain_keys d = true ->
  forall p x, (p, x) ∈ walk [] d -> leaf_at d p x /\ Forall plain_seg p.
Proof.
  induction d as [y|props IH|items IH] using JVal_induction; intros Hwf Hplain p x Hin.
  - apply list_elem_of_singleton in Hin. injection Hin as -> ->.
    split; constructor.
  - rewrite walk_obj in Hin.
    apply elem_of_walk_members in Hin as (k & c & p' & Hk & -> & Hw).
    simpl in Hwf, Hplain. apply andb_true_iff in Hwf as [Hnd Hwf].
    apply andb_true_iff in Hnd as [Hnd _].
    apply bool_decide_eq_true in Hnd.
    rewrite forallb_forall in Hwf, Hplain.
    apply list_elem_of_In in Hk as Hk'.
    specialize (Hwf _ Hk'). specialize (Hplain _ Hk'). simpl in Hwf, Hplain.
    apply andb_true_iff in Hplain as [Hkey Hplain].
    rewrite Forall_forall in IH.
    destruct (IH _ Hk Hwf Hplain p' x Hw) as [Hleaf Hsegs].
    split; [|by constructor].
    apply leaf_member with c; [|done]. by apply get_first.
  - rewrite walk_arr in Hin.
    apply elem_of_walk_elements in Hin as (j & c & p' & Hj & -> & Hw).
    simpl in Hwf, Hplain. apply andb_true_iff in Hwf as [Hlen Hwf].
    apply N.leb_le in Hlen.
    rewrite forallb_forall in Hwf, Hplain.
    apply list_elem_of_lookup_2 in Hj as Hc. apply list_elem_of_In in Hc as Hc'.
    rewrite Forall_forall in IH.
    destruct (IH _ Hc (Hwf _ Hc') (Hplain _ Hc') p' x Hw) as [Hleaf Hsegs].
    apply lookup_lt_Some in Hj as Hlt.
    split.
    + apply leaf_element with c; [|done]. rewrite N.add_0_l, Nat2N.id. done.
    + constructor; [|done]. simpl. lia.
Qed.




Lemma walk_container_path (d : JVal) p x :
  is_container d = true -> (p, x) ∈ walk [] d -> p ≠ [].
Proof.
  destruct d as [y|props|items]; [done| |]; intros _ Hin.
  - rewrite walk_obj in Hin.
    by apply elem_of_walk_members in Hin as (k & c & p' & _ & -> & _).
  - rewrite walk_arr in Hin.
    by apply elem_of_walk_elements in Hin as (j & c & p' & _ & -> & _).
Qed.

(** ** The codec on plain keys *)

Lemma plain_key_parts (k : string) :
  plain_key k = true ->
  Js.includes k "." = false /\ Js.includes k "'" = false
  /\ Js.includes k dquote = false /\ Js.includes k "][" = false.
Proof.
  unfold plain_key. rewrite !andb_true_iff, !negb_true_iff. tauto.
Qed.

Lemma key_text_plain (k : string) :
  Js.includes k dquote = false -> Js.includes k "][" = false -> key_text k = k.
Proof.
  intros Hq Hb. unfold key_text. rewrite replaceAll_brackets_absent by done.
  by apply replaceAll_char_absent.
Qed.

Lemma segment_plain (s : Seg) : plain_seg s -> segment s = quoted s.
Proof.
  destruct s as [k|i]; [|done]. simpl. intros Hk.
  apply plain_key_parts in Hk as (_ & _ & Hq & Hb). by rewrite key_text_plain.
Qed.

Lemma quoted_no_dot (s : Seg) : plain_seg s -> Js.includes (quoted s) "." = false.
Proof.
  destruct s as [k|i]; simpl.
  - intros Hk. apply plain_key_parts in Hk as (Hd & _).
    rewrite !includes_char_app, Hd. reflexivity.
  - intros _. by apply dec_excludes.
Qed.

(** Splitting the flat key of a plain path gives back its segments. *)
Lemma split_path_key (p : list Seg) :
  p ≠ [] -> Forall plain_seg p ->
  Js.split (path_key (getPath p)) "." = map quoted p.
Proof.
  intros Hne Hp. rewrite path_key_segments.
  assert (map segment p = map quoted p) as ->.
  { apply map_ext_in. intros s Hs. apply segment_plain.
    rewrite Forall_forall in Hp. apply Hp. by apply list_elem_of_In. }
  apply split_join_dot.
  - by destruct p.
  - apply Forall_fmap. eapply Forall_impl; [exact Hp|]. intros s. apply quoted_no_dot.
Qed.

Lemma strip_quoted (s : Seg) :
  plain_seg s -> Js.replaceAll (quoted s) "'" EmptyString = literal s.
Proof.
  destruct s as [k|i]; cbn [quoted literal plain_seg].
  - intros Hk. apply plain_key_parts in Hk as (_ & Hq & _).
    rewrite !replaceAll_char_app, (replaceAll_char_absent _ _ k Hq).
    change (Js.replaceAll "'" "'" EmptyString) with EmptyString.
    by rewrite app_nil_l_s, app_nil_r_s.
  - intros _. apply replaceAll_char_absent. by apply dec_excludes.
Qed.

(** The look-ahead of the reduction tells an object key from an index. *)
Lemma lookahead_quoted (s : Seg) :
  Js.includes (quoted s) "'" = true
  \/ (Js.includes (quoted s) "'" = false /\ Js.truthy_string (quoted s) = true).
Proof.
  destruct s as [k|i]; cbn [quoted].
  - left. rewrite includes_char_app. reflexivity.
  - right. split; [by apply dec_excludes|apply dec_truthy].
Qed.

(** *** Assignments that change nothing *)

Lemma update_same {V} (o : Rec V) k v : Obj.get o k = Some v -> Obj.update o k v = o.
Proof.
  induction o as [|[k' v'] o IH]; simpl; [done|].
  destruct (String.eqb k' k); [by intros [= ->]|]. intros H. by rewrite IH.
Qed.

Lemma js_put_same (acc : JVal) (k : string) (c : JVal) :
  js_get acc k = Done (Some c) -> js_put acc k c = Done acc.
Proof.
  destruct acc as [x|props|items]; simpl.
  - by destruct k.
  - unfold Obj.has. destruct (Obj.get props k) as [c'|] eqn:E.
    + intros [= ->]. by rewrite update_same.
    + by destruct (inherited k).
  - destruct (Js.array_index k) as [i|]; [|done].
    intros [= Hi]. apply lookup_lt_Some in Hi as Hlt.
    assert ((i <? N.of_nat (length items))%N = true) as -> by (apply N.ltb_lt; lia).
    by rewrite list_insert_id.
Qed.

Lemma descend_same (acc : JVal) (k : string) (fresh c : JVal)
    (rest : JVal -> Outcome JVal) :
  js_get acc k = Done (Some c) -> truthy c = true -> rest c = Done c ->
  descend acc k fresh rest = Done acc.
Proof.
  intros Hget Ht Hrest. unfold descend. rewrite Hget. simpl.
  rewrite Ht, Hrest. simpl. by apply js_put_same.
Qed.

Lemma js_get_step (d : JVal) (s : Seg) (p : list Seg) (x : ValueType) :
  plain_seg s -> leaf_at d (s :: p) x ->
  exists c, js_get d (literal s) = Done (Some c) /\ leaf_at c p x.
Proof.
  intros Hs Hleaf. inversion Hleaf as [|props k c' p' x' Hget Hc|items i c' p' x' Hget Hc];
    subst; exists c'; (split; [|done]); simpl.
  - by rewrite Hget.
  - simpl in Hs. by rewrite array_index_dec, Hget.
Qed.

(** Writing a leaf of the document back at its own path changes nothing. *)
Lemma reduce_keys_leaf (d : JVal) (p : list Seg) (x : ValueType) :
  leaf_at d p x -> p ≠ [] -> Forall plain_seg p ->
  reduce_keys d (map quoted p) x = Done d.
Proof.
  revert d. induction p as [|s p IH]; intros d Hleaf Hne Hp; [done|].
  apply Forall_cons in Hp as [Hs Hp].
  destruct (js_get_step d s p x Hs Hleaf) as (c & Hget & Hc).
  simpl map. unfold reduce_keys; fold reduce_keys.
  rewrite (strip_quoted s Hs).
  destruct p as [|s' p'].
  - simpl map. cbv iota. inversion Hc; subst. by apply js_put_same.
  - assert (truthy c = true) as Ht by (by inversion Hc).
    assert (reduce_keys c (map quoted (s' :: p')) x = Done c) as Hrest
      by (by apply IH).
    change (map quoted (s' :: p')) with (quoted s' :: map quoted p') in *.
    cbv iota.
    destruct (lookahead_quoted s') as [->|[-> ->]]; by eapply descend_same.
Qed.

Lemma unflatten_unchanged (data : Rec ValueType) (base : JVal) :
  (forall k x, (k, x) ∈ data -> reduce_keys base (Js.split k ".") x = Done base) ->
  unflattenObject data base = Done base.
Proof.
  unfold unflattenObject.
  match goal with |- context [fold_left ?g _ _] => set (f := g) end.
  induction data as [|[k x] data IH]; intros H; [done|].
  change (fold_left f ((k, x) :: data) (Done base))
    with (fold_left f data (reduce_keys base (Js.split k ".") x)).
  rewrite (H k x) by apply list_elem_of_here.
  apply IH. intros k' x' Hin. apply H. by apply list_elem_of_further.
Qed.

(** C1, as the code has it: a document whose object keys are plain (no
    dot, no quote of either kind, no closing bracket followed by an opening
    one) and whose root is an object or an array comes back unchanged, empty
    containers included, when its flat record is unflattened on itself. *)
Theorem unflatten_flatten_plain (d : JVal) :
  JVal_wf d = true -> is_container d = true -> plain_keys d = true ->
  unflattenObject (flattenObject d) d = Done d.
Proof.
  intros Hwf Hroot Hplain. apply unflatten_unchanged. intros k x Hin.
  apply flattenObject_entries in Hin as (p & Hp & ->).
  destruct (walk_leaf_at d Hwf Hplain p x Hp) as [Hleaf Hsegs].
  pose proof (walk_container_path d p x Hroot Hp) as Hne.
  rewrite split_path_key by done. by apply reduce_keys_leaf.
Qed.

Lemma unflatten_flatten_plain_witness :
  unflattenObject (flattenObject mixed_doc) mixed_doc = Done mixed_doc.
Proof.
  apply (unflatten_flatten_plain mixed_doc); reflexivity.
Defined.

(** The claim of C1 fails on the code: the key [a.b] is split at its dot,
    and the round trip adds an object [a] next to it. *)
Lemma dotted_key_breaks_round_trip :
  JVal_wf dotted_doc = true
  /\ flattenObject dotted_doc = [("'a.b'", VStr "x")]
  /\ unflattenObject (flattenObject dotted_doc) dotted_doc
     = Done (JObj [("a.b", JLeaf (VStr "x")); ("a", JObj [("b", JLeaf (VStr "x"))])])
  /\ unflattenObject (flattenObject dotted_doc) dotted_doc ≠ Done dotted_doc.
Proof. repeat split; try (vm_compute; reflexivity). vm_compute. discriminate. Qed.

(** ** The keys of the flat record *)

Lemma set_keeps_keys {V} (o : Rec V) k v k' :
  k' ∈ Obj.keys o -> k' ∈ Obj.keys (Obj.set o k v).
Proof.
  intros Hin. rewrite keys_set. destruct (Obj.has o k); [done|].
  by apply list_elem_of_further.
Qed.

Lemma set_adds_key {V} (o : Rec V) k v : k ∈ Obj.keys (Obj.set o k v).
Proof.
  rewrite keys_set. unfold Obj.has. destruct (Obj.get o k) eqn:E.
  - by apply get_Some_keys in E.
  - apply list_elem_of_here.
Qed.

Lemma flatten_fold_keys (l : list (list Seg * ValueType)) (o : Rec ValueType) p x :
  (p, x) ∈ l ->
  path_key (getPath p)
  ∈ Obj.keys (fold_left (fun newObj '(p, val) =>
                           Obj.set newObj (path_key (getPath p)) val) l o).
Proof.
  revert o. induction l as [|[q y] l IH]; intros o Hin.
  - by apply elem_of_nil in Hin.
  - simpl. apply elem_of_cons in Hin as [Heq|Hin]; [|by apply IH].
    injection Heq as -> ->. clear IH.
    assert (path_key (getPath q) ∈ Obj.keys (Obj.set o (path_key (getPath q)) y)) as Hk
      by apply set_adds_key.
    revert Hk. generalize (Obj.set o (path_key (getPath q)) y).
    induction l as [|[q' y'] l IH]; intros o' Hk; [done|].
    simpl. apply IH. by apply set_keeps_keys.
Qed.

(** C7, as the code has it: the key emitted for a leaf is the dotted list
    of the segments of its path, a plain numeral for an array position and
    the object key between single quotes for an object position; inside the
    quotes the key is kept as it is unless it holds a double quote or a
    closing bracket followed by an opening one. *)
Theorem flat_key_quotes_object_keys (d : JVal) (p : list Seg) (x : ValueType) :
  (p, x) ∈ walk [] d ->
  path_key (getPath p) = Js.join "." (map segment p)
  /\ Js.join "." (map segment p) ∈ Obj.keys (flattenObject d)
  /\ (forall k, ObjKey k ∈ p ->
        Js.includes k dquote = false -> Js.includes k "][" = false ->
        segment (ObjKey k) = "'" +:+ k +:+ "'")
  /\ (forall i, segment (ArrIdx i) = Js.dec i).
Proof.
  intros Hin. split; [apply path_key_segments|].
  split; [|split].
  - rewrite <- path_key_segments. unfold flattenObject.
    by apply flatten_fold_keys with x.
  - intros k _ Hq Hb. simpl. by rewrite key_text_plain.
  - done.
Qed.

Lemma flat_key_quotes_object_keys_witness :
  path_key (getPath auth_path) = "'auth'.'errors'.0.'message'".
Proof.
  refine (eq_trans (proj1 (flat_key_quotes_object_keys auth_doc auth_path
                             (VStr "Denied") _)) _).
  - vm_compute. apply list_elem_of_here.
  - vm_compute. reflexivity.
Defined.

(** The claim of C7 fails on the code: the leaf at [auth], [errors], [0],
    [message] is not emitted under the key with the literal segments. *)
Lemma flat_key_is_not_literal :
  walk [] auth_doc = [(auth_path, VStr "Denied")]
  /\ Js.join "." (map literal auth_path) = "auth.errors.0.message"
  /\ flattenObject auth_doc = [("'auth'.'errors'.0.'message'", VStr "Denied")]
  /\ Obj.get (flattenObject auth_doc) "auth.errors.0.message" = None.
Proof. repeat split; vm_compute; reflexivity. Qed.

(** ** The flat record in traversal order *)

Lemma array_index_quote (s : string) : Js.array_index (String "'" s) = None.
Proof.
  unfold Js.array_index. simpl. by destruct (NilEmpty.uint_of_string s).
Qed.

Lemma join_cons_head (c : ascii) (x : string) (xs : list string) :
  exists t, Js.join "." (String c x :: xs) = String c t.
Proof. destruct xs; simpl; eauto. Qed.

Lemma path_key_not_index (k : string) (p : list Seg) :
  Js.array_index (path_key (getPath (ObjKey k :: p))) = None.
Proof.
  rewrite path_key_segments. simpl map. simpl segment.
  rewrite (app_cons_s "'"), app_nil_l_s.
  destruct (join_cons_head "'" (key_text k +:+ "'") (map segment p)) as [t ->].
  apply array_index_quote.
Qed.

Lemma fold_set_fresh {V} (l o : Rec V) :
  NoDup (Obj.keys l) ->
  (forall k, k ∈ Obj.keys l -> (k ∉ Obj.keys o) /\ Js.array_index k = None) ->
  fold_left (fun (r : Rec V) (kv : string * V) => Obj.set r (fst kv) (snd kv)) l o = o ++ l.
Proof.
  revert o. induction l as [|[k v] l IH]; intros o Hnd Hfresh.
  - by rewrite app_nil_r.
  - simpl in Hnd. apply NoDup_cons in Hnd as [Hk Hnd].
    destruct (Hfresh k) as [Hko Hki]; [apply list_elem_of_here|].
    simpl. unfold Obj.set at 2. unfold Obj.has.
    destruct (Obj.get o k) eqn:E; [by apply get_Some_keys in E|].
    rewrite Hki, IH; [by rewrite <- app_assoc| done |].
    intros k' Hk'. destruct (Hfresh k') as [Hk'o Hk'i]; [by apply list_elem_of_further|].
    split; [|done]. unfold Obj.keys. rewrite map_app. simpl.
    intros Hin. apply elem_of_app in Hin as [Hin|Hin]; [done|].
    apply list_elem_of_singleton in Hin. by subst.
Qed.

Lemma flatten_as_fold (l : list (list Seg * ValueType)) (o : Rec ValueType) :
  fold_left (fun newObj '(p, val) => Obj.set newObj (path_key (getPath p)) val) l o
  = fold_left (fun (r : Rec ValueType) (kv : string * ValueType) =>
                 Obj.set r (fst kv) (snd kv))
      (map (fun px => (path_key (getPath px.1), px.2)) l) o.
Proof.
  revert o. induction l as [|[p x] l IH]; intros o; [done|]. simpl. apply IH.
Qed.

(** Distinct leaves have distinct paths. *)
Lemma walk_members_head ps p x :
  (p, x) ∈ walk_members [] ps -> exists k p', p = ObjKey k :: p' /\ k ∈ map fst ps.
Proof.
  intros Hin. apply elem_of_walk_members in Hin as (k & c & p' & Hk & -> & _).
  exists k, p'. split; [done|]. by apply (list_elem_of_fmap_2 fst _ (k, c)).
Qed.

Lemma walk_elements_head cs i p x :
  (p, x) ∈ walk_elements [] i cs -> exists j p', p = ArrIdx j :: p' /\ (i <= j)%N.
Proof.
  intros Hin. apply elem_of_walk_elements in Hin as (j & c & p' & _ & -> & _).
  exists (i + N.of_nat j)%N, p'. split; [done|lia].
Qed.

Lemma NoDup_cons_paths (s : Seg) (l : list (list Seg * ValueType)) :
  NoDup (map fst l) -> NoDup (map fst (map (fun px => ([s] ++ px.1, px.2)) l)).
Proof.
  intros Hnd. rewrite map_map. simpl.
  rewrite <- (map_map fst (cons s)).
  apply NoDup_fmap_2_strong; [|done]. by intros p q _ _ [= ->].
Qed.

Lemma walk_paths_NoDup (d : JVal) :
  JVal_wf d = true -> NoDup (map fst (walk [] d)).
Proof.
  induction d as [x|props IH|items IH] using JVal_induction; intros Hwf.
  - simpl. apply NoDup_singleton.
  - rewrite walk_obj. simpl in Hwf.
    apply andb_true_iff in Hwf as [Hnd Hwf]. apply andb_true_iff in Hnd as [Hnd _].
    apply bool_decide_eq_true in Hnd. rewrite forallb_forall in Hwf.
    induction IH as [|[k c] ps Hc _ IHps]; [constructor|].
    simpl in Hnd. apply NoDup_cons in Hnd as [Hk Hnd].
    simpl. rewrite map_app. apply NoDup_app. split; [|split].
    + rewrite walk_prefix. apply NoDup_cons_paths, Hc, Hwf. by left.
    + intros p Hp Hp'.
      apply list_elem_of_fmap in Hp as ([p1 x1] & -> & Hp).
      rewrite walk_prefix in Hp. apply list_elem_of_fmap in Hp as ([p2 x2] & [= -> ->] & _).
      apply list_elem_of_fmap in Hp' as ([p3 x3] & Heq & Hp').
      apply walk_members_head in Hp' as (k' & p' & -> & Hk').
      simpl in Heq. injection Heq as <- _. done.
    + apply IHps; [done|]. intros kc Hkc. apply Hwf. by right.
  - rewrite walk_arr. simpl in Hwf. apply andb_true_iff in Hwf as [_ Hwf].
    rewrite forallb_forall in Hwf. generalize 0%N.
    induction IH as [|c cs Hc _ IHcs]; intros i; [constructor|].
    simpl. rewrite map_app. apply NoDup_app. split; [|split].
    + rewrite walk_prefix. apply NoDup_cons_paths, Hc, Hwf. by left.
    + intros p Hp Hp'.
      apply list_elem_of_fmap in Hp as ([p1 x1] & -> & Hp).
      rewrite walk_prefix in Hp. apply list_elem_of_fmap in Hp as ([p2 x2] & [= -> ->] & _).
      apply list_elem_of_fmap in Hp' as ([p3 x3] & Heq & Hp').
      apply walk_elements_head in Hp' as (j & p' & -> & Hj).
      simpl in Heq. injection Heq as <- _. lia.
    + apply IHcs. intros c' Hc'. apply Hwf. by right.
Qed.

(** Plain paths are told apart by their flat keys. *)
Lemma quoted_inj (s s' : Seg) :
  plain_seg s -> plain_seg s' -> quoted s = quoted s' -> s = s'.
Proof.
  intros Hs Hs' Heq.
  pose proof (strip_quoted s Hs) as E. rewrite Heq, (strip_quoted s' Hs') in E.
  destruct s as [k|i], s' as [k'|i']; simpl in E.
  - by subst.
  - exfalso. cbn [quoted] in Heq.
    assert (Js.includes ("'" +:+ k +:+ "'") "'" = true) as Hq
      by (rewrite includes_char_app; reflexivity).
    rewrite Heq, dec_excludes in Hq; done.
  - exfalso. cbn [quoted] in Heq.
    assert (Js.includes ("'" +:+ k' +:+ "'") "'" = true) as Hq
      by (rewrite includes_char_app; reflexivity).
    rewrite <- Heq, dec_excludes in Hq; done.
  - simpl in Hs, Hs'. pose proof (array_index_dec i Hs) as Hi.
    rewrite <- E, (array_index_dec i' Hs') in Hi. by injection Hi as ->.
Qed.

Lemma map_quoted_inj (p q : list Seg) :
  Forall plain_seg p -> Forall plain_seg q -> map quoted p = map quoted q -> p = q.
Proof.
  intros Hp. revert q. induction Hp as [|s p Hs Hp IH]; intros [|s' q] Hq Heq; try done.
  apply Forall_cons in Hq as [Hs' Hq]. simpl in Heq. injection Heq as Hh Ht.
  f_equal; [by apply quoted_inj|by apply IH].
Qed.

Lemma path_key_inj (p q : list Seg) :
  p ≠ [] -> q ≠ [] -> Forall plain_seg p -> Forall plain_seg q ->
  path_key (getPath p) = path_key (getPath q) -> p = q.
Proof.
  intros Hp Hq Hpp Hpq Heq. apply map_quoted_inj; [done|done|].
  by rewrite <- !split_path_key, Heq.
Qed.

(** For an object with plain keys, the flat record lists the leaves in the
    order of the traversal, each under the dotted list of its quoted
    segments. *)
Lemma flattenObject_traversal (props : list (string * JVal)) :
  JVal_wf (JObj props) = true -> plain_keys (JObj props) = true ->
  flattenObject (JObj props)
  = map (fun px => (Js.join "." (map quoted px.1), px.2)) (walk [] (JObj props)).
Proof.
  intros Hwf Hplain. set (d := JObj props) in *.
  assert (forall p x, (p, x) ∈ walk [] d ->
            p ≠ [] /\ Forall plain_seg p /\ exists k p', p = ObjKey k :: p') as Hpaths.
  { intros p x Hin. split; [by apply (walk_container_path d p x)|].
    split; [by apply (walk_leaf_at d Hwf Hplain p x)|].
    unfold d in Hin. rewrite walk_obj in Hin.
    apply walk_members_head in Hin as (k & p' & -> & _). eauto. }
  unfold flattenObject. rewrite flatten_as_fold, fold_set_fresh.
  - simpl. apply map_ext_in. intros [p x] Hin. apply list_elem_of_In in Hin.
    destruct (Hpaths p x Hin) as (Hne & Hpl & _). simpl. f_equal.
    rewrite path_key_segments. f_equal. apply map_ext_in. intros s Hs.
    apply segment_plain. rewrite Forall_forall in Hpl. apply Hpl. by apply list_elem_of_In.
  - unfold Obj.keys. rewrite map_map. cbn [fst snd].
    rewrite <- (map_map fst (fun p => path_key (getPath p))).
    apply NoDup_fmap_2_strong; [|by apply walk_paths_NoDup].
    intros p q Hp Hq Heq.
    apply list_elem_of_fmap in Hp as ([p1 x1] & -> & Hp).
    apply list_elem_of_fmap in Hq as ([q1 y1] & -> & Hq).
    destruct (Hpaths _ _ Hp) as (? & ? & _). destruct (Hpaths _ _ Hq) as (? & ? & _).
    by apply path_key_inj.
  - intros k Hk. split; [apply not_elem_of_nil|].
    unfold Obj.keys in Hk. rewrite map_map in Hk.
    apply list_elem_of_fmap in Hk as ([p x] & -> & Hin). simpl.
    destruct (Hpaths p x Hin) as (_ & _ & k' & p' & ->).
    apply path_key_not_index.
Qed.

(** A flat key is never a name that objects inherit from their prototype:
    it is empty or starts with a quote or a digit.  Reading it from a
    record, or from the flag table, finds own properties only. *)
Lemma inherited_head (c : ascii) (t : string) :
  inherited (String c t) = true -> is_digit c = false /\ c ≠ "'"%char.
Proof.
  unfold inherited, prototype_names. cbn [existsb].
  rewrite !orb_true_iff.
  intros H. repeat destruct H as [H|H]; try discriminate;
    apply String.eqb_eq in H; injection H as -> _; split; (reflexivity || discriminate).
Qed.

Lemma dec_head (n : N) : exists c t, Js.dec n = String c t /\ is_digit c = true.
Proof.
  pose proof (dec_digits n) as Hd. pose proof (dec_truthy n) as Ht.
  destruct (Js.dec n) as [|c t]; [done|]. exists c, t. split; [done|].
  simpl in Hd. by apply andb_true_iff in Hd as [-> _].
Qed.

Lemma flat_key_not_inherited (d : JVal) (k : string) :
  k ∈ Obj.keys (flattenObject d) -> inherited k = false.
Proof.
  intros Hk. apply keys_get_Some in Hk as [x Hx].
  assert ((k, x) ∈ flattenObject d) as Hin.
  { clear -Hx. induction (flattenObject d) as [|[k' v'] o IH]; [done|].
    simpl in Hx. destruct (String.eqb_spec k' k) as [->|Hne].
    - injection Hx as ->. apply list_elem_of_here.
    - apply list_elem_of_further. by apply IH. }
  apply flattenObject_entries in Hin as (p & _ & ->).
  rewrite path_key_segments. destruct p as [|[k0|i] p]; [done| |].
  - simpl map. simpl segment. rewrite (app_cons_s "'"), app_nil_l_s.
    destruct (join_cons_head "'" (key_text k0 +:+ "'") (map segment p)) as [t ->].
    destruct (inherited (String "'" t)) eqn:E; [|done].
    by apply inherited_head in E as [_ E].
  - simpl map. simpl segment. destruct (dec_head i) as (c & t & -> & Hc).
    destruct (join_cons_head c t (map segment p)) as [t' ->].
    destruct (inherited (String c t')) eqn:E; [|done].
    apply inherited_head in E as [E _]. congruence.
Qed.

(** ** Reconcile *)

Lemma find_row_cons (r : TranslationRow) (R : list TranslationRow) k :
  find_row (r :: R) k = if decide (key r = k) then Some r else find_row R k.
Proof. unfold find_row. rewrite filter_cons. by destruct (decide (key r = k)). Qed.

Lemma find_row_Some (R : list TranslationRow) k r :
  find_row R k = Some r -> r ∈ R /\ key r = k.
Proof.
  unfold find_row. intros H. apply head_Some_elem_of in H.
  apply list_elem_of_filter in H. tauto.
Qed.

Lemma find_row_None (R : list TranslationRow) k :
  find_row R k = None -> forall r, r ∈ R -> key r ≠ k.
Proof.
  unfold find_row. rewrite head_None. intros H r Hr Hk.
  exact (filter_nil_not_elem_of _ _ r H Hk Hr).
Qed.

Lemma find_row_unique (R : list TranslationRow) r :
  NoDup (map key R) -> r ∈ R -> find_row R (key r) = Some r.
Proof.
  induction R as [|r0 R IH]; simpl; intros Hnd Hin.
  - by apply elem_of_nil in Hin.
  - rewrite find_row_cons. apply NoDup_cons in Hnd as [Hk Hnd].
    apply elem_of_cons in Hin as [->|Hin].
    + by rewrite decide_True.
    + rewrite decide_False; [by apply IH|].
      intros Heq. apply Hk. rewrite Heq. by apply list_elem_of_fmap_2.
Qed.

Lemma find_row_map (f : string -> TranslationRow) (ks : list string) k :
  (forall k', key (f k') = k') -> k ∈ ks -> find_row (map f ks) k = Some (f k).
Proof.
  intros Hf. induction ks as [|k0 ks IH]; simpl; intros Hin.
  - by apply elem_of_nil in Hin.
  - rewrite find_row_cons, Hf. destruct (decide (k0 = k)) as [->|Hne]; [done|].
    apply elem_of_cons in Hin as [->|Hin]; [done|by apply IH].
Qed.

Lemma key_reconcile_row R S T k : key (reconcile_row R S T k) = k.
Proof. reflexivity. Qed.

Lemma str_or_idem (o : option string) :
  str_or (Some (str_or o EmptyString)) EmptyString = str_or o EmptyString.
Proof. destruct o as [[|c s]|]; reflexivity. Qed.

Lemma str_or_Some (s : string) : str_or (Some s) EmptyString = s.
Proof. by destruct s. Qed.

(** The keys of the rebuilt table: the string-valued keys of the fetched
    source, in its key order. *)
Lemma Reconcile_keys R S T :
  map key (Reconcile R S T) =
  List.filter (fun k => is_string (Obj.get S k)) (Obj.keys S).
Proof.
  unfold Reconcile. rewrite map_map. simpl. apply map_id.
Qed.

Lemma elem_of_Reconcile R S T r :
  r ∈ Reconcile R S T <->
  r = reconcile_row R S T (key r) /\ is_string (Obj.get S (key r)) = true.
Proof.
  unfold Reconcile. rewrite list_elem_of_fmap. split.
  - intros (k & -> & Hk). simpl. apply list_elem_of_In, filter_In in Hk as [Hk Hs].
    by split.
  - intros [Hr Hs]. exists (key r). split; [done|].
    apply list_elem_of_In, filter_In. split; [|done].
    apply list_elem_of_In. destruct (Obj.get S (key r)) eqn:E; [|done].
    by apply get_Some_keys in E.
Qed.

Lemma Reconcile_keys_NoDup R S T :
  NoDup (Obj.keys S) -> NoDup (map key (Reconcile R S T)).
Proof.
  intros Hnd. rewrite Reconcile_keys. apply NoDup_ListNoDup, List.NoDup_filter.
  by apply NoDup_ListNoDup.
Qed.

(** C2: a row whose target was edited (the row the code finds for its key,
    which is every row when the keys of the table are distinct) keeps its
    target verbatim when the table is rebuilt from a source that still has
    the key as a string, whatever the fetched target holds; a row built for
    a key that has no prior row, or whose prior row has its target equal to
    its original target, takes the newly computed original target; and a
    key that the source lacks, or holds with a value that is no string, has
    no row in the rebuilt table. *)
Theorem Reconcile_preserves_edits (R : list TranslationRow) (S T : Rec ValueType) :
  (forall r s, find_row R (key r) = Some r ->
               targetValue r ≠ originalTargetValue r ->
               Obj.get S (key r) = Some (VStr s) ->
     (exists r', r' ∈ Reconcile R S T /\ key r' = key r)
     /\ forall r', r' ∈ Reconcile R S T -> key r' = key r ->
                   targetValue r' = targetValue r)
  /\ (NoDup (map key R) -> forall r, r ∈ R -> find_row R (key r) = Some r)
  /\ (forall r', r' ∈ Reconcile R S T ->
        match find_row R (key r') with
        | Some r => targetValue r = originalTargetValue r
        | None => True
        end ->
        targetValue r' = originalTargetValue r'
        /\ originalTargetValue r' = fetched_target S T (key r'))
  /\ (forall k, is_string (Obj.get S k) = false ->
        forall r', r' ∈ Reconcile R S T -> key r' ≠ k).
Proof.
  split; [|split; [|split]].
  4:{ intros k Hs r' Hr' Heq. apply elem_of_Reconcile in Hr' as [_ Hr'].
      rewrite Heq in Hr'. congruence. }
  - intros r s Hr Hdiv Hs. split.
    + exists (reconcile_row R S T (key r)). split; [|done].
      apply elem_of_Reconcile. simpl. by rewrite Hs.
    + intros r' Hr' Hk. apply elem_of_Reconcile in Hr' as [Heq _].
      rewrite Heq. simpl. rewrite Hk, Hr. simpl.
      rewrite bool_decide_eq_false_2 by congruence.
      apply str_or_Some.
  - intros Hnd r Hr. by apply find_row_unique.
  - intros r' Hr' Hsame. apply elem_of_Reconcile in Hr' as [Heq _].
    rewrite Heq. simpl. split; [|done].
    destruct (find_row R (key r')) as [r|]; simpl; [|done].
    rewrite bool_decide_eq_true_2; [done|]. by f_equal.
Qed.

Lemma Reconcile_preserves_edits_witness :
  exists r', r' ∈ Reconcile [edited_row] flat_hello flat_bonjour
             /\ key r' = key edited_row
             /\ targetValue r' = "Salut".
Proof.
  assert (find_row [edited_row] (key edited_row) = Some edited_row) as Hrow
    by reflexivity.
  assert (targetValue edited_row ≠ originalTargetValue edited_row) as Hdiv
    by discriminate.
  destruct (proj1 (Reconcile_preserves_edits [edited_row] flat_hello flat_bonjour)
              edited_row "Hello" Hrow Hdiv eq_refl) as [[r' [Hr' Hk]] Hsame].
  exists r'. split; [done|]. split; [done|]. by apply Hsame.
Defined.

(** The claim of C2 fails on the code for a source that still has the key
    of the edited row, with a value that is not a string: no row is built
    for the key, and the edit is lost. *)
Lemma number_in_source_drops_edit :
  find_row [edited_row] (key edited_row) = Some edited_row
  /\ targetValue edited_row = "Salut"
  /\ originalTargetValue edited_row = "Bonjour"
  /\ flattenObject count_doc = [("'a'.'b'", VNum 5)]
  /\ key edited_row ∈ Obj.keys (flattenObject count_doc)
  /\ Reconcile [edited_row] (flattenObject count_doc) flat_bonjour = [].
Proof.
  repeat split; try (vm_compute; reflexivity).
  vm_compute. apply list_elem_of_here.
Qed.

(** C9: rebuilding the rebuilt table from the same flat records gives the
    same table, row for row and field for field. *)
Theorem Reconcile_idempotent (R : list TranslationRow) (S T : Rec ValueType) :
  Reconcile (Reconcile R S T) S T = Reconcile R S T.
Proof.
  unfold Reconcile at 1 3. apply map_ext_in. intros k Hk.
  apply list_elem_of_In in Hk.
  unfold reconcile_row at 1.
  assert (find_row (Reconcile R S T) k = Some (reconcile_row R S T k)) as ->.
  { unfold Reconcile. by apply find_row_map. }
  set (row' := reconcile_row R S T k).
  transitivity (mkRow k (prop_toString (Obj.get S k)) (targetValue row')
                  (fetched_target S T k) None (aiSuggestion row')); [|reflexivity].
  cbn [fmap option_fmap option_map].
  change (originalTargetValue row') with (fetched_target S T k).
  f_equal.
  - case_bool_decide as Hb; [congruence|apply str_or_Some].
  - unfold row', reconcile_row. cbn [aiSuggestion]. f_equal.
    destruct (find_row R k); [apply str_or_idem|done].
Qed.








(** ** The search filter *)

(** A clause that carries [#aifetching] is also seen as carrying [#ai]: the
    tags are looked up as substrings of the clause. *)
Lemma aifetching_is_read_as_ai (E : RegExpEngine) (rowAiLoading : gmap string bool)
    (r : TranslationRow) (searchTerm : string) :
  Js.includes searchTerm "#aifetching" = true ->
  clause_matches E rowAiLoading r searchTerm = Done true ->
  Js.truthy_string (str_or (aiSuggestion r) EmptyString) = true.
Proof.
  intros Htag Hm.
  assert (Js.includes searchTerm "#ai" = true) as Hai
    by (apply (includes_app searchTerm "#ai" "fetching"), Htag).
  unfold clause_matches, oand in Hm.
  destruct (text_predicate E r searchTerm) as [[]| |]; simpl in Hm; try done.
  injection Hm as Hm. unfold tag_predicates in Hm.
  rewrite Hai in Hm. simpl in Hm.
  rewrite !andb_true_iff in Hm. by destruct Hm as [[[[[_ Hm] _] _] _] _].
Qed.

(** C8: the query [#aifetching] leaves out a row that is in flight and has
    no suggestion yet, because the predicate of [#ai] is applied to it. *)
Theorem aifetching_excludes_awaiting_row (E : RegExpEngine) :
  in_flight awaiting (key greeting_row)
  /\ text_predicate E greeting_row "#aifetching" = Done true
  /\ filteredRows E [greeting_row] "#aifetching" awaiting = Done [].
Proof. split; [reflexivity|]. split; vm_compute; reflexivity. Qed.

Lemma regex_test_invalid E p s :
  RegExp_new E p = None -> regex_test E p s = Throw SyntaxError.
Proof. unfold regex_test. by intros ->. Qed.

Lemma clause_invalid_regex E rowAiLoading r t :
  Js.includes t "#reg" = true ->
  RegExp_new E (queryWithoutTag t) = None ->
  clause_matches E rowAiLoading r t = Throw SyntaxError.
Proof.
  intros Htag Hbad. unfold clause_matches, text_predicate.
  rewrite Htag. simpl. by rewrite regex_test_invalid.
Qed.

Lemma some_clause_app_false E rowAiLoading r before rest :
  Forall (fun c => clause_matches E rowAiLoading r c = Done false) before ->
  some_clause E rowAiLoading r (before ++ rest) = some_clause E rowAiLoading r rest.
Proof.
  induction 1 as [|c before Hc _ IH]; simpl; [done|]. by rewrite Hc.
Qed.

Lemma filter_rows_app_throw cb rows1 r rows2 e :
  Forall (fun r1 => exists b, cb r1 = Done b) rows1 ->
  cb r = Throw e ->
  filter_rows cb (rows1 ++ r :: rows2) = Throw e.
Proof.
  intros Hok Hr. induction Hok as [|r1 rows1 [b Hb] _ IH]; simpl.
  - by rewrite Hr.
  - rewrite Hb. simpl. by rewrite IH.
Qed.

(** C3, as the code has it: a clause with [#reg] and a pattern the engine
    refuses throws a [SyntaxError] on every row; nothing absorbs it, so the
    query throws on a row that no earlier clause matched (the later clauses
    are not evaluated), and the filter throws at the first such row. *)
Theorem invalid_regex_propagates (E : RegExpEngine) (rowAiLoading : gmap string bool)
    (searchTerms : string) (rows1 rows2 : list TranslationRow) (r : TranslationRow)
    (before after : list string) (t : string) :
  Js.split (Js.toLowerCase searchTerms) "||" = before ++ t :: after ->
  Js.includes t "#reg" = true ->
  RegExp_new E (queryWithoutTag t) = None ->
  Forall (fun c => clause_matches E rowAiLoading r c = Done false) before ->
  Forall (fun r1 => exists b, row_matches E rowAiLoading searchTerms r1 = Done b) rows1 ->
  clause_matches E rowAiLoading r t = Throw SyntaxError
  /\ row_matches E rowAiLoading searchTerms r = Throw SyntaxError
  /\ filteredRows E (rows1 ++ r :: rows2) searchTerms rowAiLoading = Throw SyntaxError.
Proof.
  intros Hsplit Htag Hbad Hbefore Hrows.
  assert (clause_matches E rowAiLoading r t = Throw SyntaxError) as Hc
    by (by apply clause_invalid_regex).
  assert (row_matches E rowAiLoading searchTerms r = Throw SyntaxError) as Hr.
  { unfold row_matches. rewrite Hsplit, some_clause_app_false by done.
    simpl. by rewrite Hc. }
  split; [done|]. split; [done|].
  unfold filteredRows. by apply filter_rows_app_throw.
Qed.

Lemma invalid_regex_propagates_witness :
  filteredRows paren_engine ([] ++ greeting_row :: []) "(#reg||hello" ∅
    = Throw SyntaxError.
Proof.
  refine (proj2 (proj2 (invalid_regex_propagates paren_engine ∅ "(#reg||hello"
                          [] [] greeting_row [] ["hello"] "(#reg" _ _ _ _ _))).
  - reflexivity.
  - reflexivity.
  - reflexivity.
  - constructor.
  - constructor.
Defined.

(** The claim of C3 fails on the code: the clause [hello] alone keeps the
    row, yet with the invalid [#reg] clause in front the filter throws. *)
Lemma invalid_regex_not_absorbed :
  filteredRows paren_engine [greeting_row] "hello" ∅ = Done [greeting_row]
  /\ filteredRows paren_engine [greeting_row] "(#reg||hello" ∅ = Throw SyntaxError.
Proof. split; vm_compute; reflexivity. Qed.

(** When every [#reg] clause of the query compiles, the filter completes. *)
Lemma valid_patterns_complete E rowAiLoading searchTerms rows :
  Forall (fun t => Js.includes t "#reg" = true ->
                   is_Some (RegExp_new E (queryWithoutTag t)))
         (Js.split (Js.toLowerCase searchTerms) "||") ->
  exists kept, filteredRows E rows searchTerms rowAiLoading = Done kept.
Proof.
  intros Hok. unfold filteredRows.
  assert (forall r, exists b, row_matches E rowAiLoading searchTerms r = Done b) as Hrow.
  { intros r. unfold row_matches.
    induction Hok as [|t ts Ht _ IH]; simpl; [by eexists|].
    assert (exists b, clause_matches E rowAiLoading r t = Done b) as [b ->].
    { unfold clause_matches, text_predicate, regex_test.
      destruct (Js.includes t "#reg") eqn:Hreg; simpl.
      - destruct Ht as [re ->]; [done|]. simpl.
        repeat (match goal with
                | |- context [if ?c then _ else _] => destruct c; simpl
                end); by eexists.
      - match goal with
        | |- context [if ?c then _ else _] => destruct c; simpl
        end; by eexists. }
    simpl. destruct b; [by eexists|done]. }
  induction rows as [|r rows [kept IH]]; simpl; [by eexists|].
  destruct (Hrow r) as [b ->]. simpl. rewrite IH. simpl. by eexists.
Qed.

(** ** The bulk suggestion run *)

Lemma chunks_from_concat (fuel chunkSize : nat) (l : list TranslationRow) :
  0 < chunkSize -> length l <= fuel -> concat (chunks_from fuel chunkSize l) = l.
Proof.
  intros Hpos. revert l. induction fuel as [|fuel IH]; intros l Hlen.
  - destruct l; [done|simpl in Hlen; lia].
  - destruct l as [|r l]; [done|].
    change (chunks_from (S fuel) chunkSize (r :: l))
      with (take chunkSize (r :: l) :: chunks_from fuel chunkSize (drop chunkSize (r :: l))).
    simpl concat. rewrite IH; [apply take_drop|].
    rewrite length_drop. simpl in *. lia.
Qed.

(** The loop reaches every candidate: the chunks, put end to end, are the
    candidate list. *)
Lemma chunks_concat (chunkSize : nat) (l : list TranslationRow) :
  0 < chunkSize -> concat (chunks chunkSize l) = l.
Proof. intros Hpos. by apply chunks_from_concat. Qed.

Lemma set_flags_app b rs1 rs2 m :
  set_flags b (rs1 ++ rs2) m = set_flags b rs2 (set_flags b rs1 m).
Proof. apply fold_left_app. Qed.

Lemma lookup_set_flags b (rs : list TranslationRow) (m : gmap string bool) k :
  set_flags b rs m !! k = if decide (k ∈ map key rs) then Some b else m !! k.
Proof.
  revert m. induction rs as [|r rs IH]; intros m.
  - destruct (decide (k ∈ map key [])) as [Hin|_]; [|done].
    by apply elem_of_nil in Hin.
  - change (set_flags b (r :: rs) m) with (set_flags b rs (<[key r := b]> m)).
    rewrite IH. change (map key (r :: rs)) with (key r :: map key rs).
    destruct (decide (k ∈ map key rs)) as [Hin|Hnin].
    + rewrite decide_True; [done|by apply list_elem_of_further].
    + destruct (decide (key r = k)) as [<-|Hne].
      * rewrite lookup_insert_eq. rewrite decide_True; [done|apply list_elem_of_here].
      * rewrite lookup_insert_ne by done.
        rewrite decide_False; [done|].
        intros Hin. apply elem_of_cons in Hin as [Heq|Hin]; [by apply Hne|done].
Qed.

Lemma write_suggestions_nil rows : write_suggestions rows [] = rows.
Proof. reflexivity. Qed.

(** The service settles every request, and with the object of [answer]
    unless the text parsed to [null]. *)
Lemma service_answer (provider : Provider) n texts :
  provider n texts <> GenText (Some ParsedNull) ->
  getTranslationSuggestions (provider n) texts
  = Fulfilled (ParsedObject (answer (provider n texts))).
Proof.
  unfold getTranslationSuggestions, answer.
  by destruct (provider n texts) as [|[[|s]|]].
Qed.

(** When no answer is [null], the loop goes through all the chunks. *)
Lemma suggest_loop_service (provider : Provider) todo st :
  never_null provider ->
  suggest_loop (fun n texts => getTranslationSuggestions (provider n) texts) todo st
  = (mkLoop (fold_left write_suggestions
               (answers provider (length (calls st)) todo) (newRows st))
            (set_flags false (concat todo) (newRowLoading st))
            (calls st ++ map sourceTexts todo),
     None).
Proof.
  intros Hnn. revert st. induction todo as [|chunk todo IH]; intros [rows flags sent]; simpl.
  - by rewrite app_nil_r.
  - rewrite service_answer by apply Hnn.
    rewrite IH. simpl. rewrite length_app, set_flags_app, <- app_assoc. simpl.
    by replace (length sent + 1) with (S (length sent)) by lia.
Qed.

Section SuggestAll.
Variables (provider : Provider) (rows filtered : list TranslationRow).
Variables (geminiApiKey : string) (suggestionChunkSize : nat).
Variables (replaceExistAISuggestions : bool) (rowAiLoading : gmap string bool).

Let chunkSize := match suggestionChunkSize with O => 10 | n => n end.
Let updatedRows := candidates filtered replaceExistAISuggestions rowAiLoading.
Let todo := chunks chunkSize updatedRows.
Let run := handleSuggestAll provider rows filtered geminiApiKey suggestionChunkSize
             replaceExistAISuggestions rowAiLoading.

Lemma chunkSize_pos : 0 < chunkSize.
Proof. unfold chunkSize. destruct suggestionChunkSize; lia. Qed.

(** The run, once the two guards are passed, when no answer is [null]. *)
Lemma handleSuggestAll_run :
  never_null provider ->
  rows ≠ [] -> Js.truthy_string geminiApiKey = true ->
  run = mkRun (fold_left write_suggestions (answers provider 0 todo) rows)
              (set_flags false updatedRows (set_flags true updatedRows rowAiLoading)
                 ∪ rowAiLoading)
              (map sourceTexts todo)
              false.
Proof.
  intros Hnn Hrows Hkey. unfold run, handleSuggestAll, handleSuggestAll_on.
  destruct rows as [|r0 rows0]; [done|]. rewrite Hkey. simpl negb. cbv iota.
  rewrite suggest_loop_service by done.
  cbn [newRows newRowLoading calls length app].
  fold chunkSize. fold updatedRows. fold todo. unfold todo at 2.
  by rewrite (chunks_concat _ _ chunkSize_pos).
Qed.

Lemma handleSuggestAll_guarded :
  rows = [] \/ Js.truthy_string geminiApiKey = false ->
  rowAiLoading_after run = rowAiLoading /\ rows_after run = rows /\ requests run = [].
Proof.
  unfold run, handleSuggestAll, handleSuggestAll_on.
  intros [->|Hkey]; [done|]. rewrite Hkey. by destruct rows.
Qed.

Lemma candidate_not_loading r :
  r ∈ updatedRows -> loading_flag rowAiLoading (key r) = false.
Proof.
  unfold updatedRows, candidates. intros Hin.
  apply list_elem_of_In, filter_In in Hin as [_ Hc].
  apply andb_true_iff in Hc as [_ Hc]. by apply negb_true_iff in Hc.
Qed.

Lemma flags_after_run k :
  never_null provider ->
  rows ≠ [] -> Js.truthy_string geminiApiKey = true ->
  rowAiLoading_after run !! k
  = if decide (k ∈ map key updatedRows) then Some false else rowAiLoading !! k.
Proof.
  intros Hnn Hrows Hkey. rewrite handleSuggestAll_run by done. simpl.
  rewrite lookup_union, !lookup_set_flags.
  destruct (decide (k ∈ map key updatedRows)).
  - by destruct (rowAiLoading !! k).
  - by destruct (rowAiLoading !! k).
Qed.

(** On the path without exception the flags are lowered: when no answer is
    [null], whether the requests succeed, fail or answer in part, no
    candidate row is marked in flight after the run, and whatever is still
    marked was marked before the run by another request. *)
Lemma flags_lowered_without_exception :
  never_null provider ->
  (forall r, r ∈ updatedRows -> ~ in_flight (rowAiLoading_after run) (key r))
  /\ (forall k, in_flight (rowAiLoading_after run) k ->
                in_flight rowAiLoading k /\ k ∉ map key updatedRows)
  /\ (rows ≠ [] -> Js.truthy_string geminiApiKey = true -> alerted run = false).
Proof.
  intros Hnn.
  assert (forall k, in_flight rowAiLoading k -> k ∉ map key updatedRows) as Hbefore.
  { intros k Hk Hin. apply list_elem_of_fmap in Hin as (r & -> & Hr).
    apply candidate_not_loading in Hr. unfold loading_flag in Hr.
    unfold in_flight in Hk. by rewrite Hk in Hr. }
  destruct (decide (rows ≠ [] /\ Js.truthy_string geminiApiKey = true))
    as [[Hrows Hkey]|Hguard].
  - split; [|split].
    + intros r Hr. unfold in_flight. rewrite flags_after_run by done.
      rewrite decide_True; [done|by apply list_elem_of_fmap_2].
    + intros k. unfold in_flight. rewrite flags_after_run by done.
      destruct (decide (k ∈ map key updatedRows)); [done|].
      intros Hk. by split.
    + intros _ _. by rewrite handleSuggestAll_run.
  - assert (rows = [] \/ Js.truthy_string geminiApiKey = false) as Hg.
    { destruct rows; [by left|]. destruct (Js.truthy_string geminiApiKey); [|by right].
      exfalso. by apply Hguard. }
    destruct (handleSuggestAll_guarded Hg) as (Hflags & _ & _).
    rewrite Hflags. split; [|split].
    + intros r Hr Hk. apply (Hbefore _ Hk). by apply list_elem_of_fmap_2.
    + intros k Hk. split; [done|by apply Hbefore].
    + intros Hrows Hkey. exfalso. by apply Hguard.
Qed.

(** On the path with an exception they are not: when the run ends in the
    [catch] block, every candidate row is still marked in flight. *)
Lemma flags_left_by_exception r :
  rows ≠ [] -> Js.truthy_string geminiApiKey = true ->
  alerted run = true -> r ∈ updatedRows ->
  in_flight (rowAiLoading_after run) (key r).
Proof.
  intros Hrows Hkey. unfold run, handleSuggestAll, handleSuggestAll_on.
  destruct rows as [|r0 rows0]; [done|]. rewrite Hkey. simpl negb. cbv iota.
  fold chunkSize. fold updatedRows.
  destruct (suggest_loop _ _ _) as [st [e|]]; simpl; [|done].
  intros _ Hr. unfold in_flight. rewrite lookup_union, lookup_set_flags.
  rewrite decide_True by (by apply list_elem_of_fmap_2).
  by destruct (rowAiLoading !! key r).
Qed.

(** C4, as the code has it: a request that fails is answered by the
    service with the empty object.  As long as no answer is [null], every
    chunk is requested, in order; the rows receive the suggestions of all
    the requests that succeeded and nothing from the others; the run ends
    without an error. *)
Theorem SuggestAll_absorbs_failures :
  never_null provider ->
  rows ≠ [] -> Js.truthy_string geminiApiKey = true ->
  requests run = map sourceTexts todo
  /\ concat todo = updatedRows
  /\ rows_after run = fold_left write_suggestions (answers provider 0 todo) rows
  /\ alerted run = false.
Proof.
  intros Hnn Hrows Hkey. rewrite handleSuggestAll_run by done. simpl.
  split; [done|]. split; [|done]. apply chunks_concat, chunkSize_pos.
Qed.

End SuggestAll.

(** A failed request contributes nothing and does not stop the loop. *)
Lemma answers_failed_request provider n chunk todo :
  provider n (sourceTexts chunk) = GenRejects ->
  answers provider n (chunk :: todo) = [] :: answers provider (S n) todo.
Proof. simpl. by intros ->. Qed.

Lemma SuggestAll_absorbs_failures_witness :
  requests (handleSuggestAll failing_first [hello_row; bye_row] [hello_row; bye_row]
              "key" 1 false ∅)
  = [[("'hello'", "Hello")]; [("'bye'", "Bye")]].
Proof.
  refine (eq_trans (proj1 (SuggestAll_absorbs_failures failing_first
            [hello_row; bye_row] [hello_row; bye_row] "key" 1 false ∅ _ _ _)) _).
  - intros [|n] texts; discriminate.
  - discriminate.
  - reflexivity.
  - vm_compute. reflexivity.
Defined.

(** The claim of C4 fails on the code: the first request fails, the second
    chunk is requested all the same and its suggestion is written, and no
    error is reported. *)
Lemma failed_chunk_does_not_abort :
  let run := handleSuggestAll failing_first [hello_row; bye_row] [hello_row; bye_row]
               "key" 1 false ∅ in
  failing_first 0 [("'hello'", "Hello")] = GenRejects
  /\ length (requests run) = 2
  /\ aiSuggestion <$> rows_after run = [Some EmptyString; Some "Au revoir"]
  /\ alerted run = false.
Proof. vm_compute. repeat split; reflexivity. Qed.

(** C5: the second of two requests is answered with the text of [null];
    [Object.keys] throws, the run ends in its [catch] block, and both rows,
    the one of the first chunk included, are left marked in flight. *)
Theorem null_answer_leaves_rows_in_flight :
  let run := handleSuggestAll null_second [hello_row; bye_row] [hello_row; bye_row]
               "key" 1 false ∅ in
  length (requests run) = 2
  /\ alerted run = true
  /\ aiSuggestion <$> rows_after run = [Some "Bonjour"; Some EmptyString]
  /\ in_flight (rowAiLoading_after run) (key hello_row)
  /\ in_flight (rowAiLoading_after run) (key bye_row).
Proof. vm_compute. repeat split; reflexivity. Qed.

(** Five candidates in chunks of two: three requests of two, two and one
    items; the key the provider leaves out keeps an empty suggestion and is
    not in flight afterwards. *)
Example five_rows_in_chunks_of_two :
  let run := handleSuggestAll skips_e five_rows five_rows "key" 2 false ∅ in
  length <$> requests run = [2; 2; 1]
  /\ aiSuggestion <$> rows_after run
     = [Some "fr text 'a'"; Some "fr text 'b'"; Some "fr text 'c'";
        Some "fr text 'd'"; Some EmptyString]
  /\ rowAiLoading_after run !! "'e'" = Some false
  /\ alerted run = false.
Proof. vm_compute. repeat split; reflexivity. Qed.

(** ** Pushing *)

Lemma modifiedCount_mark_pushed (rows : list TranslationRow) :
  modifiedCount (map mark_pushed rows) = 0.
Proof.
  unfold modifiedCount. induction rows as [|r rows IH]; simpl; [done|].
  rewrite filter_cons. by rewrite decide_False by (simpl; congruence).
Qed.

Lemma mark_pushed_fields (rows : list TranslationRow) i r :
  rows !! i = Some r ->
  exists r', map mark_pushed rows !! i = Some r'
    /\ originalTargetValue r' = targetValue r
    /\ targetValue r' = targetValue r
    /\ sourceValue r' = sourceValue r
    /\ aiSuggestion r' = aiSuggestion r
    /\ key r' = key r.
Proof.
  intros Hi. exists (mark_pushed r). split; [|done].
  by rewrite list_lookup_fmap, Hi.
Qed.

(** A fetch of a document with a number between two strings gives rows
    whose document has a hole: the keys of [open_close_rows]. *)
Example fetch_leaves_a_gap :
  map key (Reconcile [] (flattenObject items_doc) (flattenObject items_doc))
  = map key open_close_rows.
Proof. reflexivity. Qed.

(** The table a push leaves behind, by the way it ended. *)
Lemma push_outcomes githubToken commitMessage pushFile beyond rows :
  let pushed := handlePushToGitHub githubToken commitMessage pushFile beyond rows in
  pushed.2 = match pushed.1 with PushSucceeded => map mark_pushed rows | _ => rows end.
Proof.
  unfold handlePushToGitHub.
  destruct (negb (Js.truthy_string githubToken)); [done|].
  destruct commitMessage as [message|]; [|done].
  destruct (negb (Js.truthy_string message)); [done|].
  destruct (unflattenObject _ _) as [doc|e|]; [|done|by destruct beyond].
  by destruct (pushFile doc message).
Qed.

(** C10: with a token and a commit message the handler ends as a push that
    succeeded or as a push that failed, whatever the rows are.  A push that
    succeeded has set the original target of every row to its current
    target and kept the other fields, so that no row counts as modified; a
    push that failed leaves the table as it was.  A document that cannot be
    built is a failed push, [pushFile] decides for a document that is
    built, and the rows are treated alike on the documents that the model
    of [unflattenObject] does not follow. *)
Theorem push_syncs_originals (githubToken message : string)
    (pushFile : JVal -> string -> bool) (beyond : bool)
    (rows : list TranslationRow) :
  Js.truthy_string githubToken = true ->
  Js.truthy_string message = true ->
  let pushed := handlePushToGitHub githubToken (Some message) pushFile beyond rows in
  let document := unflattenObject (flatData rows) (JObj []) in
  let synced := (PushSucceeded, map mark_pushed rows) in
  let failed := (PushFailed, rows) in
  (pushed = synced \/ pushed = failed)
  /\ (pushed.1 = PushSucceeded ->
        length pushed.2 = length rows
        /\ (forall i r, rows !! i = Some r ->
              exists r', pushed.2 !! i = Some r'
                /\ originalTargetValue r' = targetValue r
                /\ targetValue r' = targetValue r
                /\ sourceValue r' = sourceValue r
                /\ aiSuggestion r' = aiSuggestion r
                /\ key r' = key r)
        /\ modifiedCount pushed.2 = 0)
  /\ (pushed.1 = PushFailed -> pushed.2 = rows)
  /\ (forall e, document = Throw e -> pushed = failed)
  /\ (forall doc, document = Done doc ->
        pushed = if pushFile doc message then synced else failed)
  /\ (document = Unsupported -> pushed = if beyond then synced else failed).
Proof.
  intros Htok Hmsg pushed document synced failed.
  pose proof (push_outcomes githubToken (Some message) pushFile beyond rows) as Hrows.
  fold pushed in Hrows. cbv zeta in Hrows.
  assert (forall e, document = Throw e -> pushed = failed) as Hthrow.
  { intros e He. unfold pushed, handlePushToGitHub. fold document.
    by rewrite Htok, Hmsg, He. }
  assert (forall doc, document = Done doc ->
            pushed = if pushFile doc message then synced else failed) as Hdone.
  { intros doc Hd. unfold pushed, handlePushToGitHub. fold document.
    by rewrite Htok, Hmsg, Hd. }
  assert (document = Unsupported -> pushed = if beyond then synced else failed)
    as Hbeyond.
  { intros Hu. unfold pushed, handlePushToGitHub. fold document.
    by rewrite Htok, Hmsg, Hu. }
  split; [|split; [|split; [|done]]].
  - destruct document as [doc|e|] eqn:E.
    + rewrite (Hdone doc eq_refl). destruct (pushFile doc message); auto.
    + right. by apply (Hthrow e).
    + rewrite (Hbeyond eq_refl). destruct beyond; auto.
  - intros Hs. rewrite Hrows, Hs.
    split; [by rewrite length_map|].
    split; [apply mark_pushed_fields|apply modifiedCount_mark_pushed].
  - intros Hf. by rewrite Hrows, Hf.
Qed.

Lemma push_syncs_originals_witness :
  unflattenObject (flatData open_close_rows) (JObj []) = Unsupported
  /\ handlePushToGitHub "token" (Some "Update") (fun _ _ => false) true open_close_rows
     = (PushSucceeded,
        [mkRow "'items'.0" "Open" "Ouvrir" "Ouvrir" None (Some EmptyString);
         mkRow "'items'.2" "Close" "Close" "Close" None (Some EmptyString)])
  /\ unflattenObject (flatData gap_rows) (JObj []) = Throw TypeError
  /\ handlePushToGitHub "token" (Some "Update") (fun _ _ => true) true gap_rows
     = (PushFailed, gap_rows).
Proof.
  destruct (push_syncs_originals "token" "Update" (fun _ _ => false) true
              open_close_rows eq_refl eq_refl) as (_ & _ & _ & _ & _ & Hbeyond).
  destruct (push_syncs_originals "token" "Update" (fun _ _ => true) true
              gap_rows eq_refl eq_refl) as (_ & _ & _ & Hthrow & _ & _).
  split; [reflexivity|]. split; [exact (Hbeyond eq_refl)|].
  split; [reflexivity|]. exact (Hthrow TypeError eq_refl).
Defined.

(** ** The codec without a base *)

Lemma bind_Done {A B} (a : A) (f : A -> Outcome B) : Done a ≫= f = f a.
Proof. reflexivity. Qed.

Lemma js_put_container acc k c acc' :
  js_put acc k c = Done acc' -> is_container acc' = true.
Proof.
  destruct acc as [x|props|items]; simpl; [done| |].
  - destruct (Obj.has props k); [by intros [= <-]|].
    destruct (inherited k); [done|by intros [= <-]].
  - destruct (Js.array_index k) as [i|]; [|done].
    destruct (i <? _)%N; [by intros [= <-]|].
    destruct (i =? _)%N; [by intros [= <-]|done].
Qed.

Lemma get_update_eq {V} (o : Rec V) k v :
  Obj.has o k = true -> Obj.get (Obj.update o k v) k = Some v.
Proof.
  unfold Obj.has. induction o as [|[k' v'] o IH]; simpl; [done|].
  destruct (String.eqb k' k) eqn:E; simpl; rewrite E; [done|]. apply IH.
Qed.

Lemma get_app_fresh {V} (o : Rec V) k v :
  Obj.get o k = None -> Obj.get (o ++ [(k, v)]) k = Some v.
Proof.
  induction o as [|[k' v'] o IH]; simpl.
  - by rewrite String.eqb_refl.
  - destruct (String.eqb k' k); [done|apply IH].
Qed.

Lemma get_insert_index {V} (o : Rec V) n k v :
  Obj.get o k = None -> Obj.get (Obj.insert_index o n k v) k = Some v.
Proof.
  induction o as [|[k' v'] o IH]; simpl.
  - by rewrite String.eqb_refl.
  - destruct (String.eqb k' k) eqn:E; [done|]. intros Hget.
    destruct (Js.array_index k') as [m|].
    + destruct (m <? n)%N; simpl; [rewrite E; by apply IH|by rewrite String.eqb_refl].
    + simpl. by rewrite String.eqb_refl.
Qed.

Lemma get_set_eq {V} (o : Rec V) k v : Obj.get (Obj.set o k v) k = Some v.
Proof.
  unfold Obj.set. destruct (Obj.has o k) eqn:E; [by apply get_update_eq|].
  unfold Obj.has in E. destruct (Obj.get o k) eqn:G; [done|].
  destruct (Js.array_index k); [by apply get_insert_index|by apply get_app_fresh].
Qed.

Lemma js_get_put acc k c acc' :
  js_put acc k c = Done acc' -> js_get acc' k = Done (Some c).
Proof.
  destruct acc as [x|props|items]; simpl; [done| |].
  - destruct (Obj.has props k) eqn:E.
    + intros [= <-]. simpl. by rewrite get_update_eq.
    + destruct (inherited k); [done|]. intros [= <-]. simpl. by rewrite get_set_eq.
  - destruct (Js.array_index k) as [i|] eqn:Ei; [|done].
    destruct (i <? _)%N eqn:Hlt.
    + intros [= <-]. simpl. rewrite Ei. f_equal. apply list_lookup_insert_eq.
      apply N.ltb_lt in Hlt. lia.
    + destruct (i =? _)%N eqn:Heq; [|done]. intros [= <-]. simpl. rewrite Ei. f_equal.
      apply N.eqb_eq in Heq. rewrite Heq, Nat2N.id. by apply list_lookup_middle.
Qed.

Lemma descend_Done acc k fresh rest acc' :
  descend acc k fresh rest = Done acc' ->
  exists c c', rest c = Done c' /\ js_get acc' k = Done (Some c').
Proof.
  unfold descend. destruct (js_get acc k) as [[child|]| |]; simpl; try done.
  - destruct (truthy child).
    + destruct (rest child) as [child'| |] eqn:E; simpl; try done.
      intros H. exists child, child'. split; [done|]. by eapply js_get_put.
    + destruct (js_put acc k fresh) as [acc1| |]; simpl; try done.
      destruct (rest fresh) as [fresh'| |] eqn:E; simpl; try done.
      intros H. exists fresh, fresh'. split; [done|]. by eapply js_get_put.
  - destruct (js_put acc k fresh) as [acc1| |]; simpl; try done.
    destruct (rest fresh) as [fresh'| |] eqn:E; simpl; try done.
    intros H. exists fresh, fresh'. split; [done|]. by eapply js_get_put.
Qed.

Lemma reduce_keys_last acc k0 val :
  reduce_keys acc [k0] val = js_put acc (strip k0) (JLeaf val).
Proof. reflexivity. Qed.

Lemma reduce_keys_cons acc k0 next rest val :
  reduce_keys acc (k0 :: next :: rest) val
  = if Js.includes next "'"
    then descend acc (strip k0) (JObj []) (fun c => reduce_keys c (next :: rest) val)
    else if Js.truthy_string next
    then descend acc (strip k0) (JArr []) (fun c => reduce_keys c (next :: rest) val)
    else acc' ← js_put acc (strip k0) (JLeaf val);
         _ ← reduce_keys (JLeaf val) (next :: rest) val; Done acc'.
Proof. reflexivity. Qed.

Lemma descend_scalar x k fresh rest d : descend (JLeaf x) k fresh rest ≠ Done d.
Proof. unfold descend, js_get. by destruct k. Qed.

Lemma reduce_keys_scalar x ks val d :
  ks ≠ [] -> reduce_keys (JLeaf x) ks val ≠ Done d.
Proof.
  destruct ks as [|k0 [|next rest]]; [done|done|]. intros _.
  rewrite reduce_keys_cons.
  destruct (Js.includes next "'"); [apply descend_scalar|].
  destruct (Js.truthy_string next); [apply descend_scalar|done].
Qed.

Lemma reduce_keys_empty_segment acc k0 rest val d :
  EmptyString ∈ rest -> reduce_keys acc (k0 :: rest) val ≠ Done d.
Proof.
  revert acc k0 d. induction rest as [|next rest IH]; intros acc k0 d Hin.
  - by apply elem_of_nil in Hin.
  - rewrite reduce_keys_cons.
    destruct (decide (next = EmptyString)) as [->|Hne].
    + change (Js.includes EmptyString "'") with false.
      change (Js.truthy_string EmptyString) with false. cbv iota.
      destruct (js_put acc _ _) as [acc1| |]; [|by simpl|by simpl].
      destruct (reduce_keys (JLeaf val) (EmptyString :: rest) val) as [d'| |] eqn:E;
        [|by simpl|by simpl].
      by apply reduce_keys_scalar in E.
    + apply elem_of_cons in Hin as [Heq|Hin]; [done|].
      assert (forall fresh, descend acc (strip k0) fresh
                (fun c => reduce_keys c (next :: rest) val) ≠ Done d) as Hd.
      { intros fresh H. apply descend_Done in H as (c & c' & Hc & _).
        by apply IH in Hc. }
      destruct (Js.includes next "'"); [apply Hd|].
      destruct (Js.truthy_string next) eqn:Ht; [apply Hd|]. by destruct next.
Qed.

(** Writing one flat key and reading it back. *)
Lemma reduce_keys_read acc ks val acc' :
  ks ≠ [] -> reduce_keys acc ks val = Done acc' ->
  read_path acc' (map strip ks) = Done (Some (JLeaf val)).
Proof.
  revert acc acc'. induction ks as [|k0 rest IH]; intros acc acc' Hne H; [done|].
  destruct rest as [|next rest].
  - rewrite reduce_keys_last in H. apply js_get_put in H.
    simpl. by rewrite H.
  - rewrite reduce_keys_cons in H.
    assert (forall fresh, descend acc (strip k0) fresh
              (fun c => reduce_keys c (next :: rest) val) = Done acc' ->
            read_path acc' (map strip (k0 :: next :: rest)) = Done (Some (JLeaf val)))
      as Hd.
    { intros fresh Hdesc. apply descend_Done in Hdesc as (c & c' & Hc & Hget).
      change (map strip (k0 :: next :: rest)) with (strip k0 :: map strip (next :: rest)).
      cbn [read_path]. rewrite Hget. simpl mbind. by apply (IH c). }
    destruct (Js.includes next "'"); [by eapply Hd|].
    destruct (Js.truthy_string next) eqn:Ht; [by eapply Hd|].
    exfalso. destruct next; [|done].
    destruct (js_put acc _ _) as [acc1| |]; [|done|done].
    destruct (reduce_keys (JLeaf val) (EmptyString :: rest) val) as [d'| |] eqn:E;
      [|done|done].
    by apply reduce_keys_scalar in E.
Qed.

(** *** The loop over split keys *)

Lemma write_all_failed (L : list (list string * ValueType)) (o : Outcome JVal) :
  (forall d, o ≠ Done d) ->
  fold_left (fun result '(keys, val) => r ← result; reduce_keys r keys val) L o = o.
Proof.
  revert o. induction L as [|[ks x] L IH]; intros o Ho; [done|].
  simpl. destruct o as [d| |]; [by destruct (Ho d)| |]; simpl; by apply IH.
Qed.

Lemma write_all_cons acc ks x L :
  write_all acc ((ks, x) :: L) = r ← reduce_keys acc ks x; write_all r L.
Proof.
  unfold write_all. simpl. destruct (reduce_keys acc ks x) as [d| |]; simpl; [done| |];
    by apply write_all_failed.
Qed.

Lemma write_all_app acc L1 L2 :
  write_all acc (L1 ++ L2) = r ← write_all acc L1; write_all r L2.
Proof.
  revert acc. induction L1 as [|[ks x] L1 IH]; intros acc; [done|].
  rewrite <- app_comm_cons, !write_all_cons.
  destruct (reduce_keys acc ks x) as [d| |]; simpl; [apply IH|done|done].
Qed.

Lemma unflatten_write_all data base :
  unflattenObject data base
  = write_all base (map (fun kv => (Js.split kv.1 ".", kv.2)) data).
Proof.
  unfold unflattenObject, write_all. generalize (Done base).
  induction data as [|[k x] data IH]; intros o; [done|]. simpl. apply IH.
Qed.

(** *** Assignments to a property that exists *)

Lemma update_update {V} (o : Rec V) k v v' :
  Obj.update (Obj.update o k v) k v' = Obj.update o k v'.
Proof.
  induction o as [|[k' w] o IH]; simpl; [done|].
  destruct (String.eqb k' k) eqn:E; simpl; rewrite E; [done|]. by rewrite IH.
Qed.

Lemma js_put_existing acc k c0 v :
  js_get acc k = Done (Some c0) -> js_put acc k v = Done (js_replace acc k v).
Proof.
  destruct acc as [x|props|items]; simpl.
  - by destruct k.
  - unfold Obj.has. destruct (Obj.get props k); [done|]. by destruct (inherited k).
  - destruct (Js.array_index k) as [i|]; [|done]. intros [= Hi].
    apply lookup_lt_Some in Hi.
    by assert ((i <? N.of_nat (length items))%N = true) as -> by (apply N.ltb_lt; lia).
Qed.

Lemma js_get_replace acc k c0 v :
  js_get acc k = Done (Some c0) -> js_get (js_replace acc k v) k = Done (Some v).
Proof.
  intros Hget. eapply js_get_put. by eapply js_put_existing.
Qed.

Lemma js_replace_replace acc k v v' :
  js_replace (js_replace acc k v) k v' = js_replace acc k v'.
Proof.
  destruct acc as [x|props|items]; simpl; [done| |].
  - by rewrite update_update.
  - destruct (Js.array_index k) as [i|] eqn:E; simpl; rewrite ?E; [|done].
    by rewrite list_insert_insert_eq.
Qed.

Lemma js_replace_same acc k c :
  js_get acc k = Done (Some c) -> js_replace acc k c = acc.
Proof.
  intros Hget. pose proof (js_put_same acc k c Hget) as H1.
  pose proof (js_put_existing acc k c c Hget) as H2. congruence.
Qed.

Lemma descend_container acc k fresh rest acc' :
  descend acc k fresh rest = Done acc' -> is_container acc' = true.
Proof.
  unfold descend. destruct (js_get acc k) as [[child|]| |]; simpl; try done.
  - destruct (truthy child).
    + destruct (rest child) as [child'| |]; simpl; try done. apply js_put_container.
    + destruct (js_put acc k fresh) as [acc1| |]; simpl; try done.
      destruct (rest fresh) as [fresh'| |]; simpl; try done. apply js_put_container.
  - destruct (js_put acc k fresh) as [acc1| |]; simpl; try done.
    destruct (rest fresh) as [fresh'| |]; simpl; try done. apply js_put_container.
Qed.

Lemma reduce_keys_container acc ks val acc' :
  ks ≠ [] -> reduce_keys acc ks val = Done acc' -> is_container acc' = true.
Proof.
  destruct ks as [|k0 [|next rest]]; [done| |]; intros _.
  - rewrite reduce_keys_last. apply js_put_container.
  - rewrite reduce_keys_cons.
    destruct (Js.includes next "'"); [apply descend_container|].
    destruct (Js.truthy_string next); [apply descend_container|].
    destruct (js_put acc _ _) as [acc1| |] eqn:E; [|done|done].
    destruct (reduce_keys (JLeaf val) (next :: rest) val) as [d'| |]; [|done|done].
    simpl. intros [= <-]. by eapply js_put_container.
Qed.

Lemma container_truthy c : is_container c = true -> truthy c = true.
Proof. by destruct c. Qed.

(** *** Writing below a property *)

(** The reduction through a property that holds a container. *)
Lemma descend_existing acc k F c0 rest :
  js_get acc k = Done (Some c0) -> is_container c0 = true ->
  descend acc k F rest = c1 ← rest c0; Done (js_replace acc k c1).
Proof.
  intros Hget Hc. unfold descend. rewrite Hget. simpl.
  rewrite (container_truthy _ Hc).
  destruct (rest c0) as [c1| |]; simpl; [|done|done]. by eapply js_put_existing.
Qed.

Lemma reduce_keys_below acc (s s' : Seg) (p : list Seg) x c0 :
  plain_seg s -> js_get acc (literal s) = Done (Some c0) -> is_container c0 = true ->
  reduce_keys acc (map quoted (s :: s' :: p)) x
  = c1 ← reduce_keys c0 (map quoted (s' :: p)) x; Done (js_replace acc (literal s) c1).
Proof.
  intros Hs Hget Hc.
  change (map quoted (s :: s' :: p)) with (quoted s :: quoted s' :: map quoted p).
  rewrite reduce_keys_cons. unfold strip. rewrite (strip_quoted s Hs).
  destruct (lookahead_quoted s') as [->|[-> ->]];
    by apply (descend_existing acc (literal s) _ c0
                (fun c => reduce_keys c (quoted s' :: map quoted p) x)).
Qed.

Lemma write_all_below (s : Seg) (L : list (list Seg * ValueType)) :
  plain_seg s -> Forall (fun px => px.1 ≠ []) L ->
  forall acc c0 c',
    js_get acc (literal s) = Done (Some c0) -> is_container c0 = true ->
    write_all c0 (quoted_entries L) = Done c' ->
    write_all acc (quoted_entries (map (fun px => (s :: px.1, px.2)) L))
    = Done (js_replace acc (literal s) c').
Proof.
  intros Hs HL. induction HL as [|[p x] L Hp _ IH]; intros acc c0 c' Hget Hc Hw.
  - injection Hw as <-. simpl. unfold write_all. simpl. by rewrite js_replace_same.
  - simpl in Hp. destruct p as [|s' p]; [done|].
    unfold quoted_entries in *. cbn [map fst snd] in *.
    rewrite write_all_cons in Hw. rewrite write_all_cons.
    change (quoted s :: quoted s' :: map quoted p) with (map quoted (s :: s' :: p)).
    rewrite (reduce_keys_below acc s s' p x c0 Hs Hget Hc).
    change (quoted s' :: map quoted p) with (map quoted (s' :: p)) in Hw.
    destruct (reduce_keys c0 (map quoted (s' :: p)) x) as [c1| |] eqn:E; [|done|done].
    simpl in Hw. simpl mbind.
    rewrite (IH (js_replace acc (literal s) c1) c1 c').
    + by rewrite js_replace_replace.
    + by eapply js_get_replace.
    + by apply (reduce_keys_container c0 (map quoted (s' :: p)) x).
    + done.
Qed.

Lemma reduce_keys_fresh acc (s s' : Seg) (p : list Seg) x acc1 :
  plain_seg s -> js_get acc (literal s) = Done None ->
  js_put acc (literal s) (fresh_for s') = Done acc1 ->
  reduce_keys acc (map quoted (s :: s' :: p)) x
  = reduce_keys acc1 (map quoted (s :: s' :: p)) x.
Proof.
  intros Hs Hget Hput.
  assert (js_get acc1 (literal s) = Done (Some (fresh_for s'))) as Hget1
    by (by eapply js_get_put).
  rewrite (reduce_keys_below acc1 s s' p x (fresh_for s') Hs Hget1) by (by destruct s').
  change (map quoted (s :: s' :: p)) with (quoted s :: quoted s' :: map quoted p).
  rewrite reduce_keys_cons. unfold strip. rewrite (strip_quoted s Hs).
  assert (descend acc (literal s) (fresh_for s')
            (fun c => reduce_keys c (quoted s' :: map quoted p) x)
          = c1 ← reduce_keys (fresh_for s') (map quoted (s' :: p)) x;
            Done (js_replace acc1 (literal s) c1)) as Hd.
  { unfold descend. rewrite Hget, bind_Done, Hput, bind_Done.
    change (quoted s' :: map quoted p) with (map quoted (s' :: p)).
    destruct (reduce_keys (fresh_for s') (map quoted (s' :: p)) x) as [c1| |];
      [|done|done].
    rewrite !bind_Done. by eapply js_put_existing. }
  destruct s' as [k'|i']; cbn [quoted fresh_for] in *.
  - rewrite includes_char_app. simpl orb. cbv iota. exact Hd.
  - rewrite dec_excludes by done. rewrite dec_truthy. exact Hd.
Qed.

(** *** Building a child from nothing *)

Lemma walk_nonempty_paths (c : JVal) :
  is_container c = true -> Forall (fun px => px.1 ≠ []) (walk [] c).
Proof.
  intros Hc. apply Forall_forall. intros [p x] Hin. by eapply walk_container_path.
Qed.

Lemma walk_first (c : JVal) p x L :
  is_container c = true -> walk [] c = (p, x) :: L ->
  exists s' p', p = s' :: p' /\ fresh_for s' = fresh_like c.
Proof.
  intros Hc Hw.
  assert ((p, x) ∈ walk [] c) as Hin by (rewrite Hw; apply list_elem_of_here).
  destruct c as [y|props|items]; [done| |].
  - rewrite walk_obj in Hin. apply walk_members_head in Hin as (k & p' & -> & _).
    by exists (ObjKey k), p'.
  - rewrite walk_arr in Hin. apply walk_elements_head in Hin as (j & p' & -> & _).
    by exists (ArrIdx j), p'.
Qed.

Lemma walk_step (s : Seg) (c : JVal) :
  walk [s] c = map (fun px => (s :: px.1, px.2)) (walk [] c).
Proof. by rewrite walk_prefix. Qed.

(** The leaves of a child that is not there yet: the first of them creates
    the child, the others are written into it. *)
Lemma write_child acc (s : Seg) (c : JVal) acc1 :
  plain_seg s -> js_get acc (literal s) = Done None ->
  js_put acc (literal s) (fresh_like c) = Done acc1 ->
  is_container c = true -> walk [] c ≠ [] ->
  write_all (fresh_like c) (quoted_entries (walk [] c)) = Done c ->
  write_all acc (quoted_entries (walk [s] c)) = Done (js_replace acc1 (literal s) c).
Proof.
  intros Hs Hget Hput Hc Hne Hw. rewrite walk_step.
  assert (write_all acc (quoted_entries (map (fun px => (s :: px.1, px.2)) (walk [] c)))
          = write_all acc1
              (quoted_entries (map (fun px => (s :: px.1, px.2)) (walk [] c)))) as ->.
  { destruct (walk [] c) as [|[p x] L] eqn:E; [done|].
    destruct (walk_first c p x L Hc E) as (s' & p' & -> & Hfresh).
    unfold quoted_entries. cbn [map fst snd]. rewrite !write_all_cons.
    change (quoted s :: quoted s' :: map quoted p') with (map quoted (s :: s' :: p')).
    rewrite (reduce_keys_fresh acc s s' p' x acc1); [done|done|done|].
    by rewrite Hfresh. }
  apply write_all_below with (fresh_like c); try done.
  - by apply walk_nonempty_paths.
  - by eapply js_get_put.
  - by destruct c.
Qed.

Lemma write_leaf acc (s : Seg) x :
  plain_seg s ->
  write_all acc (quoted_entries (walk [s] (JLeaf x))) = js_put acc (literal s) (JLeaf x).
Proof.
  intros Hs. unfold quoted_entries. simpl walk. cbn [map fst snd app].
  rewrite write_all_cons, reduce_keys_last. unfold strip. rewrite (strip_quoted s Hs).
  destruct (js_put acc (literal s) (JLeaf x)); done.
Qed.

Lemma populated_walk (c : JVal) : populated c = true -> walk [] c ≠ [].
Proof.
  induction c as [x|props IH|items IH] using JVal_induction; intros Hp; [done| |].
  - rewrite walk_obj. destruct props as [|[k c] props]; [done|].
    simpl in Hp. apply andb_true_iff in Hp as [Hc _].
    apply Forall_cons in IH as [IHc _]. specialize (IHc Hc).
    simpl. intros H. apply app_eq_nil in H as [H _].
    rewrite walk_prefix in H. apply fmap_nil_inv in H. done.
  - rewrite walk_arr. destruct items as [|c items]; [done|].
    simpl in Hp. apply andb_true_iff in Hp as [Hc _].
    apply Forall_cons in IH as [IHc _]. specialize (IHc Hc).
    simpl. intros H. apply app_eq_nil in H as [H _].
    rewrite walk_prefix in H. apply fmap_nil_inv in H. done.
Qed.

(** *** Where a new property goes *)

Lemma own_order_named last ks k :
  own_order last true ks = true -> k ∈ ks -> Js.array_index k = None.
Proof.
  revert last. induction ks as [|k' ks IH]; intros last Ho Hin.
  - by apply elem_of_nil in Hin.
  - simpl in Ho. destruct (Js.array_index k') as [m|] eqn:E; [done|].
    apply elem_of_cons in Hin as [->|Hin]; [done|by eapply IH].
Qed.

Lemma own_order_before ks : forall last named k rest n,
  own_order last named (ks ++ k :: rest) = true -> Js.array_index k = Some n ->
  Forall (fun k' => exists m, Js.array_index k' = Some m /\ (m < n)%N) ks
  /\ forall l, last = Some l -> (l < n)%N.
Proof.
  induction ks as [|k' ks IH]; intros last named k rest n Ho Hk.
  - simpl in Ho. rewrite Hk in Ho.
    apply andb_true_iff in Ho as [Ho _]. apply andb_true_iff in Ho as [_ Ho].
    split; [constructor|]. intros l ->. by apply N.ltb_lt.
  - simpl in Ho. destruct (Js.array_index k') as [m|] eqn:E.
    + apply andb_true_iff in Ho as [Ho Hrest]. apply andb_true_iff in Ho as [_ Ho].
      destruct (IH _ _ _ _ _ Hrest Hk) as [Hks Hm]. specialize (Hm m eq_refl).
      split.
      * constructor; [by exists m|done].
      * intros l ->. apply N.ltb_lt in Ho. lia.
    + exfalso. assert (Js.array_index k = None) as Hnone.
      { eapply own_order_named; [exact Ho|]. apply elem_of_app. right. apply list_elem_of_here. }
      congruence.
Qed.

Lemma insert_index_last {V} (o : Rec V) n k v :
  Forall (fun k' => exists m, Js.array_index k' = Some m /\ (m < n)%N) (Obj.keys o) ->
  Obj.insert_index o n k v = o ++ [(k, v)].
Proof.
  induction o as [|[k' v'] o IH]; simpl; intros Ho; [done|].
  apply Forall_cons in Ho as [(m & -> & Hm) Ho].
  assert ((m <? n)%N = true) as -> by (by apply N.ltb_lt). by rewrite IH.
Qed.

Lemma set_last {V} (done : Rec V) k v (rest : list string) :
  NoDup (Obj.keys done ++ k :: rest) ->
  own_order None false (Obj.keys done ++ k :: rest) = true ->
  Obj.set done k v = done ++ [(k, v)].
Proof.
  intros Hnd Ho. unfold Obj.set, Obj.has.
  destruct (Obj.get done k) eqn:E.
  - apply get_Some_keys in E. apply NoDup_app in Hnd as (_ & Hd & _).
    destruct (Hd k E). apply list_elem_of_here.
  - destruct (Js.array_index k) as [n|] eqn:Hk; [|done].
    apply insert_index_last. by destruct (own_order_before _ _ _ _ _ _ Ho Hk).
Qed.

Lemma get_fresh {V} (done : Rec V) k (rest : list string) :
  NoDup (Obj.keys done ++ k :: rest) -> Obj.get done k = None.
Proof.
  intros Hnd. destruct (Obj.get done k) eqn:E; [|done].
  apply get_Some_keys in E. apply NoDup_app in Hnd as (_ & Hd & _).
  destruct (Hd k E). apply list_elem_of_here.
Qed.

Lemma update_last {V} (done : Rec V) k v v' :
  Obj.get done k = None -> Obj.update (done ++ [(k, v)]) k v' = done ++ [(k, v')].
Proof.
  induction done as [|[k' w] done IH]; simpl.
  - by rewrite String.eqb_refl.
  - destruct (String.eqb k' k); [done|]. intros H. by rewrite IH.
Qed.

(** *** Members and elements, one after the other *)

Lemma write_member (done : list (string * JVal)) k c (rest : list string) :
  NoDup (Obj.keys done ++ k :: rest) ->
  own_order None false (Obj.keys done ++ k :: rest) = true ->
  plain_key k = true -> inherited k = false ->
  (is_container c = true -> populated c = true /\ rebuilt c) ->
  write_all (JObj done) (quoted_entries (walk [ObjKey k] c))
  = Done (JObj (done ++ [(k, c)])).
Proof.
  intros Hnd Ho Hk Hinh Hc.
  pose proof (get_fresh done k rest Hnd) as Hget.
  assert (forall v, js_put (JObj done) k v = Done (JObj (done ++ [(k, v)]))) as Hput.
  { intros v. simpl. unfold Obj.has. rewrite Hget, Hinh. by erewrite set_last. }
  destruct c as [x|props|items].
  - rewrite (write_leaf _ (ObjKey k)) by done. apply Hput.
  - destruct Hc as [Hp Hb]; [done|].
    rewrite (write_child (JObj done) (ObjKey k) (JObj props)
               (JObj (done ++ [(k, JObj [])])));
      [|done|simpl; by rewrite Hget, Hinh|apply Hput|done|by apply populated_walk|done].
    simpl. by rewrite update_last.
  - destruct Hc as [Hp Hb]; [done|].
    rewrite (write_child (JObj done) (ObjKey k) (JArr items)
               (JObj (done ++ [(k, JArr [])])));
      [|done|simpl; by rewrite Hget, Hinh|apply Hput|done|by apply populated_walk|done].
    simpl. by rewrite update_last.
Qed.

Lemma write_element (done : list JVal) c :
  (N.of_nat (length done) < 4294967295)%N ->
  (is_container c = true -> populated c = true /\ rebuilt c) ->
  write_all (JArr done) (quoted_entries (walk [ArrIdx (N.of_nat (length done))] c))
  = Done (JArr (done ++ [c])).
Proof.
  intros Hlen Hc. set (i := N.of_nat (length done)).
  assert (plain_seg (ArrIdx i)) as Hs by done.
  assert (Js.array_index (Js.dec i) = Some i) as Hi by (by apply array_index_dec).
  assert (js_get (JArr done) (Js.dec i) = Done None) as Hget.
  { simpl. rewrite Hi. f_equal. apply lookup_ge_None. unfold i. lia. }
  assert (forall v, js_put (JArr done) (Js.dec i) v = Done (JArr (done ++ [v]))) as Hput.
  { intros v. simpl. rewrite Hi. unfold i. by rewrite N.ltb_irrefl, N.eqb_refl. }
  assert (forall v, js_replace (JArr (done ++ [v])) (Js.dec i) c = JArr (done ++ [c]))
    as Hrep.
  { intros v. simpl. rewrite Hi. f_equal. unfold i. rewrite Nat2N.id.
    by rewrite insert_app_r_alt, Nat.sub_diag by lia. }
  destruct c as [x|props|items].
  - rewrite (write_leaf _ (ArrIdx i)) by done. apply Hput.
  - destruct Hc as [Hp Hb]; [done|].
    rewrite (write_child (JArr done) (ArrIdx i) (JObj props) (JArr (done ++ [JObj []])));
      [|done|done|apply Hput|done|by apply populated_walk|done].
    by rewrite Hrep.
  - destruct Hc as [Hp Hb]; [done|].
    rewrite (write_child (JArr done) (ArrIdx i) (JArr items) (JArr (done ++ [JArr []])));
      [|done|done|apply Hput|done|by apply populated_walk|done].
    by rewrite Hrep.
Qed.

Lemma quoted_entries_app L1 L2 :
  quoted_entries (L1 ++ L2) = quoted_entries L1 ++ quoted_entries L2.
Proof. apply map_app. Qed.

Lemma write_members (todo : list (string * JVal)) :
  Forall (fun kc => plain_key kc.1 = true /\ inherited kc.1 = false
                    /\ (is_container kc.2 = true -> populated kc.2 = true /\ rebuilt kc.2))
         todo ->
  forall done,
    NoDup (Obj.keys (done ++ todo)) ->
    own_order None false (Obj.keys (done ++ todo)) = true ->
    write_all (JObj done) (quoted_entries (walk_members [] todo))
    = Done (JObj (done ++ todo)).
Proof.
  induction 1 as [|[k c] todo (Hk & Hinh & Hc) _ IH]; intros done Hnd Ho.
  - by rewrite app_nil_r.
  - simpl walk_members. rewrite quoted_entries_app, write_all_app.
    unfold Obj.keys in Hnd, Ho. rewrite map_app in Hnd, Ho. simpl in Hnd, Ho.
    rewrite (write_member done k c (map fst todo)) by done.
    rewrite bind_Done, IH.
    + by rewrite <- app_assoc.
    + unfold Obj.keys. by rewrite <- app_assoc, map_app.
    + unfold Obj.keys. by rewrite <- app_assoc, map_app.
Qed.

Lemma write_elements (todo : list JVal) :
  Forall (fun c => is_container c = true -> populated c = true /\ rebuilt c) todo ->
  forall done,
    (N.of_nat (length (done ++ todo)) <= 4294967295)%N ->
    write_all (JArr done)
      (quoted_entries (walk_elements [] (N.of_nat (length done)) todo))
    = Done (JArr (done ++ todo)).
Proof.
  induction 1 as [|c todo Hc _ IH]; intros done Hlen.
  - by rewrite app_nil_r.
  - simpl walk_elements. rewrite quoted_entries_app, write_all_app.
    rewrite length_app in Hlen. simpl in Hlen.
    rewrite write_element by (done || lia).
    rewrite bind_Done.
    replace (N.succ (N.of_nat (length done))) with (N.of_nat (length (done ++ [c])))
      by (rewrite length_app; simpl; lia).
    rewrite IH; [by rewrite <- app_assoc|].
    rewrite <- app_assoc. simpl. rewrite length_app. simpl. lia.
Qed.

(** *** Documents built from nothing *)

Lemma rebuilt_document (d : JVal) :
  JVal_wf d = true -> plain_keys d = true -> own_names d = true ->
  populated d = true -> is_container d = true -> rebuilt d.
Proof.
  induction d as [x|props IH|items IH] using JVal_induction;
    intros Hwf Hplain Hown Hpop Hcont; [done| |]; unfold rebuilt.
  - rewrite walk_obj. simpl in Hwf.
    apply andb_true_iff in Hwf as [Hnd Hwf]. apply andb_true_iff in Hnd as [Hnd Ho].
    apply bool_decide_eq_true in Hnd.
    apply (write_members props); [|done|done].
    simpl in Hplain, Hown.
    assert (forallb (fun kc => populated kc.2) props = true) as Hpops
      by (destruct props; [done|exact Hpop]).
    rewrite forallb_forall in Hwf, Hplain, Hown, Hpops.
    rewrite Forall_forall in IH. apply Forall_forall. intros [k c] Hin.
    apply list_elem_of_In in Hin as Hin'.
    specialize (Hwf _ Hin'). specialize (Hplain _ Hin'). specialize (Hown _ Hin').
    specialize (Hpops _ Hin'). simpl in *.
    apply andb_true_iff in Hplain as [Hk Hplain].
    apply andb_true_iff in Hown as [Hinh Hown]. apply negb_true_iff in Hinh.
    split; [done|]. split; [done|]. intros Hc. split; [done|].
    by apply (IH (k, c)).
  - rewrite walk_arr. simpl in Hwf. apply andb_true_iff in Hwf as [Hlen Hwf].
    apply N.leb_le in Hlen.
    apply (write_elements items); [|done].
    simpl in Hplain, Hown.
    assert (forallb populated items = true) as Hpops
      by (destruct items; [done|exact Hpop]).
    rewrite forallb_forall in Hwf, Hplain, Hown, Hpops.
    rewrite Forall_forall in IH. apply Forall_forall. intros c Hin.
    apply list_elem_of_In in Hin as Hin'.
    intros Hc. split; [by apply Hpops|]. apply IH; auto.
Qed.

(** Unflattening the flat record of an object with plain keys is the loop
    over the quoted segments of its leaves. *)
Lemma unflatten_flatten_entries (props : list (string * JVal)) (base : JVal) :
  JVal_wf (JObj props) = true -> plain_keys (JObj props) = true ->
  unflattenObject (flattenObject (JObj props)) base
  = write_all base (quoted_entries (walk [] (JObj props))).
Proof.
  intros Hwf Hplain. rewrite unflatten_write_all, flattenObject_traversal by done.
  unfold quoted_entries. rewrite map_map. f_equal.
  apply map_ext_in. intros [p x] Hin. apply list_elem_of_In in Hin. simpl. f_equal.
  apply split_join_dot.
  - pose proof (walk_container_path (JObj props) p x eq_refl Hin). by destruct p.
  - destruct (walk_leaf_at (JObj props) Hwf Hplain p x Hin) as [_ Hsegs].
    apply Forall_fmap. eapply Forall_impl; [exact Hsegs|]. intros s. apply quoted_no_dot.
Qed.

(** The document of a push: an object with plain keys, none of them a name
    of the object prototype, and without empty containers below the root is
    built again from its flat record alone, starting from the empty object,
    as [handlePushToGitHub] and [handleCopyRawJson] start. *)
Theorem unflatten_flatten_fresh (props : list (string * JVal)) :
  JVal_wf (JObj props) = true -> plain_keys (JObj props) = true ->
  own_names (JObj props) = true ->
  forallb (fun kc => populated (snd kc)) props = true ->
  unflattenObject (flattenObject (JObj props)) (JObj []) = Done (JObj props).
Proof.
  intros Hwf Hplain Hown Hpop. rewrite unflatten_flatten_entries by done.
  destruct props as [|kc props]; [done|].
  by apply (rebuilt_document (JObj (kc :: props))).
Qed.

Lemma completes_bind {A B} (o : Outcome A) (f : A -> Outcome B) :
  (forall a, o = Done a -> completes (f a) = false) -> completes (o ≫= f) = false.
Proof. destruct o as [a| |]; [|done|done]. intros H. by apply H. Qed.

Lemma completes_false {A} (o : Outcome A) :
  (forall a, o ≠ Done a) -> completes o = false.
Proof. destruct o as [a| |]; [|done|done]. intros H. by destruct (H a). Qed.

(** A flat key with an empty segment after its first one cannot be
    written: the reduction assigns the value and then goes on inside it,
    and a scalar takes no property.  Such keys come from object keys with
    two dots in a row. *)
Theorem empty_segment_fails (data : Rec ValueType) (base : JVal)
    (k : string) (x : ValueType) (k0 : string) (rest : list string) :
  (k, x) ∈ data -> Js.split k "." = k0 :: rest -> EmptyString ∈ rest ->
  completes (unflattenObject data base) = false.
Proof.
  intros Hin Hsplit Hrest. rewrite unflatten_write_all.
  apply list_elem_of_split in Hin as (l1 & l2 & ->).
  rewrite map_app, write_all_app. apply completes_bind. intros r _.
  cbn [map fst snd]. rewrite write_all_cons, Hsplit. apply completes_bind.
  intros d Hd. by apply reduce_keys_empty_segment in Hd.
Qed.

Lemma empty_segment_fails_witness :
  completes (unflattenObject (flattenObject gap_doc) (JObj [])) = false.
Proof.
  apply (empty_segment_fails (flattenObject gap_doc) (JObj []) "'a..b'" (VStr "x")
           "'a" [EmptyString; "b'"]).
  - vm_compute. apply list_elem_of_here.
  - reflexivity.
  - apply list_elem_of_here.
Defined.

(** The key written last can be read back.  On a run that stays in plain
    objects and arrays without holes (no segment is read or assigned as a
    name that an object only inherits from its prototype, no array is
    assigned past its end or under a name that is no index, no property is
    read from a scalar), following the segments of the key, without their
    quotes, from the root of the result ends on the value. *)
Theorem unflatten_last_key_readable (data : Rec ValueType) (base : JVal)
    (k : string) (x : ValueType) (d : JVal) :
  unflattenObject (data ++ [(k, x)]) base = Done d ->
  read_path d (map strip (Js.split k ".")) = Done (Some (JLeaf x)).
Proof.
  rewrite unflatten_write_all, map_app, write_all_app. cbn [map fst snd].
  destruct (write_all base _) as [r| |]; [|done|done].
  rewrite bind_Done, write_all_cons.
  destruct (reduce_keys r (Js.split k ".") x) as [d'| |] eqn:E; [|done|done].
  intros [= <-]. apply (reduce_keys_read r); [|done].
  rewrite split_dot_eq. done.
Qed.

Lemma unflatten_last_key_readable_witness :
  read_path (JObj [("a", JObj [("b", JLeaf (VStr "x")); ("c", JArr [JLeaf (VNum 1)])])])
    ["a"; "c"; "0"]
  = Done (Some (JLeaf (VNum 1))).
Proof.
  exact (unflatten_last_key_readable [("'a'.'b'", VStr "x")] (JObj []) "'a'.'c'.0"
           (VNum 1) _ eq_refl).
Defined.

Lemma unflatten_flatten_fresh_witness :
  unflattenObject (flattenObject menu_doc) (JObj []) = Done menu_doc.
Proof.
  apply (unflatten_flatten_fresh
           [("title", JLeaf (VStr "Hi"));
            ("menu", JObj [("items", JArr [JLeaf (VStr "Open"); JLeaf (VNum 2);
                                           JObj [("0", JLeaf (VBool true))]])])]);
    reflexivity.
Defined.

(** What the hypotheses exclude: an empty container leaves no entry and is
    not built again, and a key that objects inherit is found on the
    prototype of the fresh object, where the reduction goes on. *)
Example unflatten_inherited_name :
  unflattenObject
    (flattenObject (JObj [("toString", JObj [("a", JLeaf (VStr "x"))])])) (JObj [])
  = Unsupported.
Proof. reflexivity. Qed.

Example unflatten_loses_empty_containers :
  unflattenObject (flattenObject mixed_doc) (JObj [])
  = Done (JObj [("title", JLeaf (VStr "Hi"));
                ("menu", JObj [("items", JArr [JLeaf (VStr "Open"); JLeaf (VNum 2);
                                               JObj [("0", JLeaf (VBool true))]])])]).
Proof. reflexivity. Qed.

(** *** From the rows back to a document *)

Lemma flat_key_not_index (props : list (string * JVal)) k :
  k ∈ Obj.keys (flattenObject (JObj props)) -> Js.array_index k = None.
Proof.
  intros Hk. apply keys_get_Some in Hk as [x Hx].
  assert ((k, x) ∈ flattenObject (JObj props)) as Hin.
  { clear -Hx. induction (flattenObject (JObj props)) as [|[k' v'] o IH]; [done|].
    simpl in Hx. destruct (String.eqb_spec k' k) as [->|Hne].
    - injection Hx as ->. apply list_elem_of_here.
    - apply list_elem_of_further. by apply IH. }
  apply flattenObject_entries in Hin as (p & Hp & ->).
  rewrite walk_obj in Hp. apply walk_members_head in Hp as (k' & p' & -> & _).
  apply path_key_not_index.
Qed.

Lemma flatData_entries (rows : list TranslationRow) :
  NoDup (map key rows) ->
  (forall r, r ∈ rows -> Js.array_index (key r) = None) ->
  flatData rows = map (fun r => (key r, VStr (targetValue r))) rows.
Proof.
  intros Hnd Hidx. unfold flatData.
  transitivity (fold_left (fun (o : Rec ValueType) (kv : string * ValueType) =>
                             Obj.set o kv.1 kv.2)
                  (map (fun r => (key r, VStr (targetValue r))) rows) []).
  { generalize (@nil (string * ValueType)).
    induction rows as [|r rows IH]; intros o; [done|]. simpl. apply IH.
    - by apply NoDup_cons in Hnd as [_ Hnd].
    - intros r' Hr'. apply Hidx. by apply list_elem_of_further. }
  rewrite fold_set_fresh; [done| |].
  - unfold Obj.keys. by rewrite map_map.
  - unfold Obj.keys. rewrite map_map. simpl. intros k Hk.
    apply list_elem_of_fmap in Hk as (r & -> & Hr).
    split; [apply not_elem_of_nil|by apply Hidx].
Qed.

Lemma entries_of_keys {V} (g : option V -> V) (o : Rec V) :
  NoDup (Obj.keys o) -> (forall kv, kv ∈ o -> g (Some kv.2) = kv.2) ->
  map (fun k => (k, g (Obj.get o k))) (Obj.keys o) = o.
Proof.
  intros Hnd Hg.
  assert (forall kv, kv ∈ o -> Obj.get o kv.1 = Some kv.2) as Hget
    by (intros [k v] Hin; by apply get_first).
  clear Hnd. unfold Obj.keys. revert Hget. generalize (Obj.get o).
  induction o as [|[k v] o IH]; intros get Hget; [done|].
  pose proof (Hget (k, v) (list_elem_of_here _ _)) as E1.
  pose proof (Hg (k, v) (list_elem_of_here _ _)) as E2. simpl in E1, E2.
  simpl. rewrite E1, E2. f_equal.
  apply IH.
  - intros kv Hin. apply Hg. by apply list_elem_of_further.
  - intros kv Hin. apply Hget. by apply list_elem_of_further.
Qed.

Lemma filter_all {A} (P : A -> bool) (l : list A) :
  (forall a, a ∈ l -> P a = true) -> List.filter P l = l.
Proof.
  induction l as [|a l IH]; intros H; [done|]. simpl.
  rewrite (H a) by apply list_elem_of_here. f_equal. apply IH.
  intros a' Ha'. apply H. by apply list_elem_of_further.
Qed.

Lemma get_Some_elem {V} (o : Rec V) k v : Obj.get o k = Some v -> (k, v) ∈ o.
Proof.
  induction o as [|[k' v'] o IH]; [done|]. simpl.
  destruct (String.eqb_spec k' k) as [->|Hne].
  - intros [= ->]. apply list_elem_of_here.
  - intros H. apply list_elem_of_further. by apply IH.
Qed.

Lemma reconcile_row_unmodified R S T k s :
  (forall r, r ∈ R -> targetValue r = originalTargetValue r) ->
  Obj.get T k = Some (VStr s) -> s ≠ EmptyString ->
  targetValue (reconcile_row R S T k) = s.
Proof.
  intros HR Hget Hs. unfold reconcile_row. cbn [targetValue].
  rewrite bool_decide_eq_true_2.
  - unfold fetched_target. rewrite Hget. simpl. by destruct s.
  - destruct (find_row R k) as [r|] eqn:E; [|done]. simpl. f_equal.
    apply HR. by apply find_row_Some in E as [? _].
Qed.

(** Fetch, then copy or push with no edit in between: when the target
    document is an object with plain keys, none of them a name of the object
    prototype, without empty containers, that holds only non-empty strings,
    under the same keys, in the same order, as the source, the document
    built from the rows is the target document, and it is the document
    that [pushFile] receives. *)
Theorem fetch_then_copy_gives_target (R : list TranslationRow) (source : JVal)
    (props : list (string * JVal)) :
  JVal_wf (JObj props) = true -> plain_keys (JObj props) = true ->
  own_names (JObj props) = true ->
  forallb (fun kc => populated (snd kc)) props = true ->
  Obj.keys (flattenObject source) = Obj.keys (flattenObject (JObj props)) ->
  (forall k v, (k, v) ∈ flattenObject source -> is_string (Some v) = true) ->
  (forall k v, (k, v) ∈ flattenObject (JObj props) ->
               exists s, v = VStr s /\ s ≠ EmptyString) ->
  (forall r, r ∈ R -> targetValue r = originalTargetValue r) ->
  let rows := Reconcile R (flattenObject source) (flattenObject (JObj props)) in
  handleCopyRawJson rows = Done (JObj props)
  /\ forall githubToken message pushFile beyond,
       Js.truthy_string githubToken = true -> Js.truthy_string message = true ->
       handlePushToGitHub githubToken (Some message) pushFile beyond rows
       = if pushFile (JObj props) message
         then (PushSucceeded, map mark_pushed rows)
         else (PushFailed, rows).
Proof.
  intros Hwf Hplain Hown Hpop Hkeys Hsrc Htgt HR rows.
  assert (handleCopyRawJson rows = Done (JObj props)) as Hdoc; [|split; [done|]].
  2:{ intros tok msg pushFile beyond Htok Hmsg. unfold handlePushToGitHub.
      rewrite Htok, Hmsg. cbn [negb]. cbv iota.
      change (unflattenObject (flatData rows) (JObj [])) with (handleCopyRawJson rows).
      by rewrite Hdoc. }
  unfold rows. clear rows.
  set (S := flattenObject source) in *. set (T := flattenObject (JObj props)) in *.
  assert (List.filter (fun k => is_string (Obj.get S k)) (Obj.keys S) = Obj.keys T)
    as Hfilter.
  { rewrite filter_all; [done|]. intros k Hk.
    apply keys_get_Some in Hk as [v Hv]. rewrite Hv.
    apply get_Some_elem in Hv. by eapply Hsrc. }
  assert (map key (Reconcile R S T) = Obj.keys T) as Hrows
    by (by rewrite Reconcile_keys).
  unfold handleCopyRawJson. rewrite flatData_entries.
  - unfold Reconcile. rewrite Hfilter, map_map.
    rewrite (map_ext_in _ (fun k => (k, VStr (prop_toString (Obj.get T k))))).
    + rewrite (entries_of_keys (fun o => VStr (prop_toString o))).
      * subst T. rewrite unflatten_flatten_entries by done.
        clear -Hwf Hplain Hown Hpop. destruct props as [|kc props]; [done|].
        by apply (rebuilt_document (JObj (kc :: props))).
      * apply flattenObject_NoDup.
      * intros [k v] Hin. destruct (Htgt k v Hin) as (s & -> & _). done.
    + intros k Hk. apply list_elem_of_In, keys_get_Some in Hk as [v Hv].
      destruct (Htgt k v (get_Some_elem _ _ _ Hv)) as (s & -> & Hs).
      cbn [key]. f_equal. f_equal. rewrite Hv. simpl.
      by apply reconcile_row_unmodified.
  - rewrite Hrows. apply flattenObject_NoDup.
  - intros r Hr. apply (flat_key_not_index props). fold T. rewrite <- Hrows.
    by apply list_elem_of_fmap_2.
Qed.

Lemma fetch_then_copy_gives_target_witness :
  handleCopyRawJson
    (Reconcile [] (flattenObject (JObj [("a", JObj [("b", JLeaf (VStr "Hello"))])]))
               (flattenObject (JObj [("a", JObj [("b", JLeaf (VStr "Bonjour"))])])))
  = Done (JObj [("a", JObj [("b", JLeaf (VStr "Bonjour"))])]).
Proof.
  apply (fetch_then_copy_gives_target []
           (JObj [("a", JObj [("b", JLeaf (VStr "Hello"))])])
           [("a", JObj [("b", JLeaf (VStr "Bonjour"))])]); try reflexivity.
  - intros k v Hin. vm_compute in Hin. apply list_elem_of_singleton in Hin.
    by injection Hin as -> ->.
  - intros k v Hin. vm_compute in Hin. apply list_elem_of_singleton in Hin.
    injection Hin as -> ->. by exists "Bonjour".
  - intros r Hr. by apply elem_of_nil in Hr.
Defined.

(** ** Flat keys as property names *)

(** A flat key is never a name that objects inherit from their prototype,
    and the flat key of a leaf below an object is no array index: the
    callback of [flattenObject] always creates an own property, at the end
    of the record, and reading a record or the flag table by a flat key
    finds own properties only. *)
Theorem flat_keys_are_own_names (d : JVal) (k : string) :
  k ∈ Obj.keys (flattenObject d) ->
  inherited k = false
  /\ forall props, d = JObj props -> Js.array_index k = None.
Proof.
  intros Hk. split; [by eapply flat_key_not_inherited|].
  intros props ->. by eapply flat_key_not_index.
Qed.

Lemma flat_keys_are_own_names_witness :
  inherited "'constructor'.'name'" = false.
Proof.
  refine (proj1 (flat_keys_are_own_names
                   (JObj [("constructor", JObj [("name", JLeaf (VStr "x"))])])
                   "'constructor'.'name'" _)).
  vm_compute. apply list_elem_of_here.
Defined.

(** ** The search filter, tag by tag *)

Lemma includes_empty (s : string) : Js.includes s EmptyString = true.
Proof. by destruct s. Qed.

Lemma filter_rows_pure (cb : TranslationRow -> Outcome bool) (P : TranslationRow -> bool)
    (rows : list TranslationRow) :
  (forall r, r ∈ rows -> cb r = Done (P r)) ->
  filter_rows cb rows = Done (List.filter P rows).
Proof.
  induction rows as [|r rows IH]; intros H; [done|].
  simpl. rewrite (H r) by apply list_elem_of_here. rewrite bind_Done.
  rewrite IH by (intros r' Hr'; apply H; by apply list_elem_of_further).
  rewrite bind_Done. by destruct (P r).
Qed.

Lemma filter_rows_Done (cb : TranslationRow -> Outcome bool)
    (rows kept : list TranslationRow) :
  filter_rows cb rows = Done kept ->
  kept = List.filter (fun r => holds (cb r)) rows
  /\ Forall (fun r => completes (cb r) = true) rows.
Proof.
  revert kept. induction rows as [|r rows IH]; intros kept H.
  - injection H as <-. by split.
  - simpl in H. destruct (cb r) as [b| |] eqn:Eb; [|done|done].
    rewrite bind_Done in H.
    destruct (filter_rows cb rows) as [rest| |]; [|done|done].
    rewrite bind_Done in H. injection H as <-.
    destruct (IH rest eq_refl) as [-> Hall].
    split; [|constructor; [by rewrite Eb|done]].
    simpl. rewrite Eb. by destruct b.
Qed.

(** The clause of a query that is one tag and nothing else. *)
Ltac eval_tags t :=
  repeat match goal with
         | |- context [Js.includes t ?tag] =>
             let b := eval vm_compute in (Js.includes t tag) in
             change (Js.includes t tag) with b
         end.

Ltac single_tag t :=
  unfold row_matches;
  (let l := eval vm_compute in (Js.split (Js.toLowerCase t) "||") in
   change (Js.split (Js.toLowerCase t) "||") with l);
  unfold some_clause, clause_matches, text_predicate, tag_predicates;
  cbv beta zeta;
  (let q := eval vm_compute in (queryWithoutTag t) in
   change (queryWithoutTag t) with q);
  eval_tags t;
  cbn [negb orb andb]; rewrite !includes_empty;
  unfold oand, oor; rewrite !bind_Done;
  cbn [negb orb andb]; rewrite ?andb_true_r.

Lemma row_matches_empty E m r : row_matches E m EmptyString r = Done true.
Proof. single_tag EmptyString. done. Qed.

Lemma row_matches_modified E m r :
  row_matches E m "#modified" r
  = Done (negb (String.eqb (targetValue r) (originalTargetValue r))).
Proof. single_tag "#modified". by destruct (String.eqb _ _). Qed.

Lemma row_matches_done E m r :
  row_matches E m "#done" r
  = Done (negb (String.eqb (sourceValue r) (originalTargetValue r))
          && String.eqb (targetValue r) (originalTargetValue r)).
Proof.
  single_tag "#done".
  by destruct (negb (String.eqb (sourceValue r) _) && String.eqb (targetValue r) _).
Qed.

Lemma row_matches_undone E m r :
  row_matches E m "#undone" r
  = Done (String.eqb (sourceValue r) (targetValue r)
          || negb (Js.truthy_string (targetValue r))
          || String.eqb (targetValue r) EmptyString).
Proof.
  single_tag "#undone".
  by destruct (String.eqb (sourceValue r) _ || negb (Js.truthy_string _) || String.eqb _ _).
Qed.

Lemma row_matches_doing E m r :
  row_matches E m "#doing" r
  = Done (String.eqb (sourceValue r) (targetValue r)
          || negb (Js.truthy_string (targetValue r))
          || String.eqb (targetValue r) EmptyString
          || negb (String.eqb (targetValue r) (originalTargetValue r))).
Proof.
  single_tag "#doing".
  by destruct (String.eqb (sourceValue r) _ || negb (Js.truthy_string _)
               || String.eqb _ _ || negb (String.eqb _ _)).
Qed.

Lemma row_matches_ai E m r :
  row_matches E m "#ai" r
  = Done (Js.truthy_string (str_or (aiSuggestion r) EmptyString)).
Proof. single_tag "#ai". by destruct (Js.truthy_string _). Qed.

Lemma row_matches_noai E m r :
  row_matches E m "#noai" r
  = Done (negb (Js.truthy_string (str_or (aiSuggestion r) EmptyString))
          || negb (loading_flag m (key r))).
Proof.
  single_tag "#noai".
  by destruct (negb (Js.truthy_string _) || negb (loading_flag m (key r))).
Qed.

Lemma row_matches_empty_tag E m r :
  row_matches E m "#empty" r = Done (negb (Js.truthy_string (targetValue r))).
Proof. single_tag "#empty". by destruct (negb (Js.truthy_string _)). Qed.

Lemma row_matches_inarray E m r :
  row_matches E m "#inarray" r = Done (key_in_array (key r)).
Proof. single_tag "#inarray". by destruct (key_in_array _). Qed.

Lemma filteredRows_pure E rows searchTerms m (P : TranslationRow -> bool) :
  (forall r, row_matches E m searchTerms r = Done (P r)) ->
  filteredRows E rows searchTerms m = Done (List.filter P rows).
Proof. intros H. apply filter_rows_pure. intros r _. apply H. Qed.

(** The empty query keeps every row, in order. *)
Theorem empty_query_keeps_all_rows (E : RegExpEngine) (rows : list TranslationRow)
    (rowAiLoading : gmap string bool) :
  filteredRows E rows EmptyString rowAiLoading = Done rows.
Proof.
  rewrite (filteredRows_pure _ _ _ _ (fun _ => true)) by apply row_matches_empty.
  f_equal. by apply filter_all.
Qed.

(** Each of the tags [#modified], [#done], [#undone], [#doing], [#ai],
    [#noai], [#empty] and [#inarray], used alone, keeps exactly the rows of
    its own predicate: none of them is read as another tag, and the text
    before the tag is empty and matches every key. *)
Theorem single_tag_queries (E : RegExpEngine) (rows : list TranslationRow)
    (rowAiLoading : gmap string bool) :
  let kept tag := filteredRows E rows tag rowAiLoading in
  let on P := Done (List.filter P rows) in
  let untranslated r :=
    String.eqb (sourceValue r) (targetValue r)
    || negb (Js.truthy_string (targetValue r))
    || String.eqb (targetValue r) EmptyString in
  let modified r := negb (String.eqb (targetValue r) (originalTargetValue r)) in
  let suggested r := Js.truthy_string (str_or (aiSuggestion r) EmptyString) in
  kept "#modified" = on modified
  /\ kept "#done" = on (fun r => negb (String.eqb (sourceValue r) (originalTargetValue r))
                                 && String.eqb (targetValue r) (originalTargetValue r))
  /\ kept "#undone" = on untranslated
  /\ kept "#doing" = on (fun r => untranslated r || modified r)
  /\ kept "#ai" = on suggested
  /\ kept "#noai" = on (fun r => negb (suggested r)
                                 || negb (loading_flag rowAiLoading (key r)))
  /\ kept "#empty" = on (fun r => negb (Js.truthy_string (targetValue r)))
  /\ kept "#inarray" = on (fun r => key_in_array (key r)).
Proof.
  cbv zeta. repeat split; apply filteredRows_pure; intros r.
  - apply row_matches_modified.
  - apply row_matches_done.
  - apply row_matches_undone.
  - apply row_matches_doing.
  - apply row_matches_ai.
  - apply row_matches_noai.
  - apply row_matches_empty_tag.
  - apply row_matches_inarray.
Qed.

(** The counter of modified rows, which enables the push button, is the
    number of rows the query [#modified] shows. *)
Theorem modified_query_counts (E : RegExpEngine) (rows : list TranslationRow)
    (rowAiLoading : gmap string bool) :
  exists kept, filteredRows E rows "#modified" rowAiLoading = Done kept
               /\ length kept = modifiedCount rows.
Proof.
  eexists. split; [apply filteredRows_pure; intros r; apply row_matches_modified|].
  unfold modifiedCount. induction rows as [|r rows IH]; [done|].
  simpl. rewrite filter_cons.
  destruct (String.eqb_spec (targetValue r) (originalTargetValue r)) as [Heq|Hne].
  - by rewrite decide_False by (by intros H; apply H).
  - rewrite decide_True by done. simpl. by rewrite IH.
Qed.

Lemma filter_subset {A} (P Q : A -> bool) (l : list A) :
  (forall a, P a = true -> Q a = true) -> List.filter P l ⊆ List.filter Q l.
Proof.
  intros H a. rewrite !list_elem_of_In, !filter_In. intros [? ?]. auto.
Qed.

(** How the tags of progress relate: an empty target is untranslated; what
    is untranslated or modified is in progress; and no row is both done and
    modified. *)
Theorem progress_tags_nest (E : RegExpEngine) (rows : list TranslationRow)
    (rowAiLoading : gmap string bool) :
  exists empty undone doing modified done,
    filteredRows E rows "#empty" rowAiLoading = Done empty
    /\ filteredRows E rows "#undone" rowAiLoading = Done undone
    /\ filteredRows E rows "#doing" rowAiLoading = Done doing
    /\ filteredRows E rows "#modified" rowAiLoading = Done modified
    /\ filteredRows E rows "#done" rowAiLoading = Done done
    /\ empty ⊆ undone /\ undone ⊆ doing /\ modified ⊆ doing
    /\ forall r, r ∈ done -> r ∉ modified.
Proof.
  do 5 eexists.
  split; [apply filteredRows_pure, row_matches_empty_tag|].
  split; [apply filteredRows_pure, row_matches_undone|].
  split; [apply filteredRows_pure, row_matches_doing|].
  split; [apply filteredRows_pure, row_matches_modified|].
  split; [apply filteredRows_pure, row_matches_done|].
  split; [|split; [|split]].
  - apply filter_subset. intros r ->. by rewrite orb_true_r.
  - apply filter_subset. by intros r ->.
  - apply filter_subset. intros r ->. by rewrite orb_true_r.
  - intros r. rewrite !list_elem_of_In, !filter_In. intros [_ Hd] [_ Hm].
    apply andb_true_iff in Hd as [_ Hd]. by rewrite Hd in Hm.
Qed.

(** The filter only removes rows: what it keeps is a sublist of the table,
    made of the rows the query matches. *)
Theorem filter_keeps_a_sublist (E : RegExpEngine) (rows kept : list TranslationRow)
    (searchTerms : string) (rowAiLoading : gmap string bool) :
  filteredRows E rows searchTerms rowAiLoading = Done kept ->
  sublist kept rows
  /\ forall r, r ∈ kept <->
               r ∈ rows /\ row_matches E rowAiLoading searchTerms r = Done true.
Proof.
  intros H. apply filter_rows_Done in H as [-> _]. split.
  - induction rows as [|r rows IH]; [constructor|]. simpl.
    destruct (holds _); [by apply sublist_skip|by apply sublist_cons].
  - intros r. rewrite list_elem_of_In, filter_In, <- list_elem_of_In.
    unfold holds. destruct (row_matches E rowAiLoading searchTerms r) as [[]| |];
      intuition congruence.
Qed.

Lemma filter_keeps_a_sublist_witness :
  sublist [edited_row] [greeting_row; edited_row].
Proof.
  apply (filter_keeps_a_sublist paren_engine [greeting_row; edited_row] [edited_row]
           "#modified" ∅).
  reflexivity.
Defined.

(** *** Alternatives *)

Lemma split_scan_step (sep : string) (c : ascii) (s : string) :
  Js.split_scan sep 0 (String c s)
  = if Js.startsWith (String c s) sep
    then (EmptyString,
          (Js.split_scan sep (String.length sep - 1) s).1
            :: (Js.split_scan sep (String.length sep - 1) s).2)
    else (String c (Js.split_scan sep 0 s).1, (Js.split_scan sep 0 s).2).
Proof.
  cbn [Js.split_scan]. destruct (Js.startsWith (String c s) sep).
  - by destruct (Js.split_scan sep (String.length sep - 1) s).
  - by destruct (Js.split_scan sep 0 s).
Qed.

Lemma split_scan_skip_one (sep : string) (c : ascii) (s : string) :
  Js.split_scan sep 1 (String c s) = Js.split_scan sep 0 s.
Proof. reflexivity. Qed.

Lemma startsWith_cons (a b : ascii) (s p : string) :
  Js.startsWith (String b s) (String a p) = Ascii.eqb a b && Js.startsWith s p.
Proof. reflexivity. Qed.

Lemma split_scan_bars_cons (a : ascii) (s : string) :
  Ascii.eqb "|" a = false ->
  Js.split_scan "||" 0 (String a s)
  = (String a (Js.split_scan "||" 0 s).1, (Js.split_scan "||" 0 s).2).
Proof. intros Ha. by rewrite split_scan_step, startsWith_cons, Ha. Qed.

Lemma split_scan_bars_app (a b : string) :
  Js.includes a "|" = false ->
  Js.split_scan "||" 0 (a +:+ "||" +:+ b)
  = (a, (Js.split_scan "||" 0 b).1 :: (Js.split_scan "||" 0 b).2).
Proof.
  induction a as [|c a IH].
  - intros _. rewrite app_nil_l_s, !app_cons_s, app_nil_l_s.
    rewrite split_scan_step. change (String.length "||" - 1) with 1.
    by rewrite split_scan_skip_one.
  - rewrite includes_char_cons, app_cons_s. intros H.
    apply orb_false_iff in H as [Hc H].
    rewrite split_scan_bars_cons by done. by rewrite (IH H).
Qed.

Lemma split_bars_eq (s : string) :
  Js.split s "||" = (Js.split_scan "||" 0 s).1 :: (Js.split_scan "||" 0 s).2.
Proof. unfold Js.split. by destruct (Js.split_scan "||" 0 s). Qed.

Lemma split_bars_app (a b : string) :
  Js.includes a "|" = false ->
  Js.split (a +:+ "||" +:+ b) "||" = a :: Js.split b "||".
Proof. intros H. by rewrite !split_bars_eq, split_scan_bars_app. Qed.

Lemma split_bars_single (a : string) :
  Js.includes a "|" = false -> Js.split a "||" = [a].
Proof.
  intros H. rewrite split_bars_eq. induction a as [|c a IH]; [done|].
  rewrite includes_char_cons in H. apply orb_false_iff in H as [Hc H].
  rewrite split_scan_bars_cons by done. specialize (IH H).
  injection IH as -> ->. done.
Qed.

Lemma toLowerCase_app (a b : string) :
  Js.toLowerCase (a +:+ b) = Js.toLowerCase a +:+ Js.toLowerCase b.
Proof.
  induction a as [|c a IH]; [by rewrite !app_nil_l_s|].
  rewrite app_cons_s. simpl. by rewrite app_cons_s, IH.
Qed.

Lemma lower_ascii_bar (c : ascii) :
  Ascii.eqb "|" c = false -> Ascii.eqb "|" (Js.lower_ascii c) = false.
Proof.
  intros Hc. unfold Js.lower_ascii.
  destruct ((65 <=? nat_of_ascii c)%nat && (nat_of_ascii c <=? 90)%nat) eqn:E; [|done].
  apply andb_true_iff in E as [H1 H2].
  apply Nat.leb_le in H1, H2. apply Ascii.eqb_neq. intros Heq.
  apply (f_equal nat_of_ascii) in Heq. rewrite nat_ascii_embedding in Heq by lia.
  change (nat_of_ascii "|") with 124 in Heq. lia.
Qed.

Lemma toLowerCase_no_bar (a : string) :
  Js.includes a "|" = false -> Js.includes (Js.toLowerCase a) "|" = false.
Proof.
  induction a as [|c a IH]; [done|]. simpl Js.toLowerCase.
  rewrite !includes_char_cons. intros H. apply orb_false_iff in H as [Hc H].
  by rewrite lower_ascii_bar, IH.
Qed.

Lemma oor_false_r (o : Outcome bool) : oor o (Done false) = o.
Proof. by destruct o as [[]| |]. Qed.

Lemma oor_assoc (a b c : Outcome bool) : oor (oor a b) c = oor a (oor b c).
Proof. destruct a as [[]| |]; [|done|done|done]. done. Qed.

(** A row matches a query of two parts when it matches the left clause, or
    else the rest of the query, tried in that order. *)
Lemma row_matches_bars E m (a b : string) r :
  Js.includes a "|" = false ->
  row_matches E m (a +:+ "||" +:+ b) r = oor (row_matches E m a r) (row_matches E m b r).
Proof.
  intros Ha. unfold row_matches. rewrite !toLowerCase_app.
  change (Js.toLowerCase "||") with "||".
  rewrite split_bars_app, (split_bars_single (Js.toLowerCase a))
    by (by apply toLowerCase_no_bar).
  simpl. by rewrite oor_false_r.
Qed.

(** Clauses separated by [||] are alternatives: when the clause on the left
    holds no bar of its own and both parts complete, the query keeps
    exactly the rows that one part or the other keeps. *)
Theorem alternatives_are_a_union (E : RegExpEngine) (rows ka kb : list TranslationRow)
    (rowAiLoading : gmap string bool) (a b : string) :
  Js.includes a "|" = false ->
  filteredRows E rows a rowAiLoading = Done ka ->
  filteredRows E rows b rowAiLoading = Done kb ->
  exists kept,
    filteredRows E rows (a +:+ "||" +:+ b) rowAiLoading = Done kept
    /\ forall r, r ∈ kept <-> r ∈ ka \/ r ∈ kb.
Proof.
  intros Ha Hka Hkb.
  apply filter_rows_Done in Hka as [-> Hca]. apply filter_rows_Done in Hkb as [-> Hcb].
  rewrite Forall_forall in Hca, Hcb.
  exists (List.filter (fun r => holds (row_matches E rowAiLoading a r)
                                || holds (row_matches E rowAiLoading b r)) rows).
  split.
  - apply filter_rows_pure. intros r Hr. rewrite row_matches_bars by done.
    specialize (Hca r Hr). specialize (Hcb r Hr). simpl in Hca, Hcb.
    destruct (row_matches E rowAiLoading a r) as [[]| |]; try done;
      by destruct (row_matches E rowAiLoading b r) as [[]| |].
  - intros r. rewrite !list_elem_of_In, !filter_In, orb_true_iff. tauto.
Qed.

Lemma alternatives_are_a_union_witness :
  exists kept,
    filteredRows paren_engine [greeting_row; edited_row] ("salut" +:+ "||" +:+ "#done") ∅
    = Done kept
    /\ forall r, r ∈ kept <-> r ∈ [edited_row] \/ r ∈ [greeting_row].
Proof.
  apply (alternatives_are_a_union paren_engine [greeting_row; edited_row]
           [edited_row] [greeting_row] ∅ "salut" "#done"); reflexivity.
Defined.

(** *** Queries without [#reg] *)

Lemma includes_cons_r (c : ascii) (s x : string) :
  Js.includes s x = true -> Js.includes (String c s) x = true.
Proof. intros H. cbn [Js.includes]. rewrite H. apply orb_true_r. Qed.

Lemma includes_drop (n : nat) (s x : string) :
  Js.includes (Js.drop n s) x = true -> Js.includes s x = true.
Proof.
  revert s. induction n as [|n IH]; intros s; [done|].
  destruct s as [|c s]; [done|]. simpl Js.drop. intros H.
  apply includes_cons_r. by apply IH.
Qed.

Lemma startsWith_includes (s x : string) :
  Js.startsWith s x = true -> Js.includes s x = true.
Proof. intros H. destruct s; cbn [Js.includes]; by rewrite H. Qed.

Lemma startsWith_nil_inv (x : string) :
  Js.startsWith EmptyString x = true -> x = EmptyString.
Proof. by destruct x. Qed.

Lemma includes_nil_inv (x : string) :
  Js.includes EmptyString x = true -> x = EmptyString.
Proof. cbn [Js.includes]. rewrite orb_false_r. apply startsWith_nil_inv. Qed.

(** Every piece of a split is a part of the string that was split. *)
Lemma split_scan_pieces (sep : string) (s : string) : forall skip,
  (forall x, Js.startsWith (Js.split_scan sep skip s).1 x = true ->
             Js.startsWith (Js.drop skip s) x = true)
  /\ (forall piece x,
        piece ∈ (Js.split_scan sep skip s).1 :: (Js.split_scan sep skip s).2 ->
        Js.includes piece x = true -> Js.includes (Js.drop skip s) x = true).
Proof.
  induction s as [|c s IH]; intros skip.
  - destruct skip; simpl; split; try done.
    + intros piece x Hin. apply list_elem_of_singleton in Hin as ->. done.
    + intros piece x Hin. apply list_elem_of_singleton in Hin as ->. done.
  - destruct skip as [|n].
    + rewrite split_scan_step. cbn [Js.drop].
      destruct (Js.startsWith (String c s) sep) eqn:Hsep; cbn [fst snd].
      * split.
        -- intros x Hx. apply startsWith_nil_inv in Hx as ->. done.
        -- intros piece x Hin Hx. apply elem_of_cons in Hin as [->|Hin].
           ++ apply includes_nil_inv in Hx as ->. apply includes_empty.
           ++ apply includes_cons_r. eapply includes_drop.
              by apply (proj2 (IH (String.length sep - 1)) piece x).
      * destruct (IH 0) as [IH1 IH2]. cbn [Js.drop] in IH1, IH2. split.
        -- intros x Hx. destruct x as [|a x]; [done|].
           rewrite startsWith_cons in Hx |- *.
           apply andb_true_iff in Hx as [-> Hx]. by apply IH1.
        -- intros piece x Hin Hx. apply elem_of_cons in Hin as [->|Hin].
           ++ cbn [Js.includes] in Hx. apply orb_true_iff in Hx as [Hx|Hx].
              ** apply startsWith_includes. destruct x as [|a x]; [done|].
                 rewrite startsWith_cons in Hx |- *.
                 apply andb_true_iff in Hx as [-> Hx]. by apply IH1.
              ** apply includes_cons_r. apply (IH2 _ x (list_elem_of_here _ _) Hx).
           ++ apply includes_cons_r. apply (IH2 piece x); [|done].
              by apply list_elem_of_further.
    + change (Js.split_scan sep (S n) (String c s)) with (Js.split_scan sep n s).
      cbn [Js.drop]. apply IH.
Qed.

Lemma split_pieces (s sep piece x : string) :
  sep ≠ EmptyString -> piece ∈ Js.split s sep ->
  Js.includes piece x = true -> Js.includes s x = true.
Proof.
  intros Hsep Hin Hx. destruct sep as [|a sep]; [done|].
  unfold Js.split in Hin.
  pose proof (proj2 (split_scan_pieces (String a sep) s 0) piece x) as H.
  destruct (Js.split_scan (String a sep) 0 s) as [h t]. by apply H.
Qed.

Lemma clause_without_reg E E' m r t :
  Js.includes t "#reg" = false ->
  clause_matches E m r t = clause_matches E' m r t
  /\ completes (clause_matches E m r t) = true.
Proof.
  intros Hreg. unfold clause_matches, text_predicate. rewrite Hreg. cbn [negb].
  split; [done|]. unfold oand. rewrite bind_Done.
  by destruct (_ || _).
Qed.

Lemma some_clause_without_reg E E' m r ts :
  Forall (fun t => Js.includes t "#reg" = false) ts ->
  some_clause E m r ts = some_clause E' m r ts
  /\ completes (some_clause E m r ts) = true.
Proof.
  induction 1 as [|t ts Ht _ [IH1 IH2]]; [done|]. simpl.
  destruct (clause_without_reg E E' m r t Ht) as [<- Hc]. rewrite <- IH1.
  split; [done|].
  destruct (clause_matches E m r t) as [[]| |]; done.
Qed.

Lemma filter_rows_ext cb cb' (rows : list TranslationRow) :
  (forall r, cb r = cb' r) -> filter_rows cb rows = filter_rows cb' rows.
Proof.
  intros H. induction rows as [|r rows IH]; [done|]. simpl. by rewrite H, IH.
Qed.

Lemma filter_rows_completes cb (rows : list TranslationRow) :
  (forall r, completes (cb r) = true) -> completes (filter_rows cb rows) = true.
Proof.
  intros H. induction rows as [|r rows IH]; [done|]. simpl.
  specialize (H r). destruct (cb r) as [b| |]; [|done|done]. rewrite bind_Done.
  destruct (filter_rows cb rows) as [rest| |]; done.
Qed.

(** A query that does not hold [#reg], in any letter case, never reaches
    the regular expression engine: it completes, and with the same rows
    whatever the engine accepts. *)
Theorem plain_query_ignores_the_engine (E E' : RegExpEngine)
    (rows : list TranslationRow) (searchTerms : string)
    (rowAiLoading : gmap string bool) :
  Js.includes (Js.toLowerCase searchTerms) "#reg" = false ->
  filteredRows E rows searchTerms rowAiLoading
  = filteredRows E' rows searchTerms rowAiLoading
  /\ completes (filteredRows E rows searchTerms rowAiLoading) = true.
Proof.
  intros Hreg.
  assert (Forall (fun t => Js.includes t "#reg" = false)
            (Js.split (Js.toLowerCase searchTerms) "||")) as Hts.
  { apply Forall_forall. intros t Ht.
    destruct (Js.includes t "#reg") eqn:E1; [|done].
    rewrite (split_pieces (Js.toLowerCase searchTerms) "||" t "#reg") in Hreg; done. }
  unfold filteredRows. split.
  - apply filter_rows_ext. intros r. by apply some_clause_without_reg.
  - apply filter_rows_completes. intros r.
    by apply (some_clause_without_reg E E').
Qed.

Lemma plain_query_ignores_the_engine_witness :
  filteredRows paren_engine [greeting_row; edited_row] "Salut #KEY||(bon" ∅
  = filteredRows refusing_engine [greeting_row; edited_row] "Salut #KEY||(bon" ∅
  /\ completes (filteredRows paren_engine [greeting_row; edited_row]
                  "Salut #KEY||(bon" ∅) = true.
Proof.
  apply (plain_query_ignores_the_engine paren_engine refusing_engine
           [greeting_row; edited_row] "Salut #KEY||(bon" ∅).
  reflexivity.
Defined.

(** Two clauses, one of them with a pattern that compiles: the filter
    completes. *)
Lemma valid_patterns_complete_witness :
  exists kept,
    filteredRows paren_engine [greeting_row; edited_row] "(hel+o) #reg||#modified" ∅
    = Done kept.
Proof.
  apply (valid_patterns_complete paren_engine ∅ "(hel+o) #reg||#modified"
           [greeting_row; edited_row]).
  repeat constructor; by eexists.
Defined.

(** ** Fetching again *)

Lemma sublist_map {A B} (f : A -> B) (l1 l2 : list A) :
  sublist l1 l2 -> sublist (map f l1) (map f l2).
Proof.
  induction 1; simpl; [constructor|by apply sublist_skip|by apply sublist_cons].
Qed.

(** A fetch never makes a row count as modified that did not before: the
    rows that are modified after the rebuild carry the keys of rows that
    were modified before it, and there are at most as many. *)
Theorem Reconcile_modified_le (R : list TranslationRow) (source target : JVal) :
  let rows := Reconcile R (flattenObject source) (flattenObject target) in
  modifiedCount rows <= modifiedCount R
  /\ forall r', r' ∈ rows -> targetValue r' ≠ originalTargetValue r' ->
       exists r, r ∈ R /\ key r = key r' /\ targetValue r ≠ originalTargetValue r
                 /\ targetValue r' = targetValue r.
Proof.
  intros rows.
  assert (forall r', r' ∈ rows -> targetValue r' ≠ originalTargetValue r' ->
            exists r, r ∈ R /\ key r = key r' /\ targetValue r ≠ originalTargetValue r
                      /\ targetValue r' = targetValue r) as Hfrom.
  { intros r' Hr' Hmod. apply elem_of_Reconcile in Hr' as [Heq _].
    rewrite Heq in Hmod |- *. unfold reconcile_row in *. cbn [targetValue originalTargetValue key] in *.
    destruct (find_row R (key r')) as [r|] eqn:E; simpl in *.
    - apply find_row_Some in E as [Hr Hk].
      case_bool_decide as Hb; [done|].
      exists r. split; [done|]. split; [done|]. split; [congruence|].
      apply str_or_Some.
    - done. }
  split; [|done].
  unfold modifiedCount.
  set (M' := filter (fun r : TranslationRow => targetValue r ≠ originalTargetValue r) rows).
  set (M := filter (fun r : TranslationRow => targetValue r ≠ originalTargetValue r) R).
  rewrite <- (length_map key M'), <- (length_map key M).
  apply submseteq_length, NoDup_submseteq.
  - apply (sublist_NoDup _ (map key rows)).
    + apply Reconcile_keys_NoDup, flattenObject_NoDup.
    + apply sublist_map, sublist_filter.
  - intros k Hk. apply list_elem_of_fmap in Hk as (r' & -> & Hr').
    apply list_elem_of_filter in Hr' as [Hmod Hr'].
    destruct (Hfrom r' Hr' Hmod) as (r & Hr & Hkey & Hrmod & _).
    rewrite <- Hkey. apply list_elem_of_fmap_2. by apply list_elem_of_filter.
Qed.

(** ** Suggestions and the texts of the rows *)

Lemma set_suggestion_texts rows k s :
  map texts_of (set_suggestion rows k s) = map texts_of rows.
Proof.
  induction rows as [|r rows IH]; [done|]. simpl.
  destruct (String.eqb (key r) k); simpl; [done|by rewrite IH].
Qed.

Lemma write_suggestions_texts rows suggestions :
  map texts_of (write_suggestions rows suggestions) = map texts_of rows.
Proof.
  unfold write_suggestions. revert rows.
  induction suggestions as [|[k s] suggestions IH]; intros rows; [done|].
  simpl. by rewrite IH, set_suggestion_texts.
Qed.

Lemma suggest_loop_texts service todo st :
  map texts_of (newRows (suggest_loop service todo st).1) = map texts_of (newRows st).
Proof.
  revert st. induction todo as [|chunk todo IH]; intros st; [done|]. simpl.
  destruct (service _ _) as [[|suggestions]|e]; [done| |done].
  rewrite IH. simpl. apply write_suggestions_texts.
Qed.

Lemma modifiedCount_texts rows rows' :
  map texts_of rows = map texts_of rows' -> modifiedCount rows = modifiedCount rows'.
Proof.
  unfold modifiedCount. revert rows'.
  induction rows as [|r rows IH]; intros [|r' rows'] H; try done.
  simpl in H. injection H as Hk Hs Ht Ho H.
  rewrite !filter_cons. rewrite Ht, Ho.
  destruct (decide (targetValue r' ≠ originalTargetValue r')); simpl; by rewrite (IH rows').
Qed.

(** A run of suggestions, however its requests end, writes nothing but
    suggestions: the keys, the sources, the targets and the original targets
    of the rows are what they were, row by row, and as many rows count as
    modified as before. *)
Theorem suggestions_leave_the_texts
    (service : nat -> list (string * string) -> Settled Parsed)
    (rows filtered : list TranslationRow) (geminiApiKey : string)
    (suggestionChunkSize : nat) (replaceExistAISuggestions : bool)
    (rowAiLoading : gmap string bool) :
  let run := handleSuggestAll_on service rows filtered geminiApiKey
               suggestionChunkSize replaceExistAISuggestions rowAiLoading in
  map texts_of (rows_after run) = map texts_of rows
  /\ modifiedCount (rows_after run) = modifiedCount rows.
Proof.
  intros run.
  assert (map texts_of (rows_after run) = map texts_of rows) as H;
    [|split; [done|by apply modifiedCount_texts]].
  unfold run, handleSuggestAll_on. destruct rows as [|r0 rows0]; [done|].
  destruct (negb (Js.truthy_string geminiApiKey)); [done|].
  match goal with
  | |- context [suggest_loop ?s ?t ?st] =>
      pose proof (suggest_loop_texts s t st) as Hl;
      destruct (suggest_loop s t st) as [st' [e|]]
  end; exact Hl.
Qed.

(** ** The requests of a run *)

Lemma chunks_from_sizes (fuel chunkSize : nat) (l : list TranslationRow) :
  0 < chunkSize ->
  Forall (fun chunk => 1 <= length chunk <= chunkSize) (chunks_from fuel chunkSize l).
Proof.
  intros Hpos. revert l. induction fuel as [|fuel IH]; intros l.
  - destruct l; constructor.
  - destruct l as [|r l]; [constructor|].
    change (chunks_from (S fuel) chunkSize (r :: l))
      with (take chunkSize (r :: l) :: chunks_from fuel chunkSize (drop chunkSize (r :: l))).
    constructor; [|apply IH].
    rewrite length_take. simpl. lia.
Qed.

Lemma suggest_loop_calls service todo st :
  exists sent rest,
    todo = sent ++ rest
    /\ calls (suggest_loop service todo st).1 = calls st ++ map sourceTexts sent.
Proof.
  revert st. induction todo as [|chunk todo IH]; intros st.
  - exists [], []. split; [done|]. simpl. by rewrite app_nil_r.
  - simpl. destruct (service _ _) as [[|suggestions]|e].
    + exists [chunk], todo. done.
    + destruct (IH (mkLoop (write_suggestions (newRows st) suggestions)
                           (set_flags false chunk (newRowLoading st))
                           (calls st ++ [sourceTexts chunk])))
        as (sent & rest & -> & ->).
      exists (chunk :: sent), rest. split; [done|]. simpl. by rewrite <- app_assoc.
    + exists [chunk], todo. done.
Qed.

Lemma sourceTexts_concat (l : list (list TranslationRow)) :
  sourceTexts (concat l) = concat (map sourceTexts l).
Proof.
  induction l as [|c l IH]; [done|]. simpl. unfold sourceTexts in *.
  by rewrite map_app, IH.
Qed.

(** The requests of a run, whatever the service answers: each one carries
    at least one item and at most the chunk size, and put end to end they
    are an initial part of the candidate rows, in the order of the table,
    so that no row is asked for twice. *)
Theorem requests_follow_the_candidates
    (service : nat -> list (string * string) -> Settled Parsed)
    (rows filtered : list TranslationRow) (geminiApiKey : string)
    (suggestionChunkSize : nat) (replaceExistAISuggestions : bool)
    (rowAiLoading : gmap string bool) :
  let run := handleSuggestAll_on service rows filtered geminiApiKey
               suggestionChunkSize replaceExistAISuggestions rowAiLoading in
  let chunkSize := match suggestionChunkSize with O => 10 | n => n end in
  Forall (fun texts => 1 <= length texts <= chunkSize) (requests run)
  /\ concat (requests run)
       `prefix_of` sourceTexts (candidates filtered replaceExistAISuggestions rowAiLoading).
Proof.
  intros run chunkSize.
  assert (0 < chunkSize) as Hpos by (unfold chunkSize; destruct suggestionChunkSize; lia).
  set (updatedRows := candidates filtered replaceExistAISuggestions rowAiLoading).
  assert (exists sent rest, chunks chunkSize updatedRows = sent ++ rest
                            /\ requests run = map sourceTexts sent) as (sent & rest & Hch & ->).
  { unfold run, handleSuggestAll_on. destruct rows as [|r0 rows0].
    - exists [], (chunks chunkSize updatedRows). done.
    - destruct (negb (Js.truthy_string geminiApiKey)).
      + exists [], (chunks chunkSize updatedRows). done.
      + fold chunkSize. fold updatedRows.
        match goal with
        | |- context [suggest_loop ?s ?t ?st] =>
            destruct (suggest_loop_calls s t st) as (sent & rest & Ht & Hc);
            destruct (suggest_loop s t st) as [st' [e|]]
        end; exists sent, rest; simpl in *; by rewrite Hc. }
  split.
  - pose proof (chunks_from_sizes (length updatedRows) chunkSize updatedRows Hpos) as Hs.
    fold (chunks chunkSize updatedRows) in Hs. rewrite Hch in Hs.
    apply Forall_app in Hs as [Hs _]. apply Forall_fmap.
    eapply Forall_impl; [exact Hs|]. intros chunk Hc. simpl.
    unfold sourceTexts. by rewrite length_map.
  - exists (sourceTexts (concat rest)).
    rewrite <- (chunks_concat chunkSize updatedRows Hpos), Hch, concat_app.
    unfold sourceTexts at 1. rewrite map_app. fold (sourceTexts (concat sent)).
    fold (sourceTexts (concat rest)). by rewrite sourceTexts_concat.
Qed.

(** The first request of two fails: the first row does not stay in
    flight. *)
Lemma flags_lowered_without_exception_witness :
  ~ in_flight
      (rowAiLoading_after
         (handleSuggestAll failing_first [hello_row; bye_row] [hello_row; bye_row]
            "key" 1 false ∅))
      (key hello_row).
Proof.
  refine (proj1 (flags_lowered_without_exception failing_first
                   [hello_row; bye_row] [hello_row; bye_row] "key" 1 false ∅ _)
            hello_row _).
  - intros [|n] texts; discriminate.
  - vm_compute. apply list_elem_of_here.
Defined.

(** ** The suggestion button of a row *)

(** The handler of one row lowers the flag of its row whatever the provider
    does: a request that fails and a text that does not parse are answered
    with the empty object, and an answer of [null] throws only after the
    flag was lowered. *)
Theorem row_suggestion_lowers_its_flag
    (generateContent : list (string * string) -> GenResult)
    (rows : list TranslationRow) (row : TranslationRow) (geminiApiKey : string)
    (rowAiLoading : gmap string bool) :
  Js.truthy_string geminiApiKey = true ->
  let run := handleSuggestRow generateContent rows row geminiApiKey rowAiLoading in
  let asked := generateContent [(key row, sourceValue row)] in
  rowAiLoading_after run = <[key row := false]> rowAiLoading
  /\ ~ in_flight (rowAiLoading_after run) (key row)
  /\ requests run = [[(key row, sourceValue row)]]
  /\ rows_after run = write_suggestions rows (answer asked)
  /\ (alerted run = true <-> asked = GenText (Some ParsedNull)).
Proof.
  intros Hkey run asked.
  unfold run, handleSuggestRow, handleSuggestRow_on, getTranslationSuggestions.
  rewrite Hkey. cbn [negb]. cbv iota zeta. fold asked.
  unfold in_flight.
  destruct asked as [|[[|suggestions]|]]; cbn [rowAiLoading_after requests rows_after alerted answer];
    rewrite ?lookup_insert_eq; repeat split; try done.
Qed.

Lemma row_suggestion_lowers_its_flag_witness :
  ~ in_flight
      (rowAiLoading_after
         (handleSuggestRow (fun _ => GenText (Some ParsedNull)) [hello_row] hello_row
            "key" ∅))
      (key hello_row).
Proof.
  exact (proj1 (proj2 (row_suggestion_lowers_its_flag
                         (fun _ => GenText (Some ParsedNull)) [hello_row] hello_row
                         "key" ∅ eq_refl))).
Defined.

(** ** The handlers of a row *)

Lemma map_frame (f : TranslationRow -> TranslationRow) (rows : list TranslationRow) :
  (forall r, frame_of (f r) = frame_of r) -> map frame_of (map f rows) = map frame_of rows.
Proof. intros H. rewrite map_map. apply map_ext. intros r. apply H. Qed.

Lemma map_elsewhere (f : TranslationRow -> TranslationRow) (k : string)
    (rows : list TranslationRow) i r :
  rows !! i = Some r -> key r ≠ k ->
  map (fun r => if String.eqb (key r) k then f r else r) rows !! i = Some r.
Proof.
  intros Hi Hk. rewrite list_lookup_fmap, Hi. simpl.
  by destruct (String.eqb_spec (key r) k).
Qed.

(** Editing, reverting with Tab, accepting and discarding a suggestion and
    reverting the project keep the table in place: as many rows, with the
    same keys, sources and original targets in the same order; and the four
    handlers of a row leave every row of another key as it is. *)
Theorem row_handlers_keep_the_table (rows : list TranslationRow) (row : TranslationRow)
    (value : string) (confirmed : bool) :
  let results :=
    [handleTargetChange rows row value; handleTargetTab rows row;
     handleDiscardSuggestion rows row; handleAcceptSuggestion rows row] in
  Forall (fun rows' => map frame_of rows' = map frame_of rows
                       /\ forall i r, rows !! i = Some r -> key r ≠ key row ->
                                      rows' !! i = Some r)
         results
  /\ map frame_of (handleRevertProject confirmed rows) = map frame_of rows.
Proof.
  cbv zeta. split.
  - repeat constructor;
      try (apply map_frame; intros r; by destruct (String.eqb (key r) (key row)));
      intros i r Hi Hk;
      by apply (map_elsewhere _ (key row)).
  - destruct confirmed; [|done]. by apply map_frame.
Qed.

Lemma map_row_id (f : TranslationRow -> TranslationRow) (k : string)
    (rows : list TranslationRow) :
  (forall r, r ∈ rows -> key r = k -> f r = r) ->
  map (fun r => if String.eqb (key r) k then f r else r) rows = rows.
Proof.
  intros H. induction rows as [|r rows IH]; [done|]. simpl.
  rewrite IH by (intros r' Hr'; apply H; by apply list_elem_of_further).
  destruct (String.eqb_spec (key r) k) as [Hk|_]; [|done].
  by rewrite H by (done || apply list_elem_of_here).
Qed.

(** An edit and its undoing: in a table with distinct keys, typing any
    value into the target of a row that was not modified and then pressing
    Tab in that row gives back the table as it was; so does typing a lone
    tab at once. *)
Theorem tab_undoes_an_edit (rows : list TranslationRow) (row edited : TranslationRow)
    (value : string) :
  NoDup (map key rows) -> row ∈ rows ->
  targetValue row = originalTargetValue row ->
  find_row (handleTargetChange rows row value) (key row) = Some edited ->
  handleTargetTab (handleTargetChange rows row value) edited = rows
  /\ handleTargetChange rows row tab = rows.
Proof.
  intros Hnd Hrow Hsame Hedited.
  assert (forall r, r ∈ rows -> key r = key row -> r = row) as Huniq.
  { intros r Hr Hk. pose proof (find_row_unique rows r Hnd Hr) as H1.
    pose proof (find_row_unique rows row Hnd Hrow) as H2. congruence. }
  apply find_row_Some in Hedited as [Hin Hk].
  unfold handleTargetChange in Hin. apply list_elem_of_fmap in Hin as (r0 & -> & Hr0).
  assert (originalTargetValue
            (if String.eqb (key r0) (key row)
             then mkRow (key r0) (sourceValue r0)
                    (if negb (String.eqb value tab) then value
                     else originalTargetValue row)
                    (originalTargetValue r0) (pastSourceValue r0) (aiSuggestion r0)
             else r0) = originalTargetValue row) as Horig.
  { destruct (String.eqb_spec (key r0) (key row)) as [Hk0|Hk0]; simpl in *.
    - by rewrite (Huniq r0 Hr0 Hk0).
    - by rewrite (Huniq r0 Hr0 Hk). }
  split.
  - unfold handleTargetTab, handleTargetChange. rewrite map_map, Hk, Horig.
    rewrite <- (map_id rows) at 2.
    apply map_ext_in. intros r Hr. apply list_elem_of_In in Hr.
    destruct (String.eqb_spec (key r) (key row)) as [Hkr|Hkr]; cbn [key].
    + rewrite Hkr, String.eqb_refl. rewrite (Huniq r Hr Hkr).
      destruct row; simpl in *; by subst.
    + by destruct (String.eqb_spec (key r) (key row)).
  - unfold handleTargetChange. rewrite String.eqb_refl. simpl negb. cbv iota.
    apply map_row_id. intros r Hr Hkr. rewrite (Huniq r Hr Hkr).
    destruct row; simpl in *; by subst.
Qed.

Lemma tab_undoes_an_edit_witness :
  handleTargetTab (handleTargetChange [greeting_row] greeting_row "Salut") edited_row
  = [greeting_row]
  /\ handleTargetChange [greeting_row] greeting_row tab = [greeting_row].
Proof.
  apply (tab_undoes_an_edit [greeting_row] greeting_row edited_row "Salut").
  - apply NoDup_singleton.
  - apply list_elem_of_here.
  - reflexivity.
  - reflexivity.
Defined.

(** Reverting the project, once confirmed, leaves no row modified: the
    counter is zero and the query [#modified] shows nothing; reverting twice
    is reverting once, and a revert that is not confirmed changes nothing. *)
Theorem revert_clears_modifications (E : RegExpEngine) (rows : list TranslationRow)
    (rowAiLoading : gmap string bool) :
  modifiedCount (handleRevertProject true rows) = 0
  /\ filteredRows E (handleRevertProject true rows) "#modified" rowAiLoading = Done []
  /\ handleRevertProject true (handleRevertProject true rows)
     = handleRevertProject true rows
  /\ handleRevertProject false rows = rows.
Proof.
  split; [|split; [|split]].
  - unfold modifiedCount, handleRevertProject.
    induction rows as [|r rows IH]; [done|]. simpl.
    rewrite filter_cons. by rewrite decide_False by (simpl; congruence).
  - rewrite (filteredRows_pure _ _ _ _ _ (row_matches_modified E rowAiLoading)).
    f_equal. unfold handleRevertProject.
    induction rows as [|r rows IH]; [done|]. simpl. by rewrite String.eqb_refl.
  - unfold handleRevertProject. rewrite map_map. by apply map_ext.
  - done.
Qed.

(** Accepting the suggestion that is displayed for a row, in a table with
    distinct keys: the suggestion becomes the target of that row and stays
    its suggestion, and the row counts as modified exactly when the
    suggestion differs from its original target. *)
Theorem accept_takes_the_suggestion (rows : list TranslationRow) (row : TranslationRow)
    (s : string) :
  NoDup (map key rows) -> row ∈ rows ->
  aiSuggestion row = Some s -> s ≠ EmptyString ->
  exists accepted,
    find_row (handleAcceptSuggestion rows row) (key row) = Some accepted
    /\ targetValue accepted = s
    /\ aiSuggestion accepted = Some s
    /\ (targetValue accepted ≠ originalTargetValue accepted
        <-> s ≠ originalTargetValue row).
Proof.
  intros Hnd Hrow Hs Hne.
  set (accepted := mkRow (key row) (sourceValue row) s (originalTargetValue row)
                     (pastSourceValue row) (aiSuggestion row)).
  exists accepted. split; [|by repeat split].
  assert (str_or (aiSuggestion row) (targetValue row) = s) as Hor
    by (rewrite Hs; by destruct s).
  assert (map key (handleAcceptSuggestion rows row) = map key rows) as Hkeys.
  { unfold handleAcceptSuggestion. rewrite map_map. apply map_ext. intros r.
    by destruct (String.eqb (key r) (key row)). }
  assert (accepted ∈ handleAcceptSuggestion rows row) as Hin.
  { unfold handleAcceptSuggestion. apply list_elem_of_fmap. exists row.
    split; [|done]. by rewrite String.eqb_refl, Hor. }
  rewrite <- Hkeys in Hnd. exact (find_row_unique _ accepted Hnd Hin).
Qed.

Lemma accept_takes_the_suggestion_witness :
  exists accepted,
    find_row (handleAcceptSuggestion
                [mkRow "'a'.'b'" "Hello" "Bonjour" "Bonjour" None (Some "Salut")]
                (mkRow "'a'.'b'" "Hello" "Bonjour" "Bonjour" None (Some "Salut")))
      "'a'.'b'" = Some accepted
    /\ targetValue accepted = "Salut"
    /\ aiSuggestion accepted = Some "Salut"
    /\ (targetValue accepted ≠ originalTargetValue accepted <-> "Salut" ≠ "Bonjour").
Proof.
  apply (accept_takes_the_suggestion
           [mkRow "'a'.'b'" "Hello" "Bonjour" "Bonjour" None (Some "Salut")]
           (mkRow "'a'.'b'" "Hello" "Bonjour" "Bonjour" None (Some "Salut")) "Salut").
  - apply NoDup_singleton.
  - apply list_elem_of_here.
  - reflexivity.
  - discriminate.
Defined.

(** ** The project list *)

Lemma find_is_Some {A} (f : A -> bool) (l : list A) (a : A) :
  a ∈ l -> f a = true -> is_Some (List.find f l).
Proof.
  induction l as [|b l IH]; intros Hin Hf.
  - by apply elem_of_nil in Hin.
  - simpl. destruct (f b) eqn:E; [by eexists|].
    apply elem_of_cons in Hin as [->|Hin]; [congruence|by apply IH].
Qed.


Lemma find_Some_elem {A} (f : A -> bool) (l : list A) (a : A) :
  List.find f l = Some a -> a ∈ l /\ f a = true.
Proof.
  intros H. apply find_some in H as [Hin Hf]. by apply list_elem_of_In in Hin.
Qed.

Lemma activeProject_Some st p :
  activeProject st = Some p ->
  p ∈ App.projects st /\ App.activeProjectId st = Some (Project.id p).
Proof.
  intros H. apply find_Some_elem in H as [Hin Hf].
  by apply bool_decide_eq_true in Hf.
Qed.

Lemma activeProject_named st p :
  p ∈ App.projects st -> App.activeProjectId st = Some (Project.id p) ->
  is_Some (activeProject st).
Proof.
  intros Hin Hid. apply (find_is_Some _ _ p Hin). by apply bool_decide_eq_true.
Qed.

Lemma str_or_nonempty (o : option string) (d : string) :
  d ≠ EmptyString -> str_or o d ≠ EmptyString.
Proof. intros Hd. by destruct o as [[|c s]|]. Qed.

Lemma truthy_nonempty (s : string) : Js.truthy_string s = true -> s ≠ EmptyString.
Proof. by destruct s. Qed.

Lemma project_list_ok_ext st st' :
  App.projects st' = App.projects st -> App.activeProjectId st' = App.activeProjectId st ->
  project_list_ok st -> project_list_ok st'.
Proof.
  unfold project_list_ok, activeProject. by intros -> ->.
Qed.

Lemma updated_ids u now st :
  map Project.id (App.projects (updateActiveProject u now st))
  = map Project.id (App.projects st).
Proof.
  simpl. rewrite map_map. apply map_ext. intros p. by destruct (bool_decide _).
Qed.

Lemma updated_project_list_ok u now st :
  (forall n, Updates.name u = Some n -> n ≠ EmptyString) ->
  project_list_ok st -> project_list_ok (updateActiveProject u now st).
Proof.
  intros Hname (Hactive & Hnd & Hall). split; [|split].
  - destruct Hactive as [p Hp]. apply activeProject_Some in Hp as [Hin Hid].
    set (f := fun p => if bool_decide (Some (Project.id p) = App.activeProjectId st)
                       then apply_updates u now p else p).
    apply (activeProject_named _ (f p)).
    + simpl. by apply (list_elem_of_fmap_2 f).
    + simpl. rewrite Hid. unfold f. by destruct (bool_decide _).
  - by rewrite updated_ids.
  - simpl. apply Forall_fmap. eapply Forall_impl; [exact Hall|].
    intros p [Hid Hn]. simpl. destruct (bool_decide _); [|done]. simpl.
    split; [done|]. destruct (Updates.name u) as [n|] eqn:E; simpl; [by apply Hname|done].
Qed.

Lemma appended_project_list_ok st (p : Project.t) st' :
  App.projects st' = App.projects st ++ [p] ->
  App.activeProjectId st' = Some (Project.id p) ->
  Project.id p ≠ EmptyString -> Project.name p ≠ EmptyString ->
  Project.id p ∉ map Project.id (App.projects st) ->
  project_list_ok st -> project_list_ok st'.
Proof.
  intros Hps Hid Hne Hname Hfresh (_ & Hnd & Hall). split; [|split].
  - apply (activeProject_named _ p); [|done]. rewrite Hps.
    apply elem_of_app. right. apply list_elem_of_here.
  - rewrite Hps, map_app. apply NoDup_app. split; [done|].
    split; [|apply NoDup_singleton].
    intros i Hi Hi'. apply list_elem_of_singleton in Hi'. by subst.
  - rewrite Hps. apply Forall_app. split; [done|]. by repeat constructor.
Qed.

(** Every handler of the project list keeps it in order: after a step
    there is still an active project, the ids are still distinct and not
    empty, and no project has an empty name. *)
Theorem step_keeps_the_project_list (st st' : App.t) :
  project_list_ok st -> step st st' -> project_list_ok st'.
Proof.
  intros Hok Hstep. destruct Hstep as
    [answer uuid now st Hne Hfresh|editNameValue now st|confirmed uuid now st Hne Hfresh
    |p st Hin|imported uuid now st Hne Hfresh|u now st Hname].
  - apply (appended_project_list_ok st
             (createEmptyProject (str_or answer "New Project") uuid now)); try done.
    by apply str_or_nonempty.
  - unfold handleRenameProject. destruct (activeProject st) as [p|] eqn:Ep.
    + destruct (Js.truthy_string (Js.trim editNameValue)) eqn:Et; simpl negb; cbv iota.
      * apply (project_list_ok_ext (updateActiveProject
                 (rename_update (Js.trim editNameValue)) now st)); [done|done|].
        apply updated_project_list_ok; [|done].
        intros n [= <-]. by apply truthy_nonempty.
      * by apply (project_list_ok_ext st).
    + by apply (project_list_ok_ext st).
  - unfold handleDeleteProject. destruct (activeProject st) as [active|] eqn:Ea; [|done].
    destruct confirmed; [|done]. simpl negb. cbv iota zeta.
    destruct Hok as (_ & Hnd & Hall).
    destruct (List.filter _ (App.projects st)) as [|first remaining] eqn:Ef.
    + split; [|split].
      * apply (activeProject_named _ (createEmptyProject "Default Project" uuid now));
          [apply list_elem_of_here|done].
      * apply NoDup_singleton.
      * by repeat constructor.
    + assert (sublist (first :: remaining) (App.projects st)) as Hsub.
      { rewrite <- Ef. clear. induction (App.projects st) as [|q l IH]; [constructor|].
        simpl. destruct (negb _); [by apply sublist_skip|by apply sublist_cons]. }
      split; [|split].
      * apply (activeProject_named _ first); [apply list_elem_of_here|done].
      * simpl App.projects. eapply sublist_NoDup; [exact Hnd|]. by apply sublist_map.
      * simpl App.projects. apply Forall_forall. intros q Hq.
        rewrite Forall_forall in Hall. apply Hall. by eapply elem_of_sublist.
  - destruct Hok as (_ & Hnd & Hall). split; [|split]; [|done|done].
    by apply (activeProject_named _ p).
  - unfold handleImportProject, importProject.
    destruct (Js.truthy_string (Project.id imported)) eqn:Ei; [|done].
    destruct (Js.truthy_string (Project.name imported)) eqn:En; [|done].
    simpl orb. cbv iota.
    eapply appended_project_list_ok; [reflexivity|reflexivity| | | |done]; try done.
    simpl. by apply truthy_nonempty.
  - apply updated_project_list_ok; [|done]. intros n Hn. congruence.
Qed.

Lemma fresh_start_ok : project_list_ok fresh_start.
Proof.
  split; [by eexists|]. split; [apply NoDup_singleton|]. by repeat constructor.
Qed.

Lemma step_keeps_the_project_list_witness :
  project_list_ok (handleCreateProject None "id-2" 1 fresh_start).
Proof.
  apply (step_keeps_the_project_list fresh_start).
  - exact fresh_start_ok.
  - apply step_create; [discriminate|].
    intros Hin. apply list_elem_of_singleton in Hin. discriminate.
Defined.

(** Saving and loading: the state that the save effect stores for a
    project list in order is read back by the load effect with the same
    projects, the same active project and the same settings. *)
Theorem reload_restores_the_projects (st : App.t) (stored : option GlobalState.t)
    (uuid : string) (now : Z) :
  project_list_ok st ->
  let st' := loadEffect (saveEffect st stored) [] uuid now first_render in
  App.projects st' = App.projects st
  /\ App.activeProjectId st' = App.activeProjectId st
  /\ App.settings st' = App.settings st
  /\ activeProject st' = activeProject st.
Proof.
  intros ([p Hp] & _ & Hall) st'.
  apply activeProject_Some in Hp as [Hin Hid].
  assert (Project.id p ≠ EmptyString) as Hne.
  { rewrite Forall_forall in Hall. by apply Hall. }
  assert (App.projects st' = App.projects st
          /\ App.activeProjectId st' = App.activeProjectId st
          /\ App.settings st' = App.settings st) as (H1 & H2 & H3).
  { unfold st', loadEffect, saveEffect.
    destruct (App.projects st) as [|first rest] eqn:E; [by apply elem_of_nil in Hin|].
    simpl. rewrite Hid. split; [done|]. split; [|done].
    f_equal. by destruct (Project.id p). }
  split; [done|]. split; [done|]. split; [done|].
  unfold activeProject. by rewrite H1, H2.
Qed.

Lemma reload_restores_the_projects_witness :
  App.projects (loadEffect (saveEffect fresh_start None) [] "id-9" 5 first_render)
  = App.projects fresh_start.
Proof.
  exact (proj1 (reload_restores_the_projects fresh_start None "id-9" 5 fresh_start_ok)).
Defined.


(** Deleting, once confirmed: no project with the id of the active project
    is left; every other project stays; the list is not left empty (a
    default project takes the place of the last one) and its first project
    becomes the active one.  A deletion that is not confirmed changes
    nothing. *)
Theorem delete_removes_the_active_project (st : App.t) (active : Project.t)
    (uuid : string) (now : Z) :
  activeProject st = Some active -> uuid ≠ Project.id active ->
  let st' := handleDeleteProject true uuid now st in
  (Project.id active ∉ map Project.id (App.projects st'))
  /\ (forall p, p ∈ App.projects st -> Project.id p ≠ Project.id active ->
                p ∈ App.projects st')
  /\ (exists first others,
        App.projects st' = first :: others
        /\ App.activeProjectId st' = Some (Project.id first))
  /\ handleDeleteProject false uuid now st = st.
Proof.
  intros Hactive Hfresh st'. unfold st', handleDeleteProject. rewrite Hactive.
  simpl negb. cbv iota zeta.
  set (keep := fun p => negb (String.eqb (Project.id p) (Project.id active))).
  assert (forall p, p ∈ List.filter keep (App.projects st) <->
                    p ∈ App.projects st /\ Project.id p ≠ Project.id active) as Hkeep.
  { intros p. rewrite list_elem_of_In, filter_In, <- list_elem_of_In. unfold keep.
    rewrite negb_true_iff.
    destruct (String.eqb_spec (Project.id p) (Project.id active)); intuition congruence. }
  destruct (List.filter keep (App.projects st)) as [|first others] eqn:Ef.
  - split; [|split; [|split]]; simpl.
    + intros Hin. apply list_elem_of_singleton in Hin. congruence.
    + intros p Hp Hid. exfalso. apply (elem_of_nil p). by apply Hkeep.
    + by eexists _, _.
    + done.
  - split; [|split; [|split]]; simpl App.projects.
    + intros Hin. apply list_elem_of_fmap in Hin as (p & Hid & Hp).
      apply Hkeep in Hp as [_ Hp]. congruence.
    + intros p Hp Hid. by apply Hkeep.
    + by eexists _, _.
    + done.
Qed.

Lemma delete_removes_the_active_project_witness :
  "id-1" ∉ map Project.id (App.projects (handleDeleteProject true "id-3" 2 fresh_start)).
Proof.
  exact (proj1 (delete_removes_the_active_project fresh_start
                  (createEmptyProject "Default Project" "id-1" 0) "id-3" 2
                  eq_refl ltac:(discriminate))).
Defined.

(** ** Base64 *)

Example base64_of_text :
  bytesToBase64 (list_byte_of_string "Hi!") = "SGkh"
  /\ bytesToBase64 (list_byte_of_string "Hi") = "SGk="
  /\ bytesToBase64 (list_byte_of_string "H") = "SA=="
  /\ base64ToBytes " SG k=" = Some (list_byte_of_string "Hi")
  /\ base64ToBytes "SGk" = Some (list_byte_of_string "Hi")
  /\ base64ToBytes "SGk=="%string = None
  /\ base64ToBytes "S" = None
  /\ base64ToBytes "SG-k" = None.
Proof. repeat split; vm_compute; reflexivity. Qed.

(** Induction on a byte sequence, three bytes at a time. *)
Lemma triples_ind {A} (P : list A -> Prop) :
  P [] -> (forall a, P [a]) -> (forall a b, P [a; b]) ->
  (forall a b c rest, P rest -> P (a :: b :: c :: rest)) ->
  forall l, P l.
Proof.
  intros H0 H1 H2 H3 l.
  assert (P l /\ (forall a, P (a :: l)) /\ (forall a b, P (a :: b :: l))) as [H _].
  { induction l as [|x l (IH0 & IH1 & IH2)]; [by repeat split|].
    split; [apply IH1|]. split; [intros a; apply IH2|]. intros a b. by apply H3. }
  exact H.
Qed.

Lemma quantum3 (a b c : N) :
  (a < 256)%N -> (b < 256)%N -> (c < 256)%N ->
  let n := (a * 65536 + b * 256 + c)%N in
  let buffer := ((((0 * 64 + n / 262144) * 64 + n / 4096 mod 64) * 64
                  + n / 64 mod 64) * 64 + n mod 64)%N in
  buffer = n /\ (n / 65536)%N = a /\ (n / 256 mod 256)%N = b /\ (n mod 256)%N = c
  /\ (n / 262144 < 64)%N.
Proof.
  intros Ha Hb Hc n buffer.
  assert (n / 64 / 64 = n / 4096)%N as E1 by (by rewrite N.Div0.div_div).
  assert (n / 4096 / 64 = n / 262144)%N as E2 by (by rewrite N.Div0.div_div).
  pose proof (N.Div0.div_mod n 64) as D1.
  pose proof (N.Div0.div_mod (n / 64) 64) as D2.
  pose proof (N.Div0.div_mod (n / 64 / 64) 64) as D3.
  rewrite E1 in D2, D3. rewrite E2 in D3.
  assert (n / 262144 < 64)%N as Hs by (apply N.Div0.div_lt_upper_bound; unfold n; lia).
  assert (n / 4096 = 64 * (n / 262144) + n / 4096 mod 64)%N as D3' by exact D3.
  assert (buffer = n) as Hbuf by (unfold buffer; lia).
  split; [done|]. split; [|split; [|split; [|done]]].
  - symmetry. apply (N.div_unique n 65536 a (b * 256 + c)); unfold n; lia.
  - assert (n / 256 = a * 256 + b)%N as ->
      by (symmetry; apply (N.div_unique n 256 _ c); unfold n; lia).
    symmetry. apply (N.mod_unique _ 256 a b); lia.
  - symmetry. apply (N.mod_unique n 256 (a * 256 + b) c); unfold n; lia.
Qed.

Lemma quantum2 (a b : N) :
  (a < 256)%N -> (b < 256)%N ->
  let n := (a * 65536 + b * 256)%N in
  let buffer := (((0 * 64 + n / 262144) * 64 + n / 4096 mod 64) * 64 + n / 64 mod 64)%N in
  (buffer / 4 / 256)%N = a /\ (buffer / 4 mod 256)%N = b /\ (n / 262144 < 64)%N.
Proof.
  intros Ha Hb n buffer.
  assert (n / 64 / 64 = n / 4096)%N as E1 by (by rewrite N.Div0.div_div).
  assert (n / 4096 / 64 = n / 262144)%N as E2 by (by rewrite N.Div0.div_div).
  pose proof (N.Div0.div_mod (n / 64) 64) as D2.
  pose proof (N.Div0.div_mod (n / 64 / 64) 64) as D3.
  rewrite E1 in D2, D3. rewrite E2 in D3.
  assert (n / 262144 < 64)%N as Hs by (apply N.Div0.div_lt_upper_bound; unfold n; lia).
  assert (buffer = n / 64)%N as -> by (unfold buffer; lia).
  assert (n / 64 / 4 = a * 256 + b)%N as ->.
  { rewrite N.Div0.div_div. symmetry.
    apply (N.div_unique n (64 * 4) _ 0); unfold n; lia. }
  split; [|split; [|done]].
  - symmetry. apply (N.div_unique _ 256 a b); lia.
  - symmetry. apply (N.mod_unique _ 256 a b); lia.
Qed.

Lemma quantum1 (a : N) :
  (a < 256)%N ->
  let n := (a * 65536)%N in
  let buffer := ((0 * 64 + n / 262144) * 64 + n / 4096 mod 64)%N in
  (buffer / 16)%N = a /\ (n / 262144 < 64)%N.
Proof.
  intros Ha n buffer.
  assert (n / 4096 / 64 = n / 262144)%N as E2 by (by rewrite N.Div0.div_div).
  pose proof (N.Div0.div_mod (n / 4096) 64) as D3. rewrite E2 in D3.
  assert (n / 262144 < 64)%N as Hs by (apply N.Div0.div_lt_upper_bound; unfold n; lia).
  assert (buffer = n / 4096)%N as -> by (unfold buffer; lia).
  split; [|done]. rewrite N.Div0.div_div. symmetry.
  apply (N.div_unique n (4096 * 16) a 0); unfold n; lia.
Qed.

Lemma decode_sextets (bytes : list N) :
  Forall (fun a => (a < 256)%N) bytes -> Base64.decode 0 0 (sextets bytes) = bytes.
Proof.
  induction bytes as [|a|a b|a b c rest IH] using triples_ind; intros Hb.
  - done.
  - apply Forall_cons in Hb as [Ha _].
    destruct (quantum1 a Ha) as [E _]. cbn [sextets Base64.decode Nat.eqb]. by rewrite E.
  - apply Forall_cons in Hb as [Ha Hb]. apply Forall_cons in Hb as [Hb _].
    destruct (quantum2 a b Ha Hb) as (E1 & E2 & _).
    cbn [sextets Base64.decode Nat.eqb]. by rewrite E1, E2.
  - apply Forall_cons in Hb as [Ha Hb]. apply Forall_cons in Hb as [Hb Hc].
    apply Forall_cons in Hc as [Hc Hrest].
    destruct (quantum3 a b c Ha Hb Hc) as (E0 & E1 & E2 & E3 & _).
    cbn [sextets Base64.decode Nat.eqb]. rewrite E0, E1, E2, E3. by rewrite IH.
Qed.

Lemma sextets_small (bytes : list N) :
  Forall (fun a => (a < 256)%N) bytes -> Forall (fun s => (s < 64)%N) (sextets bytes).
Proof.
  induction bytes as [|a|a b|a b c rest IH] using triples_ind; intros Hb.
  - constructor.
  - apply Forall_cons in Hb as [Ha _]. destruct (quantum1 a Ha) as [_ E].
    cbn [sextets]. repeat constructor; [done|]. by apply N.mod_lt.
  - apply Forall_cons in Hb as [Ha Hb]. apply Forall_cons in Hb as [Hb _].
    destruct (quantum2 a b Ha Hb) as (_ & _ & E).
    cbn [sextets]. repeat constructor; [done| |]; by apply N.mod_lt.
  - apply Forall_cons in Hb as [Ha Hb]. apply Forall_cons in Hb as [Hb Hc].
    apply Forall_cons in Hc as [Hc Hrest].
    destruct (quantum3 a b c Ha Hb Hc) as (_ & _ & _ & _ & E).
    cbn [sextets]. repeat (constructor; [done || by apply N.mod_lt|]). by apply IH.
Qed.

Lemma padding_step {A} (a b c : A) (rest : list A) :
  (length (a :: b :: c :: rest) mod 3 = length rest mod 3)%nat.
Proof.
  replace (length (a :: b :: c :: rest)) with (length rest + 1 * 3)%nat by (simpl; lia).
  apply Nat.Div0.mod_add.
Qed.

Lemma encode_sextets (bytes : list N) :
  Base64.encode bytes = map Base64.digit (sextets bytes) ++ padding bytes.
Proof.
  induction bytes as [|a|a b|a b c rest IH] using triples_ind; try done.
  cbn [Base64.encode sextets map app]. rewrite IH. unfold padding.
  by rewrite padding_step.
Qed.

Lemma mod4_step (n : nat) : (S (S (S (S n))) mod 4 = n mod 4)%nat.
Proof.
  replace (S (S (S (S n)))) with (n + 1 * 4)%nat by lia. apply Nat.Div0.mod_add.
Qed.

Lemma sextets_length (bytes : list N) :
  ((length (sextets bytes) + length (padding bytes)) mod 4 = 0)%nat
  /\ (length (sextets bytes) mod 4 ≠ 1)%nat
  /\ (padding bytes = []
      \/ (padding bytes = [Base64.pad] /\ sextets bytes ≠ [])
      \/ padding bytes = [Base64.pad; Base64.pad]).
Proof.
  induction bytes as [|a|a b|a b c rest (IH1 & IH2 & IH3)] using triples_ind.
  - split; [done|]. split; [done|by left].
  - split; [done|]. split; [done|]. right. by right.
  - split; [done|]. split; [done|]. right. by left.
  - assert (padding (a :: b :: c :: rest) = padding rest) as ->
      by (unfold padding; by rewrite padding_step).
    cbn [sextets length]. cbn [Nat.add]. rewrite !mod4_step.
    split; [done|]. split; [done|].
    destruct IH3 as [H|[[H _]|H]]; [by left|right; left|right; by right].
    split; [done|discriminate].
Qed.

(** The sixty-four characters: each is read back as its number, none is
    the padding character, and none is white space. *)
Lemma digit_facts (n : N) :
  (n < 64)%N ->
  Base64.value (Base64.digit n) = Some n
  /\ Ascii.eqb (Base64.digit n) Base64.pad = false
  /\ Base64.ascii_whitespace (Base64.digit n) = false.
Proof.
  intros Hn.
  assert (forallb (fun m =>
            match Base64.value (Base64.digit m) with
            | Some k => (k =? m)%N
            | None => false
            end
            && negb (Ascii.eqb (Base64.digit m) Base64.pad)
            && negb (Base64.ascii_whitespace (Base64.digit m)))
            (map N.of_nat (seq 0 64)) = true) as Hall by (vm_compute; reflexivity).
  rewrite forallb_forall in Hall. specialize (Hall n).
  assert (In n (map N.of_nat (seq 0 64))) as Hin.
  { apply in_map_iff. exists (N.to_nat n). split; [lia|]. apply in_seq. lia. }
  specialize (Hall Hin).
  apply andb_true_iff in Hall as [Hall H3]. apply andb_true_iff in Hall as [H1 H2].
  apply negb_true_iff in H2, H3.
  destruct (Base64.value (Base64.digit n)) as [k|]; [|done].
  apply N.eqb_eq in H1. by subst.
Qed.

Lemma values_digits (sx : list N) :
  Forall (fun s => (s < 64)%N) sx -> Base64.values (map Base64.digit sx) = Some sx.
Proof.
  induction 1 as [|s sx Hs _ IH]; [done|]. simpl.
  destruct (digit_facts s Hs) as (-> & _). by rewrite IH.
Qed.

Lemma filter_digits (sx : list N) (tail : list ascii) :
  Forall (fun s => (s < 64)%N) sx ->
  Forall (fun c => Base64.ascii_whitespace c = false) tail ->
  List.filter (fun c => negb (Base64.ascii_whitespace c)) (map Base64.digit sx ++ tail)
  = map Base64.digit sx ++ tail.
Proof.
  intros Hsx Htail. induction Hsx as [|s sx Hs _ IH].
  - simpl. induction Htail as [|c tail Hc _ IH]; [done|]. simpl. by rewrite Hc, IH.
  - simpl. destruct (digit_facts s Hs) as (_ & _ & ->). simpl. by rewrite IH.
Qed.

Lemma rev_digits_head (sx : list N) :
  Forall (fun s => (s < 64)%N) sx -> sx ≠ [] ->
  exists c r, rev (map Base64.digit sx) = c :: r /\ Ascii.eqb c Base64.pad = false.
Proof.
  intros Hsx Hne. destruct (rev sx) as [|s r] eqn:E.
  - apply (f_equal (@rev N)) in E. rewrite rev_involutive in E. done.
  - exists (Base64.digit s), (map Base64.digit r).
    rewrite <- map_rev, E. split; [done|].
    assert (s ∈ sx) as Hin.
    { apply list_elem_of_In, in_rev. rewrite E. by left. }
    rewrite Forall_forall in Hsx. by destruct (digit_facts s (Hsx s Hin)) as (_ & -> & _).
Qed.

Lemma strip_padding_encoded (bytes : list N) :
  Forall (fun a => (a < 256)%N) bytes ->
  Base64.strip_padding (map Base64.digit (sextets bytes) ++ padding bytes)
  = map Base64.digit (sextets bytes).
Proof.
  intros Hb. pose proof (sextets_small bytes Hb) as Hsx.
  destruct (sextets_length bytes) as (Hlen & _ & Hpad).
  unfold Base64.strip_padding. rewrite length_app, length_map, Hlen. simpl Nat.eqb.
  cbv iota. rewrite rev_app_distr.
  destruct Hpad as [-> | [[-> Hne] | ->]]; simpl rev; simpl app.
  - rewrite app_nil_r. destruct (sextets bytes) as [|s sx] eqn:E; [done|].
    destruct (rev_digits_head (s :: sx) Hsx) as (c & r & Hrev & Hc); [done|].
    rewrite Hrev, Hc. by destruct r.
  - destruct (rev_digits_head _ Hsx Hne) as (c & r & Hrev & Hc).
    rewrite Hrev. change (Ascii.eqb Base64.pad Base64.pad) with true. cbv iota.
    rewrite Hc. by rewrite <- (rev_involutive (map Base64.digit (sextets bytes))), Hrev.
  - change (Ascii.eqb Base64.pad Base64.pad) with true. cbv iota.
    by rewrite rev_involutive.
Qed.

Lemma atob_btoa (data : string) : Base64.atob (Base64.btoa data) = Some data.
Proof.
  unfold Base64.atob, Base64.btoa.
  set (bytes := map N_of_ascii (list_ascii_of_string data)).
  assert (Forall (fun a => (a < 256)%N) bytes) as Hb.
  { apply Forall_fmap, Forall_forall. intros c _. apply N_ascii_bounded. }
  pose proof (sextets_small bytes Hb) as Hsx.
  destruct (sextets_length bytes) as (_ & Hlen & Hpad).
  rewrite list_ascii_of_string_of_list_ascii, encode_sextets.
  rewrite filter_digits; [|done|].
  - rewrite strip_padding_encoded by done. rewrite length_map.
    destruct (Nat.eqb_spec (length (sextets bytes) mod 4) 1) as [H|_]; [done|].
    rewrite values_digits by done. rewrite decode_sextets by done.
    f_equal. unfold bytes. rewrite map_map.
    rewrite (map_ext _ (fun c => c)) by (intros c; apply ascii_N_embedding).
    by rewrite map_id, string_of_list_ascii_of_string.
  - destruct Hpad as [-> | [[-> _] | ->]]; by repeat constructor.
Qed.

Lemma binString_chars (bytes : list Byte.byte) :
  Js.chars (Js.join EmptyString (map fromCodePoint bytes)) = map fromCodePoint bytes.
Proof.
  induction bytes as [|x bytes IH]; [done|].
  destruct bytes as [|y bytes]; [done|].
  change (Js.join EmptyString (map fromCodePoint (x :: y :: bytes)))
    with (fromCodePoint x +:+ EmptyString +:+ Js.join EmptyString (map fromCodePoint (y :: bytes))).
  unfold fromCodePoint at 1. rewrite app_cons_s, !app_nil_l_s. cbn [Js.chars].
  by rewrite IH.
Qed.

Lemma binString_list (bytes : list Byte.byte) :
  list_ascii_of_string (Js.join EmptyString (map fromCodePoint bytes))
  = map ascii_of_byte bytes.
Proof.
  induction bytes as [|x bytes IH]; [done|].
  destruct bytes as [|y bytes]; [done|].
  change (Js.join EmptyString (map fromCodePoint (x :: y :: bytes)))
    with (fromCodePoint x +:+ EmptyString +:+ Js.join EmptyString (map fromCodePoint (y :: bytes))).
  unfold fromCodePoint at 1. rewrite app_cons_s, !app_nil_l_s.
  cbn [list_ascii_of_string]. by rewrite IH.
Qed.

(** Encoding bytes to Base64 and decoding the result gives the bytes
    back. *)
Theorem base64_round_trip (bytes : list Byte.byte) :
  base64ToBytes (bytesToBase64 bytes) = Some bytes.
Proof.
  unfold base64ToBytes, bytesToBase64. rewrite atob_btoa, binString_chars.
  f_equal. rewrite map_map. rewrite <- (map_id bytes) at 2.
  apply map_ext. intros x. simpl. apply byte_of_ascii_of_byte.
Qed.

Lemma encode_length (bytes : list N) :
  length (Base64.encode bytes) = 4 * ((length bytes + 2) / 3).
Proof.
  induction bytes as [|a|a b|a b c rest IH] using triples_ind; try done.
  cbn [Base64.encode length]. rewrite IH.
  replace (S (S (S (length rest))) + 2) with ((length rest + 2) + 1 * 3) by lia.
  rewrite Nat.div_add by done. lia.
Qed.

Lemma encode_alphabet (bytes : list N) :
  Forall (fun a => (a < 256)%N) bytes ->
  Forall (fun c => is_Some (Base64.value c) \/ c = Base64.pad) (Base64.encode bytes).
Proof.
  intros Hb. rewrite encode_sextets. apply Forall_app. split.
  - apply Forall_fmap. eapply Forall_impl; [exact (sextets_small bytes Hb)|].
    intros s Hs. left. simpl. destruct (digit_facts s Hs) as (-> & _). by eexists.
  - unfold padding. destruct (length bytes mod 3) as [|[|[|n]]]; repeat constructor; by right.
Qed.

(** The text that [bytesToBase64] gives has four characters for every
    three bytes, the last group rounded up, and each of them is one of the
    sixty-four characters of the alphabet or the padding character. *)
Theorem base64_text_shape (bytes : list Byte.byte) :
  String.length (bytesToBase64 bytes) = 4 * ((length bytes + 2) / 3)
  /\ Forall (fun c => is_Some (Base64.value c) \/ c = Base64.pad)
            (list_ascii_of_string (bytesToBase64 bytes)).
Proof.
  unfold bytesToBase64, Base64.btoa.
  set (ns := map N_of_ascii _).
  assert (length ns = length bytes) as Hlen
    by (unfold ns; by rewrite binString_list, !length_map).
  split.
  - rewrite <- Hlen, <- encode_length.
    generalize (Base64.encode ns). intros l. induction l as [|c l IH]; [done|].
    simpl. by rewrite IH.
  - rewrite list_ascii_of_string_of_list_ascii. apply encode_alphabet.
    apply Forall_fmap, Forall_forall. intros c _. apply N_ascii_bounded.
Qed.

(** ** A session *)

(** The scenario of the specification: after the first fetch the row is
    done and not modified; the edit makes it modified; a push that resolves
    makes the edit the new original. *)
Example fetch_edit_push (E : RegExpEngine) :
  Reconcile [] flat_hello flat_bonjour = [greeting_row]
  /\ filteredRows E [greeting_row] "#done" ∅ = Done [greeting_row]
  /\ filteredRows E [edited_row] "#modified" ∅ = Done [edited_row]
  /\ filteredRows E [edited_row] "#done" ∅ = Done []
  /\ modifiedCount [edited_row] = 1
  /\ handlePushToGitHub "token" (Some "Update") (fun _ _ => true) false [edited_row]
     = (PushSucceeded, [mkRow "'a'.'b'" "Hello" "Salut" "Salut" None (Some EmptyString)]).
Proof. repeat split; vm_compute; reflexivity. Qed.
